(** * Simple C compiler: types, semantic checker, storage allocator,
      code generator and driver, embedded from the C++ sources.

    Conventions of the embedding.
    - [unsigned], [unsigned long] values are [N]; arithmetic on them is
      reduced modulo 2^32, 2^64 where the source computes.
    - [int] values are [Z]; the result of [int] arithmetic is brought back
      into the two's-complement range by [to_int].
    - A failed [assert] aborts the process: code that can reach one runs in
      an option monad and yields [None] there.
    - Pointers to tree nodes and to symbols are addresses ([positive]); the
      mutable fields reached through them live in finite maps. *)

From stdpp Require Import base numbers strings list gmap pretty.

Set Warnings "-register-all".
Local Open Scope Z_scope.

(** ** Machine integers *)

Definition to_unsigned (n : N) : N := (n mod 2 ^ 32)%N.
Definition to_ulong (n : N) : N := (n mod 2 ^ 64)%N.
Definition INT_MIN : Z := - 2 ^ 31.
Definition INT_MAX : Z := 2 ^ 31 - 1.
Definition to_int (z : Z) : Z := (z + 2 ^ 31) mod 2 ^ 32 - 2 ^ 31.

(** ** machine.h *)

Definition SIZEOF_CHAR : N := 1.
Definition SIZEOF_INT : N := 4.
Definition SIZEOF_LONG : N := 8.
Definition SIZEOF_PTR : N := 8.
Definition ALIGNOF_CHAR : N := 1.
Definition ALIGNOF_INT : N := 4.
Definition ALIGNOF_LONG : N := 8.
Definition ALIGNOF_PTR : N := 8.
Definition SIZEOF_REG : Z := 8.
Definition NUM_PARAM_REGS : nat := 6.
Definition PARAM_ALIGNMENT : Z := 8.
Definition STACK_ALIGNMENT : Z := 16.
Definition global_prefix : string := "".
Definition global_suffix : string := "".
Definition label_prefix : string := ".L".

(** ** Type.h, Type.cpp *)

Inductive Specifier := CHAR | INT | LONG.
Inductive Kind := ARRAY | FUNCTION | SCALAR | ERROR.

Global Instance Specifier_eq_dec : EqDecision Specifier.
Proof. solve_decision. Defined.
Global Instance Kind_eq_dec : EqDecision Kind.
Proof. solve_decision. Defined.

(** The class [Type] is a tagged union: the constructor in use fixes the
    kind, [_length] exists for arrays and [_parameters] (the variadic flag
    and the parameter types) for functions.  The default constructor leaves
    specifier and indirection of the error type uninitialised. *)
Inductive Type_ :=
| TError
| TScalar (specifier : Specifier) (indirection : N)
| TArray (specifier : Specifier) (indirection : N) (length : N)
| TFunction (specifier : Specifier) (indirection : N)
            (variadic : bool) (types : list Type_).

Abbreviation Types := (list Type_).

Record Parameters := mkParameters { variadic : bool; types : Types }.

Section Type_induction.
Variable P : Type_ → Prop.
Hypothesis P_error : P TError.
Hypothesis P_scalar : ∀ s i, P (TScalar s i).
Hypothesis P_array : ∀ s i n, P (TArray s i n).
Hypothesis P_function :
  ∀ s i v ts, Forall P ts → P (TFunction s i v ts).

Fixpoint Type_nested_ind (t : Type_) : P t :=
  match t with
  | TError => P_error
  | TScalar s i => P_scalar s i
  | TArray s i n => P_array s i n
  | TFunction s i v ts =>
      P_function s i v ts
        ((fix all (l : Types) : Forall P l :=
            match l with
            | [] => @List.Forall_nil _ P
            | x :: r => @List.Forall_cons _ P x r (Type_nested_ind x) (all r)
            end) ts)
  end.
End Type_induction.

Definition kind (t : Type_) : Kind :=
  match t with
  | TError => ERROR
  | TScalar _ _ => SCALAR
  | TArray _ _ _ => ARRAY
  | TFunction _ _ _ _ => FUNCTION
  end.

(** [Type::specifier], [Type::indirection]: the error type holds no value
    for them; the code below never reads them on it. *)
Definition specifier (t : Type_) : Specifier :=
  match t with
  | TError => INT
  | TScalar s _ | TArray s _ _ | TFunction s _ _ _ => s
  end.

Definition indirection (t : Type_) : N :=
  match t with
  | TError => 0%N
  | TScalar _ i | TArray _ i _ | TFunction _ i _ _ => i
  end.

(** [Type::length]: [assert(_kind == ARRAY)]. *)
Definition length_ (t : Type_) : option N :=
  match t with TArray _ _ n => Some n | _ => None end.

(** [Type::parameters]: [assert(_kind == FUNCTION)]. *)
Definition parameters (t : Type_) : option Parameters :=
  match t with
  | TFunction _ _ v ts => Some (mkParameters v ts)
  | _ => None
  end.

(** [Type::operator ==].  The comparison of the two [types] vectors is the
    one of [std::vector]: same length and pairwise [==]. *)
Fixpoint Type_eq (this that : Type_) {struct this} : bool :=
  if negb (bool_decide (kind this = kind that)) then false
  else if bool_decide (kind this = ERROR) then true
  else if negb (bool_decide (specifier this = specifier that))
          || negb (indirection this =? indirection that)%N then false
  else if bool_decide (kind this = SCALAR) then true
  else
    match this, that with
    | TArray _ _ n, TArray _ _ n' => (n =? n')%N
    | TFunction _ _ v ts, TFunction _ _ v' ts' =>
        if negb (eqb v v') then false
        else
          (fix vector_eq (l l' : Types) : bool :=
             match l, l' with
             | [], [] => true
             | x :: r, x' :: r' => Type_eq x x' && vector_eq r r'
             | _, _ => false
             end) ts ts'
    | _, _ => false
    end.

(** [Type::operator !=] *)
Definition Type_ne (this that : Type_) : bool := negb (Type_eq this that).

Definition isScalar (t : Type_) : bool := bool_decide (kind t = SCALAR).
Definition isArray (t : Type_) : bool := bool_decide (kind t = ARRAY).
Definition isFunction (t : Type_) : bool := bool_decide (kind t = FUNCTION).

Definition isNumeric (t : Type_) : bool :=
  bool_decide (kind t = SCALAR) && (indirection t =? 0)%N.

Definition isPointer (t : Type_) : bool :=
  bool_decide (kind t = SCALAR) && (0 <? indirection t)%N.

Definition isCompatibleWith (this that : Type_) : bool :=
  (isNumeric this && isNumeric that) || (isScalar this && Type_eq this that).

(** [Type::decay], [Type::promote] *)
Definition Type_decay (t : Type_) : Type_ :=
  match t with
  | TArray s i _ => TScalar s (to_unsigned (i + 1))
  | _ => t
  end.

Definition Type_promote (t : Type_) : Type_ :=
  match t with
  | TScalar CHAR 0%N => TScalar INT 0
  | _ => t
  end.

(** [Type::dereference]: [assert(_kind == SCALAR && _indirection > 0)]. *)
Definition dereference_assert (t : Type_) : bool := isPointer t.

Definition Type_dereference (t : Type_) : Type_ :=
  TScalar (specifier t) (indirection t - 1).

(** [Type::size] (allocator.cpp):
    [assert(_kind != FUNCTION && _kind != ERROR)]. *)
Definition size_assert (t : Type_) : bool :=
  negb (bool_decide (kind t = FUNCTION)) && negb (bool_decide (kind t = ERROR)).

Definition size (t : Type_) : N :=
  let count := match t with TArray _ _ n => n | _ => 1%N end in
  if (0 <? indirection t)%N then to_ulong (count * SIZEOF_PTR)
  else
    match specifier t with
    | CHAR => to_ulong (count * SIZEOF_CHAR)
    | INT => to_ulong (count * SIZEOF_INT)
    | LONG => to_ulong (count * SIZEOF_LONG)
    end.

(** [Type::alignment] (allocator.cpp), under the assertion of [size]. *)
Definition alignment (t : Type_) : N :=
  if (0 <? indirection t)%N then ALIGNOF_PTR
  else
    match specifier t with
    | CHAR => ALIGNOF_CHAR
    | INT => ALIGNOF_INT
    | LONG => ALIGNOF_LONG
    end.

(** The three value types the checker names. *)
Definition error : Type_ := TError.
Definition character : Type_ := TScalar CHAR 0.
Definition integer : Type_ := TScalar INT 0.
Definition longint : Type_ := TScalar LONG 0.

(** ** Symbol.h, Tree.h

    Modelled from the spec: Symbol.h, Scope.h and Tree.h are not part of
    the sources at hand.  A symbol is [(name, type, offset)] with offset 0
    until it is allocated; an expression node carries its type, and its
    mutable fields [reg] and [offset] are reached through its address; a
    literal built from an [unsigned long] is a [long] literal; the lvalues
    are the identifiers of non-array type and the dereferences. *)

Abbreviation Addr := positive.

Record Symbol := mkSymbol {
  Symbol_name : string;
  Symbol_type : Type_;
  Symbol_offset : Z
}.

Inductive Expression :=
| Number (a : Addr) (t : Type_) (value : N)
| String_ (a : Addr) (t : Type_) (value : string)
| Identifier (a : Addr) (t : Type_) (symbol : Addr)
| Call (a : Addr) (t : Type_) (id : Addr) (args : list Expression)
| Not (a : Addr) (t : Type_) (expr : Expression)
| Negate (a : Addr) (t : Type_) (expr : Expression)
| Address (a : Addr) (t : Type_) (expr : Expression)
| Dereference (a : Addr) (t : Type_) (expr : Expression)
| Cast (a : Addr) (t : Type_) (expr : Expression)
| Multiply (a : Addr) (t : Type_) (left right : Expression)
| Divide (a : Addr) (t : Type_) (left right : Expression)
| Remainder (a : Addr) (t : Type_) (left right : Expression)
| Add (a : Addr) (t : Type_) (left right : Expression)
| Subtract (a : Addr) (t : Type_) (left right : Expression)
| LessThan (a : Addr) (t : Type_) (left right : Expression)
| GreaterThan (a : Addr) (t : Type_) (left right : Expression)
| LessOrEqual (a : Addr) (t : Type_) (left right : Expression)
| GreaterOrEqual (a : Addr) (t : Type_) (left right : Expression)
| Equal (a : Addr) (t : Type_) (left right : Expression)
| NotEqual (a : Addr) (t : Type_) (left right : Expression)
| LogicalAnd (a : Addr) (t : Type_) (left right : Expression)
| LogicalOr (a : Addr) (t : Type_) (left right : Expression).

Abbreviation Expressions := (list Expression).

Definition addr_of (e : Expression) : Addr :=
  match e with
  | Number a _ _ | String_ a _ _ | Identifier a _ _ | Call a _ _ _
  | Not a _ _ | Negate a _ _ | Address a _ _ | Dereference a _ _
  | Cast a _ _
  | Multiply a _ _ _ | Divide a _ _ _ | Remainder a _ _ _ | Add a _ _ _
  | Subtract a _ _ _ | LessThan a _ _ _ | GreaterThan a _ _ _
  | LessOrEqual a _ _ _ | GreaterOrEqual a _ _ _ | Equal a _ _ _
  | NotEqual a _ _ _ | LogicalAnd a _ _ _ | LogicalOr a _ _ _ => a
  end.

(** [Expression::type] *)
Definition type_of (e : Expression) : Type_ :=
  match e with
  | Number _ t _ | String_ _ t _ | Identifier _ t _ | Call _ t _ _
  | Not _ t _ | Negate _ t _ | Address _ t _ | Dereference _ t _
  | Cast _ t _
  | Multiply _ t _ _ | Divide _ t _ _ | Remainder _ t _ _ | Add _ t _ _
  | Subtract _ t _ _ | LessThan _ t _ _ | GreaterThan _ t _ _
  | LessOrEqual _ t _ _ | GreaterOrEqual _ t _ _ | Equal _ t _ _
  | NotEqual _ t _ _ | LogicalAnd _ t _ _ | LogicalOr _ t _ _ => t
  end.

(** [Expression::lvalue] *)
Definition lvalue (e : Expression) : bool :=
  match e with
  | Identifier _ t _ => negb (isArray t)
  | Dereference _ _ _ => true
  | _ => false
  end.

(** [Expression::isNumber(value)] *)
Definition isNumber (e : Expression) : option N :=
  match e with Number _ _ value => Some value | _ => None end.

(** [Expression::isDereference(pointer)] *)
Definition isDereference (e : Expression) : option Expression :=
  match e with Dereference _ _ pointer => Some pointer | _ => None end.

Inductive Statement :=
| Simple (expr : Expression)
| Assignment (left right : Expression)
| Return (expr : Expression)
| Break
| While (expr : Expression) (stmt : Statement)
| For (init : Statement) (expr : Expression) (incr : Statement)
      (stmt : Statement)
| If (expr : Expression) (thenStmt : Statement)
     (elseStmt : option Statement)
| Block (decls : list Addr) (stmts : list Statement).

Abbreviation Statements := (list Statement).

(** [Function(id, new Block(decls, stmts))] *)
Record Function := mkFunction {
  Function_id : Addr;
  Function_decls : list Addr;
  Function_stmts : Statements
}.

Definition Function_body (f : Function) : Statement :=
  Block (Function_decls f) (Function_stmts f).

Section Statement_induction.
Variable P : Statement → Prop.
Hypothesis P_simple : ∀ e, P (Simple e).
Hypothesis P_assignment : ∀ l r, P (Assignment l r).
Hypothesis P_return : ∀ e, P (Return e).
Hypothesis P_break : P Break.
Hypothesis P_while : ∀ e s, P s → P (While e s).
Hypothesis P_for : ∀ i e c s, P i → P c → P s → P (For i e c s).
Hypothesis P_if_then : ∀ e s, P s → P (If e s None).
Hypothesis P_if_else : ∀ e s s', P s → P s' → P (If e s (Some s')).
Hypothesis P_block : ∀ ds ss, Forall P ss → P (Block ds ss).

Fixpoint Statement_nested_ind (s : Statement) : P s :=
  match s with
  | Simple e => P_simple e
  | Assignment l r => P_assignment l r
  | Return e => P_return e
  | Break => P_break
  | While e b => P_while e b (Statement_nested_ind b)
  | For i e c b =>
      P_for i e c b (Statement_nested_ind i) (Statement_nested_ind c)
        (Statement_nested_ind b)
  | If e t None => P_if_then e t (Statement_nested_ind t)
  | If e t (Some f) =>
      P_if_else e t f (Statement_nested_ind t) (Statement_nested_ind f)
  | Block ds ss =>
      P_block ds ss
        ((fix all (l : Statements) : Forall P l :=
            match l with
            | [] => @List.Forall_nil _ P
            | x :: r =>
                @List.Forall_cons _ P x r (Statement_nested_ind x) (all r)
            end) ss)
  end.
End Statement_induction.

(** ** Registers (generator.cpp, lines 28-44)

    Modelled from the spec: Register.h is not part of the sources at hand.
    A register has three names, [name(size)] picks the one of that size
    (the 64-bit name unless the size is 1 or 4), and the register's [node]
    field is the node it holds.  Written to a stream, a register that holds
    a node shows the name sized for that node's type. *)

Inductive Register :=
| rax | rbx | rcx | rdx | rsi | rdi
| r8 | r9 | r10 | r11 | r12 | r13 | r14 | r15.

Global Instance Register_eq_dec : EqDecision Register.
Proof. solve_decision. Defined.

Definition qword (r : Register) : string :=
  match r with
  | rax => "%rax" | rbx => "%rbx" | rcx => "%rcx" | rdx => "%rdx"
  | rsi => "%rsi" | rdi => "%rdi" | r8 => "%r8" | r9 => "%r9"
  | r10 => "%r10" | r11 => "%r11" | r12 => "%r12" | r13 => "%r13"
  | r14 => "%r14" | r15 => "%r15"
  end.

Definition lword (r : Register) : string :=
  match r with
  | rax => "%eax" | rbx => "%ebx" | rcx => "%ecx" | rdx => "%edx"
  | rsi => "%esi" | rdi => "%edi" | r8 => "%r8d" | r9 => "%r9d"
  | r10 => "%r10d" | r11 => "%r11d" | r12 => "%r12d" | r13 => "%r13d"
  | r14 => "%r14d" | r15 => "%r15d"
  end.

Definition byte (r : Register) : string :=
  match r with
  | rax => "%al" | rbx => "%bl" | rcx => "%cl" | rdx => "%dl"
  | rsi => "%sil" | rdi => "%dil" | r8 => "%r8b" | r9 => "%r9b"
  | r10 => "%r10b" | r11 => "%r11b" | r12 => "%r12b" | r13 => "%r13b"
  | r14 => "%r14b" | r15 => "%r15b"
  end.

Definition Register_name (r : Register) (size : N) : string :=
  if (size =? 1)%N then byte r
  else if (size =? 4)%N then lword r
  else qword r.

Definition parameter_registers : list Register :=
  [rdi; rsi; rdx; rcx; r8; r9].

Definition registers : list Register :=
  [rax; rdi; rsi; rdx; rcx; r8; r9; r10; r11].

(** ** The text written to standard output

    A line of assembly is kept as its opcode and operands; [render] gives
    the characters the source writes. *)

Inductive Operand :=
| Imm (v : Z)                (* $v *)
| ImmSym (s : string)        (* $s *)
| Rg (name : string)         (* a register name *)
| Frame (off : Z)            (* off(%rbp) *)
| Global (name : string)     (* a global name *)
| Indirect (o : Operand)     (* (o) *)
| Empty.                     (* nothing is written *)

Inductive Line :=
| Ins (opcode : string) (operands : list Operand)
| Lbl (text : string)
| Blank
| Set_size (name : string) (value : Z)
| Globl (name : string)
| Comm (name : string) (size : N).

Definition tab : string :=
  String (Ascii.Ascii true false false true false false false false) "".

Fixpoint render_operand (o : Operand) : string :=
  match o with
  | Imm v => "$" +:+ pretty v
  | ImmSym s => "$" +:+ s
  | Rg name => name
  | Frame off => pretty off +:+ "(%rbp)"
  | Global name => global_prefix +:+ name +:+ global_suffix
  | Indirect o => "(" +:+ render_operand o +:+ ")"
  | Empty => ""
  end.

Fixpoint render_operands (os : list Operand) : string :=
  match os with
  | [] => ""
  | [o] => render_operand o
  | o :: os => render_operand o +:+ ", " +:+ render_operands os
  end.

Definition render (l : Line) : string :=
  match l with
  | Ins opcode [] => tab +:+ opcode
  | Ins opcode os => tab +:+ opcode +:+ tab +:+ render_operands os
  | Lbl text => text +:+ ":"
  | Blank => ""
  | Set_size name value =>
      tab +:+ ".set" +:+ tab +:+ name +:+ ".size, " +:+ pretty value
  | Globl name => tab +:+ ".globl" +:+ tab +:+ global_prefix +:+ name
  | Comm name size =>
      tab +:+ ".comm" +:+ tab +:+ global_prefix +:+ name +:+ ", "
      +:+ pretty size
  end.

(** ** The process state

    The static and global variables of checker.cpp, parser.cpp,
    generator.cpp, of the lexer ([numerrors]) and of [Label], the heap of
    symbols, the mutable fields of registers and expression nodes, and the
    two output streams. *)

Record State := mkState {
  symtab : gmap Addr Symbol;  (* the Symbol objects *)
  next : Addr;  (* the next address [new] hands out *)
  defined : list string;  (* checker.cpp: the names of the defined functions *)
  scopes : list (list Addr);  (* checker.cpp: [current] first, [global] last *)
  numerrors : nat;  (* the number of calls of [report] *)
  stderr : list (string * string);  (* the diagnostics: format, argument *)
  returnType : Type_;  (* parser.cpp *)
  loopDepth : N;  (* parser.cpp *)
  offset : Z;  (* generator.cpp: [static int offset] *)
  funcname : string;  (* generator.cpp *)
  node : Register → option Expression;  (* [Register::node] *)
  reg : gmap Addr Register;  (* [Expression::reg], absent when null *)
  slot : gmap Addr Z;  (* [Expression::offset], absent when 0 *)
  counter : N;  (* [Label::_counter] *)
  stdout : list Line  (* the lines written to standard output *)
}.

Definition set_symtab (v : gmap Addr Symbol) (s : State) : State :=
  mkState v (next s) (defined s) (scopes s) (numerrors s) (stderr s) (returnType s) (loopDepth s) (offset s) (funcname s) (node s) (reg s) (slot s) (counter s) (stdout s).
Definition set_next (v : Addr) (s : State) : State :=
  mkState (symtab s) v (defined s) (scopes s) (numerrors s) (stderr s) (returnType s) (loopDepth s) (offset s) (funcname s) (node s) (reg s) (slot s) (counter s) (stdout s).
Definition set_defined (v : list string) (s : State) : State :=
  mkState (symtab s) (next s) v (scopes s) (numerrors s) (stderr s) (returnType s) (loopDepth s) (offset s) (funcname s) (node s) (reg s) (slot s) (counter s) (stdout s).
Definition set_scopes (v : list (list Addr)) (s : State) : State :=
  mkState (symtab s) (next s) (defined s) v (numerrors s) (stderr s) (returnType s) (loopDepth s) (offset s) (funcname s) (node s) (reg s) (slot s) (counter s) (stdout s).
Definition set_numerrors (v : nat) (s : State) : State :=
  mkState (symtab s) (next s) (defined s) (scopes s) v (stderr s) (returnType s) (loopDepth s) (offset s) (funcname s) (node s) (reg s) (slot s) (counter s) (stdout s).
Definition set_stderr (v : list (string * string)) (s : State) : State :=
  mkState (symtab s) (next s) (defined s) (scopes s) (numerrors s) v (returnType s) (loopDepth s) (offset s) (funcname s) (node s) (reg s) (slot s) (counter s) (stdout s).
Definition set_returnType (v : Type_) (s : State) : State :=
  mkState (symtab s) (next s) (defined s) (scopes s) (numerrors s) (stderr s) v (loopDepth s) (offset s) (funcname s) (node s) (reg s) (slot s) (counter s) (stdout s).
Definition set_loopDepth (v : N) (s : State) : State :=
  mkState (symtab s) (next s) (defined s) (scopes s) (numerrors s) (stderr s) (returnType s) v (offset s) (funcname s) (node s) (reg s) (slot s) (counter s) (stdout s).
Definition set_offset (v : Z) (s : State) : State :=
  mkState (symtab s) (next s) (defined s) (scopes s) (numerrors s) (stderr s) (returnType s) (loopDepth s) v (funcname s) (node s) (reg s) (slot s) (counter s) (stdout s).
Definition set_funcname (v : string) (s : State) : State :=
  mkState (symtab s) (next s) (defined s) (scopes s) (numerrors s) (stderr s) (returnType s) (loopDepth s) (offset s) v (node s) (reg s) (slot s) (counter s) (stdout s).
Definition set_node (v : Register → option Expression) (s : State) : State :=
  mkState (symtab s) (next s) (defined s) (scopes s) (numerrors s) (stderr s) (returnType s) (loopDepth s) (offset s) (funcname s) v (reg s) (slot s) (counter s) (stdout s).
Definition set_reg (v : gmap Addr Register) (s : State) : State :=
  mkState (symtab s) (next s) (defined s) (scopes s) (numerrors s) (stderr s) (returnType s) (loopDepth s) (offset s) (funcname s) (node s) v (slot s) (counter s) (stdout s).
Definition set_slot (v : gmap Addr Z) (s : State) : State :=
  mkState (symtab s) (next s) (defined s) (scopes s) (numerrors s) (stderr s) (returnType s) (loopDepth s) (offset s) (funcname s) (node s) (reg s) v (counter s) (stdout s).
Definition set_counter (v : N) (s : State) : State :=
  mkState (symtab s) (next s) (defined s) (scopes s) (numerrors s) (stderr s) (returnType s) (loopDepth s) (offset s) (funcname s) (node s) (reg s) (slot s) v (stdout s).
Definition set_stdout (v : list Line) (s : State) : State :=
  mkState (symtab s) (next s) (defined s) (scopes s) (numerrors s) (stderr s) (returnType s) (loopDepth s) (offset s) (funcname s) (node s) (reg s) (slot s) (counter s) v.

(** ** Computations over the process state

    A computation returns a value, or the process ends: by a call of
    [exit], by a failed assertion (or a pointer that leads nowhere), or
    the computation does not return at all, which a loop that takes its
    rounds from a supply of fuel shows by running out of it. *)

Inductive Outcome (A : Type) :=
| Returned (a : A) (s : State)
| Exited (status : Z) (s : State)
| Aborted
| OutOfFuel.

Arguments Returned {A} a s.
Arguments Exited {A} status s.
Arguments Aborted {A}.
Arguments OutOfFuel {A}.

Definition M (A : Type) : Type := State → Outcome A.

Definition ret {A} (a : A) : M A := λ s, Returned a s.

Definition bind {A B} (m : M A) (f : A → M B) : M B :=
  λ s, match m s with
       | Returned a s' => f a s'
       | Exited status s' => Exited status s'
       | Aborted => Aborted
       | OutOfFuel => OutOfFuel
       end.

Declare Scope M_scope.
Delimit Scope M_scope with M.
Notation "x <- m ;; k" := (bind m (λ x, k))
  (at level 100, m at next level, right associativity) : M_scope.
Notation "m ;; k" := (bind m (λ _, k))
  (at level 100, right associativity) : M_scope.
Local Open Scope M_scope.

Definition get : M State := λ s, Returned s s.
Definition modify (f : State → State) : M unit := λ s, Returned tt (f s).
Definition abort {A} : M A := λ _, Aborted.
Definition out_of_fuel {A} : M A := λ _, OutOfFuel.
Definition exit {A} (status : Z) : M A := λ s, Exited status s.
Definition assert_ (b : bool) : M unit := if b then ret tt else abort.
Definition when (b : bool) (m : M unit) : M unit := if b then m else ret tt.

(** [for (i = n - 1; i >= 0; i--) body(i)]; [a] stands for the local
    variables the body updates. *)
Fixpoint for_down {A} (n : nat) (body : nat → A → M A) (a : A) : M A :=
  match n with
  | O => ret a
  | S i => a <- body i a;; for_down i body a
  end.

(** [for (auto x : xs) body(x)] *)
Fixpoint for_each {A} (xs : list A) (body : A → M unit) : M unit :=
  match xs with
  | [] => ret tt
  | x :: r => body x;; for_each r body
  end.

(** [cout << line << endl] *)
Definition emit (l : Line) : M unit :=
  modify (λ s, set_stdout (stdout s ++ [l]) s).

(** Modelled from the spec: [report] belongs to the lexer, which is not
    part of the sources at hand; it writes the diagnostic to standard error
    and counts it in [numerrors]. *)
Definition report (message : string) (arg : string) : M unit :=
  modify (λ s, set_numerrors (S (numerrors s))
                 (set_stderr (stderr s ++ [(message, arg)]) s)).

(** A pointer to a symbol is followed; a dangling one has no behaviour. *)
Definition symbol_at (a : Addr) : M Symbol :=
  s <- get;;
  match symtab s !! a with
  | Some sym => ret sym
  | None => abort
  end.

(** ** checker.cpp *)

Definition redefined : string := "redefinition of '%s'".
Definition redeclared : string := "redeclaration of '%s'".
Definition conflicting : string := "conflicting types for '%s'".
Definition undeclared : string := "'%s' undeclared".
Definition invalid_break : string := "break statement not within loop".
Definition invalid_return : string := "invalid return type".
Definition invalid_scalar : string := "scalar type required in statement".
Definition invalid_lvalue : string := "lvalue required in expression".
Definition invalid_operands : string := "invalid operands to binary %s".
Definition invalid_operand : string := "invalid operand to unary %s".
Definition invalid_sizeof : string := "invalid operand in sizeof expression".
Definition invalid_cast : string := "invalid operand in cast expression".
Definition invalid_function : string := "called object is not a function".
Definition invalid_arguments : string :=
  "invalid arguments to called function".

(** [new]: the address of the object it creates is one never handed out
    before.  In [new A(new B(...))] the address of the [A] is drawn first. *)
Definition fresh : M Addr :=
  s <- get;;
  modify (set_next (Pos.succ (next s)));;
  ret (next s).

(** [cast] (private).  [expr] is a reference to the caller's pointer: the
    expression returned is the one the caller holds afterwards. *)
Definition cast (expr : Expression) (type : Type_) : M Expression :=
  expr <- match isNumber expr with
          | Some value =>
              if Type_eq (type_of expr) integer && Type_eq type longint
              then a <- fresh;; ret (Number a longint value)
              else ret expr
          | None => ret expr
          end;;
  if Type_ne (type_of expr) type
  then a <- fresh;; ret (Cast a type expr)
  else ret expr.

Definition promote (expr : Expression) : M Expression :=
  cast expr (Type_promote (type_of expr)).

(** [decay] (private): the type it returns is the type of the expression
    the caller holds afterwards. *)
Definition decay (expr : Expression) : M Expression :=
  if isArray (type_of expr)
  then a <- fresh;; ret (Address a (Type_decay (type_of expr)) expr)
  else ret expr.

Definition extend (expr : Expression) (type : Type_) : M Expression :=
  let t := type_of expr in
  if (Type_eq t character || Type_eq t integer) && Type_eq type longint
  then cast expr longint
  else promote expr.

(** [scale] (private); [size] is an [unsigned]. *)
Definition scale (expr : Expression) (size : N) : M Expression :=
  if (size =? 1)%N then extend expr longint
  else
    match isNumber expr with
    | Some value =>
        a <- fresh;; ret (Number a longint (to_ulong (value * size)))
    | None =>
        expr <- extend expr longint;;
        a <- fresh;;
        b <- fresh;;
        ret (Multiply a longint expr (Number b longint size))
    end.

(** *** Scopes

    Modelled from the spec: Scope.cpp is not part of the sources at hand.
    A scope keeps its symbols in insertion order; [find] searches one
    scope by name, [lookup] searches outward through the enclosing scopes.
    The chain that starts at [current] is the list [scopes]; [global] is
    its last element. *)

Fixpoint Scope_find (Σ : gmap Addr Symbol) (name : string)
    (symbols : list Addr) : option Addr :=
  match symbols with
  | [] => None
  | a :: r =>
      match Σ !! a with
      | Some sym =>
          if String.eqb (Symbol_name sym) name then Some a
          else Scope_find Σ name r
      | None => Scope_find Σ name r
      end
  end.

Fixpoint Scope_lookup (Σ : gmap Addr Symbol) (name : string)
    (chain : list (list Addr)) : option Addr :=
  match chain with
  | [] => None
  | scope :: enclosing =>
      match Scope_find Σ name scope with
      | Some a => Some a
      | None => Scope_lookup Σ name enclosing
      end
  end.

(** [new Symbol(name, type)] *)
Definition new_Symbol (name : string) (type : Type_) : M Addr :=
  a <- fresh;;
  modify (λ s, set_symtab (<[a := mkSymbol name type 0]> (symtab s)) s);;
  ret a.

(** [current->insert(symbol)] *)
Definition insert_current (a : Addr) : M unit :=
  s <- get;;
  match scopes s with
  | current :: enclosing =>
      modify (set_scopes ((current ++ [a]) :: enclosing))
  | [] => abort
  end.

(** [global->insert(symbol)] *)
Definition insert_global (a : Addr) : M unit :=
  s <- get;;
  match reverse (scopes s) with
  | global :: inner =>
      modify (set_scopes (reverse ((global ++ [a]) :: inner)))
  | [] => abort
  end.

Definition openScope : M unit :=
  modify (λ s, set_scopes ([] :: scopes s) s).

(** [closeScope(cleanup)]: the scope handed back is its list of symbols;
    with [cleanup] the symbols are deleted and nothing is handed back. *)
Definition closeScope (cleanup : bool) : M (list Addr) :=
  s <- get;;
  match scopes s with
  | old :: enclosing =>
      modify (set_scopes enclosing);;
      if negb cleanup then ret old
      else
        modify (λ s, set_symtab
                       (foldr (λ a Σ, delete a Σ) (symtab s) old) s);;
        ret []
  | [] => abort
  end.

Definition declareFunction (name : string) (type : Type_) : M Addr :=
  s <- get;;
  match reverse (scopes s) with
  | global :: _ =>
      match Scope_find (symtab s) name global with
      | None =>
          symbol <- new_Symbol name type;;
          insert_global symbol;;
          ret symbol
      | Some symbol =>
          sym <- symbol_at symbol;;
          when (Type_ne (Symbol_type sym) type) (report conflicting name);;
          ret symbol
      end
  | [] => abort
  end.

Definition defineFunction (name : string) (type : Type_) : M Addr :=
  s <- get;;
  when (bool_decide (name ∈ defined s)) (report redefined name);;
  modify (λ s, set_defined (name :: defined s) s);;
  declareFunction name type.

Definition declareVariable (name : string) (type : Type_) : M Addr :=
  s <- get;;
  match scopes s with
  | current :: enclosing =>
      match Scope_find (symtab s) name current with
      | None =>
          symbol <- new_Symbol name type;;
          insert_current symbol;;
          ret symbol
      | Some symbol =>
          sym <- symbol_at symbol;;
          (if bool_decide (enclosing ≠ []) then report redeclared name
           else when (Type_ne (Symbol_type sym) type)
                  (report conflicting name));;
          ret symbol
      end
  | [] => abort
  end.

Definition checkIdentifier (name : string) : M Addr :=
  s <- get;;
  match Scope_lookup (symtab s) name (scopes s) with
  | Some symbol => ret symbol
  | None =>
      report undeclared name;;
      symbol <- new_Symbol name error;;
      insert_current symbol;;
      ret symbol
  end.

(** *** Expressions *)

(** [new Call(id, args, error)] after a diagnostic: the early returns of
    [checkCall]. *)
Definition invalid_call (message : string) (id : Addr)
    (args : Expressions) : M Expression :=
  report message "";;
  a <- fresh;;
  ret (Call a error id args).

(** The [for] loop of [checkCall] over the declared parameters, from index
    [i], [n] rounds.  It either leaves through one of the early returns
    ([inl]) or falls through with the arguments as converted ([inr]). *)
Fixpoint checkCall_parameters (id : Addr) (types : Types) (n i : nat)
    (args : Expressions) : M (Expression + Expressions) :=
  match n with
  | O => ret (inr args)
  | S n' =>
      match args !! i, types !! i with
      | Some arg, Some type =>
          if Type_ne (type_of arg) error then
            arg <- decay arg;;
            let args := <[i := arg]> args in
            if negb (isCompatibleWith type (type_of arg)) then
              c <- invalid_call invalid_arguments id args;;
              ret (inl c)
            else
              arg <- cast arg type;;
              checkCall_parameters id types n' (S i) (<[i := arg]> args)
          else checkCall_parameters id types n' (S i) args
      | _, _ => abort
      end
  end.

(** The [while] loop of [checkCall] over the arguments that follow the
    declared parameters.  The index moves on inside the inner condition
    only: on an argument of error type the loop makes no progress, and no
    amount of [fuel] lets it return. *)
Fixpoint checkCall_variadic (fuel : nat) (id : Addr) (i : nat)
    (args : Expressions) : M (Expression + Expressions) :=
  match fuel with
  | O => out_of_fuel
  | S fuel' =>
      match args !! i with
      | Some arg =>
          if Type_ne (type_of arg) error then
            arg <- promote arg;;
            arg <- decay arg;;
            let args := <[i := arg]> args in
            if negb (isScalar (type_of arg)) then
              c <- invalid_call invalid_arguments id args;;
              ret (inl c)
            else checkCall_variadic fuel' id (S i) args
          else checkCall_variadic fuel' id i args
      | None => ret (inr args)
      end
  end.

Definition checkCall (fuel : nat) (id : Addr) (args : Expressions)
    : M Expression :=
  sym <- symbol_at id;;
  let t := Symbol_type sym in
  if Type_ne t error then
    if negb (isFunction t) then invalid_call invalid_function id args
    else
      match parameters t with
      | None => abort
      | Some params =>
          if (length args <? length (types params))%nat then
            invalid_call invalid_arguments id args
          else if negb (variadic params)
                  && (length (types params) <? length args)%nat then
            invalid_call invalid_arguments id args
          else
            r <- checkCall_parameters id (types params)
                   (length (types params)) 0 args;;
            match r with
            | inl call => ret call
            | inr args =>
                r <- checkCall_variadic fuel id (length (types params)) args;;
                match r with
                | inl call => ret call
                | inr args =>
                    a <- fresh;;
                    ret (Call a (TScalar (specifier t) (indirection t))
                           id args)
                end
            end
      end
  else a <- fresh;; ret (Call a error id args).

Definition checkArray (left right : Expression) : M Expression :=
  left <- promote left;;
  left <- decay left;;
  let t1 := type_of left in
  right <- extend right longint;;
  right <- decay right;;
  let t2 := type_of right in
  r <- (if Type_ne t1 error && Type_ne t2 error then
          if isPointer t1 && isNumeric t2 then
            right <- scale right (to_unsigned (size (Type_dereference t1)));;
            ret (right, Type_dereference t1)
          else report invalid_operands "[]";; ret (right, error)
        else ret (right, error));;
  a <- fresh;;
  b <- fresh;;
  ret (Dereference a r.2 (Add b t1 left r.1)).

Definition checkNot (expr : Expression) : M Expression :=
  expr <- promote expr;;
  expr <- decay expr;;
  let t := type_of expr in
  result <- (if Type_ne t error then
               if isScalar t then ret integer
               else report invalid_operand "!";; ret error
             else ret error);;
  a <- fresh;;
  ret (Not a result expr).

Definition checkNegate (expr : Expression) : M Expression :=
  expr <- promote expr;;
  expr <- decay expr;;
  let t := type_of expr in
  result <- (if Type_ne t error then
               if isNumeric t then ret t
               else report invalid_operand "-";; ret error
             else ret error);;
  a <- fresh;;
  ret (Negate a result expr).

Definition checkDereference (expr : Expression) : M Expression :=
  expr <- decay expr;;
  let t := type_of expr in
  result <- (if Type_ne t error then
               if isPointer t then ret (Type_dereference t)
               else report invalid_operand "*";; ret error
             else ret error);;
  a <- fresh;;
  ret (Dereference a result expr).

Definition checkAddress (expr : Expression) : M Expression :=
  let t := type_of expr in
  result <- (if Type_ne t error then
               if lvalue expr
               then ret (TScalar (specifier t) (to_unsigned (indirection t + 1)))
               else report invalid_lvalue "";; ret error
             else ret error);;
  a <- fresh;;
  ret (Address a result expr).

Definition checkSizeof (expr : Expression) : M Expression :=
  let t := type_of expr in
  size <- (if Type_ne t error then
             if negb (isFunction t) then ret (to_unsigned (size t))
             else report invalid_sizeof "";; ret 0%N
           else ret 0%N);;
  a <- fresh;;
  ret (Number a longint size).

Definition checkCast (type : Type_) (expr : Expression) : M Expression :=
  expr <- decay expr;;
  let t := type_of expr in
  result <- (if Type_ne t error then
               if isNumeric type && isNumeric t then ret type
               else if isPointer type && isPointer t then ret type
               else if isPointer type && Type_eq t longint then ret type
               else if Type_eq type longint && isPointer t then ret type
               else report invalid_cast "";; ret error
             else ret error);;
  cast expr result.

(** [checkMultiplicative] (private): the operands are references; the
    result holds the operands the caller has afterwards and the type. *)
Definition checkMultiplicative (left right : Expression) (op : string)
    : M (Expression * Expression * Type_) :=
  left <- extend left (type_of right);;
  left <- decay left;;
  let t1 := type_of left in
  right <- extend right (type_of left);;
  right <- decay right;;
  let t2 := type_of right in
  result <- (if Type_ne t1 error && Type_ne t2 error then
               if isNumeric t1 && isNumeric t2 then ret t1
               else report invalid_operands op;; ret error
             else ret error);;
  ret (left, right, result).

Definition checkMultiply (left right : Expression) : M Expression :=
  r <- checkMultiplicative left right "*";;
  a <- fresh;;
  ret (Multiply a r.2 r.1.1 r.1.2).

Definition checkDivide (left right : Expression) : M Expression :=
  r <- checkMultiplicative left right "/";;
  a <- fresh;;
  ret (Divide a r.2 r.1.1 r.1.2).

Definition checkRemainder (left right : Expression) : M Expression :=
  r <- checkMultiplicative left right "%";;
  a <- fresh;;
  ret (Remainder a r.2 r.1.1 r.1.2).

Definition checkAdd (left right : Expression) : M Expression :=
  left <- extend left (type_of right);;
  left <- decay left;;
  let t1 := type_of left in
  right <- extend right (type_of left);;
  right <- decay right;;
  let t2 := type_of right in
  r <- (if Type_ne t1 error && Type_ne t2 error then
          if isNumeric t1 && isNumeric t2 then ret (left, right, t1)
          else if isPointer t1 && isNumeric t2 then
            right <- scale right (to_unsigned (size (Type_dereference t1)));;
            ret (left, right, t1)
          else if isNumeric t1 && isPointer t2 then
            left <- scale left (to_unsigned (size (Type_dereference t2)));;
            ret (left, right, t2)
          else report invalid_operands "+";; ret (left, right, error)
        else ret (left, right, error));;
  a <- fresh;;
  ret (Add a r.2 r.1.1 r.1.2).

(** [checkSubtract].  [t1] and [t2] are references to the types of the
    converted operands; the last test reads [t2] after [scale] may have
    replaced the right operand, and sees the type the operand had when
    [t2] was bound. *)
Definition checkSubtract (left right : Expression) : M Expression :=
  left <- extend left (type_of right);;
  left <- decay left;;
  let t1 := type_of left in
  right <- extend right (type_of left);;
  right <- decay right;;
  let t2 := type_of right in
  r <- (if Type_ne t1 error && Type_ne t2 error then
          if isNumeric t1 && isNumeric t2 then ret (right, t1)
          else if isPointer t1 && Type_eq t1 t2 then ret (right, longint)
          else if isPointer t1 && isNumeric t2 then
            right <- scale right (to_unsigned (size (Type_dereference t1)));;
            ret (right, t1)
          else report invalid_operands "-";; ret (right, error)
        else ret (right, error));;
  a <- fresh;;
  let expr := Subtract a r.2 left r.1 in
  if isPointer t1 && Type_eq t1 t2 then
    d <- fresh;;
    n <- fresh;;
    ret (Divide d longint expr
           (Number n longint (size (Type_dereference t1))))
  else ret expr.

Definition checkComparative (left right : Expression) (op : string)
    : M (Expression * Expression * Type_) :=
  left <- extend left (type_of right);;
  left <- decay left;;
  let t1 := type_of left in
  right <- extend right (type_of left);;
  right <- decay right;;
  let t2 := type_of right in
  result <- (if Type_ne t1 error && Type_ne t2 error then
               if isCompatibleWith t1 t2 then ret integer
               else report invalid_operands op;; ret error
             else ret error);;
  ret (left, right, result).

Definition checkLessThan (left right : Expression) : M Expression :=
  r <- checkComparative left right "<";;
  a <- fresh;;
  ret (LessThan a r.2 r.1.1 r.1.2).

Definition checkGreaterThan (left right : Expression) : M Expression :=
  r <- checkComparative left right ">";;
  a <- fresh;;
  ret (GreaterThan a r.2 r.1.1 r.1.2).

Definition checkLessOrEqual (left right : Expression) : M Expression :=
  r <- checkComparative left right "<=";;
  a <- fresh;;
  ret (LessOrEqual a r.2 r.1.1 r.1.2).

Definition checkGreaterOrEqual (left right : Expression) : M Expression :=
  r <- checkComparative left right ">=";;
  a <- fresh;;
  ret (GreaterOrEqual a r.2 r.1.1 r.1.2).

Definition checkEqual (left right : Expression) : M Expression :=
  r <- checkComparative left right "==";;
  a <- fresh;;
  ret (Equal a r.2 r.1.1 r.1.2).

Definition checkNotEqual (left right : Expression) : M Expression :=
  r <- checkComparative left right "!=";;
  a <- fresh;;
  ret (NotEqual a r.2 r.1.1 r.1.2).

Definition checkLogical (left right : Expression) (op : string)
    : M (Expression * Expression * Type_) :=
  left <- promote left;;
  left <- decay left;;
  let t1 := type_of left in
  right <- promote right;;
  right <- decay right;;
  let t2 := type_of right in
  result <- (if Type_ne t1 error && Type_ne t2 error then
               if isScalar t1 && isScalar t2 then ret integer
               else report invalid_operands op;; ret error
             else ret error);;
  ret (left, right, result).

Definition checkLogicalAnd (left right : Expression) : M Expression :=
  r <- checkLogical left right "&&";;
  a <- fresh;;
  ret (LogicalAnd a r.2 r.1.1 r.1.2).

Definition checkLogicalOr (left right : Expression) : M Expression :=
  r <- checkLogical left right "||";;
  a <- fresh;;
  ret (LogicalOr a r.2 r.1.1 r.1.2).

Definition checkTest (expr : Expression) : M Expression :=
  expr <- promote expr;;
  expr <- decay expr;;
  let t := type_of expr in
  when (Type_ne t error && negb (isScalar t)) (report invalid_scalar "");;
  ret expr.

Definition checkAssignment (left right : Expression) : M Statement :=
  let t1 := type_of left in
  right <- decay right;;
  let t2 := type_of right in
  right <- (if Type_ne t1 error && Type_ne t2 error then
              if negb (lvalue left) then
                report invalid_lvalue "";; ret right
              else if negb (isCompatibleWith t1 t2) then
                report invalid_operands "=";; ret right
              else cast right (type_of left)
            else ret right);;
  ret (Assignment left right).

Definition checkReturn (expr : Expression) (type : Type_) : M Statement :=
  expr <- decay expr;;
  let t := type_of expr in
  expr <- (if Type_ne t error then
             if isCompatibleWith t type then cast expr type
             else report invalid_return "";; ret expr
           else ret expr);;
  ret (Return expr).

Definition checkBreak (depth : N) : M Statement :=
  when (depth =? 0)%N (report invalid_break "");;
  ret Break.

(** ** allocator.cpp *)

(** [type.size()], with its assertion. *)
Definition Type_size (t : Type_) : M N :=
  assert_ (size_assert t);;
  ret (size t).

(** [symbol->offset = offset] *)
Definition set_Symbol_offset (symbol : Addr) (offset : Z) : M unit :=
  sym <- symbol_at symbol;;
  modify (λ s, set_symtab
                 (<[symbol := mkSymbol (Symbol_name sym) (Symbol_type sym)
                                offset]> (symtab s)) s).

(** The first loop of [Block::allocate]; [offset] is the reference
    parameter, and the value returned is its value at the end. *)
Fixpoint allocate_symbols (symbols : list Addr) (offset : Z) : M Z :=
  match symbols with
  | [] => ret offset
  | symbol :: r =>
      sym <- symbol_at symbol;;
      if Symbol_offset sym =? 0 then
        size <- Type_size (Symbol_type sym);;
        let offset := to_int (offset - Z.of_N size) in
        set_Symbol_offset symbol offset;;
        allocate_symbols r offset
      else allocate_symbols r offset
  end.

(** [Statement::allocate] and its overrides in [Block], [While], [For] and
    [If]; the other statements inherit an [allocate] that does nothing. *)
Fixpoint Statement_allocate (stmt : Statement) (offset : Z) : M Z :=
  match stmt with
  | Block decls stmts =>
      offset <- allocate_symbols decls offset;;
      let saved := offset in
      (fix each (l : Statements) (offset : Z) : M Z :=
         match l with
         | [] => ret offset
         | stmt :: r =>
             temp <- Statement_allocate stmt saved;;
             each r (Z.min offset temp)
         end) stmts offset
  | While _ stmt => Statement_allocate stmt offset
  | For _ _ _ stmt => Statement_allocate stmt offset
  | If _ thenStmt elseStmt =>
      let saved := offset in
      offset <- Statement_allocate thenStmt offset;;
      match elseStmt with
      | Some elseStmt =>
          temp <- Statement_allocate elseStmt saved;;
          ret (Z.min offset temp)
      | None => ret offset
      end
  | _ => ret offset
  end.

(** [while (offset % PARAM_ALIGNMENT != 0) offset ++;] *)
Fixpoint align_parameter (fuel : nat) (offset : Z) : M Z :=
  match fuel with
  | O => out_of_fuel
  | S fuel' =>
      if negb (Z.rem offset PARAM_ALIGNMENT =? 0)
      then align_parameter fuel' (to_int (offset + 1))
      else ret offset
  end.

(** The first loop of [Function::allocate]: the parameters passed on the
    stack, [n] rounds from index [i]. *)
Fixpoint allocate_stack_parameters (types : Types) (symbols : list Addr)
    (n i : nat) (offset : Z) : M Z :=
  match n with
  | O => ret offset
  | S n' =>
      match symbols !! i, types !! i with
      | Some symbol, Some type =>
          set_Symbol_offset symbol offset;;
          size <- Type_size type;;
          offset <- align_parameter (Z.to_nat PARAM_ALIGNMENT)
                      (to_int (offset + Z.of_N size));;
          allocate_stack_parameters types symbols n' (S i) offset
      | _, _ => abort
      end
  end.

(** The second loop: the parameters passed in registers; it leaves at the
    first index that is no parameter. *)
Fixpoint allocate_register_parameters (types : Types)
    (symbols : list Addr) (n i : nat) (offset : Z) : M Z :=
  match n with
  | O => ret offset
  | S n' =>
      match types !! i with
      | Some type =>
          size <- Type_size type;;
          let offset := to_int (offset - Z.of_N size) in
          match symbols !! i with
          | Some symbol =>
              set_Symbol_offset symbol offset;;
              allocate_register_parameters types symbols n' (S i) offset
          | None => abort
          end
      | None => ret offset
      end
  end.

Definition Function_allocate (f : Function) (offset : Z) : M Z :=
  id <- symbol_at (Function_id f);;
  match parameters (Symbol_type id) with
  | Some params =>
      let types := types params in
      let symbols := Function_decls f in
      _ <- allocate_stack_parameters types symbols
             (length types - NUM_PARAM_REGS) NUM_PARAM_REGS offset;;
      let offset := 0 in
      offset <- allocate_register_parameters types symbols
                  NUM_PARAM_REGS 0 offset;;
      Statement_allocate (Function_body f) offset
  | None => abort
  end.

(** ** generator.cpp *)

(** [reg->node = v] *)
Definition set_node_at (r : Register) (v : option Expression) : M unit :=
  modify (λ s, set_node (λ r', if decide (r' = r) then v else node s r') s).

(** [expr->reg = v] *)
Definition set_reg_at (a : Addr) (v : option Register) : M unit :=
  modify (λ s, set_reg (match v with
                        | Some r => <[a := r]> (reg s)
                        | None => delete a (reg s)
                        end) s).

(** [expr->offset = v] *)
Definition set_slot_at (a : Addr) (v : Z) : M unit :=
  modify (λ s, set_slot (<[a := v]> (slot s)) s).

(** [expr->offset] *)
Definition slot_of (s : State) (a : Addr) : Z := default 0 (slot s !! a).

(** Comparison of two pointers to nodes. *)
Definition same_node (x y : option Expression) : bool :=
  match x, y with
  | None, None => true
  | Some x, Some y => bool_decide (addr_of x = addr_of y)
  | _, _ => false
  end.

Definition assign (expr : option Expression) (r : option Register)
    : M unit :=
  match expr with
  | Some e =>
      s <- get;;
      match reg s !! addr_of e with
      | Some r' => set_node_at r' None
      | None => ret tt
      end;;
      set_reg_at (addr_of e) r
  | None => ret tt
  end;;
  match r with
  | Some r =>
      s <- get;;
      match node s r with
      | Some n => set_reg_at (addr_of n) None
      | None => ret tt
      end;;
      set_node_at r expr
  | None => ret tt
  end.

(** [suffix(size)]; the tab that follows the suffix in the source is the
    one [render] writes between opcode and operands. *)
Definition suffix (size : N) : string :=
  if (size =? 1)%N then "b" else if (size =? 4)%N then "l" else "q".

(** [suffix(expr)] *)
Definition suffix_of (expr : Expression) : M string :=
  size <- Type_size (type_of expr);;
  ret (suffix size).

(** [ostr << reg] (see the note on registers above). *)
Definition Register_operand (r : Register) : M Operand :=
  s <- get;;
  match node s r with
  | Some n =>
      size <- Type_size (type_of n);;
      ret (Rg (Register_name r size))
  | None => ret (Rg (qword r))
  end.

(** [Expression::operand] and its overrides in [Identifier], [Number] and
    [String]. *)
Definition Expression_operand (expr : Expression) : M Operand :=
  match expr with
  | Identifier _ _ symbol =>
      sym <- symbol_at symbol;;
      if Symbol_offset sym =? 0 then ret (Global (Symbol_name sym))
      else ret (Frame (Symbol_offset sym))
  | Number _ _ value => ret (Imm (Z.of_N value))
  | String_ _ _ _ => ret Empty
  | _ =>
      s <- get;;
      assert_ (negb (slot_of s (addr_of expr) =? 0));;
      ret (Frame (slot_of s (addr_of expr)))
  end.

(** [ostr << expr] *)
Definition operand (expr : Expression) : M Operand :=
  s <- get;;
  match reg s !! addr_of expr with
  | Some r => Register_operand r
  | None => Expression_operand expr
  end.

Definition load (expr : option Expression) (r : Register) : M unit :=
  s <- get;;
  if negb (same_node (node s r) expr) then
    match node s r with
    | Some n =>
        size <- Type_size (type_of n);;
        let o := to_int (offset s - Z.of_N size) in
        modify (set_offset o);;
        set_slot_at (addr_of n) o;;
        sfx <- suffix_of n;;
        src <- Register_operand r;;
        emit (Ins ("mov" +:+ sfx) [src; Frame o])
    | None => ret tt
    end;;
    match expr with
    | Some e =>
        size <- Type_size (type_of e);;
        sfx <- suffix_of e;;
        src <- operand e;;
        emit (Ins ("mov" +:+ sfx) [src; Rg (Register_name r size)])
    | None => ret tt
    end;;
    assign expr (Some r)
  else ret tt.

(** The first register of [pool] that holds no node. *)
Fixpoint first_free (s : State) (pool : list Register) : option Register :=
  match pool with
  | [] => None
  | r :: pool' =>
      match node s r with
      | None => Some r
      | Some _ => first_free s pool'
      end
  end.

Definition getreg : M Register :=
  s <- get;;
  match first_free s registers with
  | Some r => ret r
  | None =>
      match registers with
      | r0 :: _ => load None r0;; ret r0
      | [] => abort
      end
  end.

(** [expr->reg], which the caller dereferences. *)
Definition reg_of (expr : Expression) : M Register :=
  s <- get;;
  match reg s !! addr_of expr with
  | Some r => ret r
  | None => abort
  end.

(** [if (expr->reg == nullptr) load(expr, target)], the target register
    being evaluated only when the load takes place. *)
Definition load_if_unbound (expr : Expression) (target : M Register)
    : M unit :=
  s <- get;;
  match reg s !! addr_of expr with
  | None => r <- target;; load (Some expr) r
  | Some _ => ret tt
  end.

Definition sign_extend_byte_arg (arg : Expression) : M unit :=
  size <- Type_size (type_of arg);;
  when (size =? 1)%N
    (src <- operand arg;;
     r <- reg_of arg;;
     emit (Ins "movsbl" [src; Rg (Register_name r 4)])).

Definition align (offset : Z) : Z :=
  if Z.rem offset STACK_ALIGNMENT =? 0 then 0
  else STACK_ALIGNMENT - Z.rem (Z.abs offset) STACK_ALIGNMENT.

(** The body of the second loop of [Call::generate]: argument [i] goes
    into [%rax] and onto the stack, or into its parameter register. *)
Definition Call_argument (args : Expressions) (i : nat) (numBytes : N)
    : M N :=
  match args !! i with
  | Some arg =>
      numBytes <-
        (if (NUM_PARAM_REGS <=? i)%nat then
           let numBytes :=
             to_unsigned (numBytes + Z.to_N PARAM_ALIGNMENT) in
           load (Some arg) rax;;
           sign_extend_byte_arg arg;;
           emit (Ins "pushq" [Rg "%rax"]);;
           ret numBytes
         else
           match parameter_registers !! i with
           | Some r =>
               load (Some arg) r;;
               sign_extend_byte_arg arg;;
               ret numBytes
           | None => abort
           end);;
      assign (Some arg) None;;
      ret numBytes
  | None => abort
  end.

(** The padding [Call::generate] computes for [n] arguments. *)
Definition Call_padding (n : nat) : N :=
  to_unsigned (Z.to_N (align (to_int
    ((Z.of_nat n - Z.of_nat NUM_PARAM_REGS) * PARAM_ALIGNMENT)))).

(** [Call::generate] once the code of the arguments is written. *)
Definition Call_emit (this : Expression) (id : Addr) (args : Expressions)
    : M unit :=
  let numBytes : N := 0%N in
  numBytes <-
    (if (NUM_PARAM_REGS <? length args)%nat then
       let numBytes := Call_padding (length args) in
       when (0 <? numBytes)%N
         (emit (Ins "subq" [Imm (Z.of_N numBytes); Rg "%rsp"]));;
       ret numBytes
     else ret numBytes);;
  numBytes <- for_down (length args) (Call_argument args) numBytes;;
  for_each registers (λ r, load None r);;
  sym <- symbol_at id;;
  match parameters (Symbol_type sym) with
  | Some params =>
      when (variadic params) (emit (Ins "movl" [Imm 0; Rg "%eax"]));;
      emit (Ins "call" [Global (Symbol_name sym)]);;
      when (0 <? numBytes)%N
        (emit (Ins "addq" [Imm (Z.of_N numBytes); Rg "%rsp"]));;
      assign (Some this) (Some rax)
  | None => abort
  end.

(** [Add::generate], [Subtract::generate] and [Multiply::generate] once
    the code of the operands is written; they differ in the opcode. *)
Definition arithmetic_emit (opcode : string) (this left right : Expression)
    : M unit :=
  load_if_unbound left getreg;;
  sfx <- suffix_of left;;
  src <- operand right;;
  dst <- operand left;;
  emit (Ins (opcode +:+ sfx) [src; dst]);;
  assign (Some right) None;;
  s <- get;;
  assign (Some this) (reg s !! addr_of left).

(** The loads at the head of [Divide::generate] and
    [Remainder::generate]. *)
Definition division_operands (left right : Expression) : M unit :=
  load_if_unbound left (ret rax);;
  load None rdx;;
  load_if_unbound right (ret rcx).

(** [Divide::generate] and [Remainder::generate] once the code of the
    operands is written; they differ in the register of the result. *)
Definition division_emit (result : Register)
    (this left right : Expression) : M unit :=
  division_operands left right;;
  size <- Type_size (type_of left);;
  (if (size =? 8)%N then emit (Ins "cqto" []) else emit (Ins "cltd" []));;
  sfx <- suffix_of right;;
  src <- operand right;;
  emit (Ins ("idiv" +:+ sfx) [src]);;
  assign (Some right) None;;
  assign (Some left) None;;
  assign (Some this) (Some result).

(** The tail of the six relational and equality generators, from
    [assign(this, getreg())] on; [setcc] is the opcode that tells them
    apart. *)
Definition comparison_result (setcc : string) (this left : Expression)
    : M unit :=
  r <- getreg;;
  assign (Some this) (Some r);;
  r' <- getreg;;
  let byteRegister := byte r' in
  emit (Ins setcc [Rg byteRegister]);;
  sfx <- suffix_of left;;
  dst <- operand this;;
  emit (Ins ("movzb" +:+ tab +:+ sfx) [Rg byteRegister; dst]).

(** [LessThan::generate] and its five siblings once the code of the
    operands is written. *)
Definition comparison_emit (setcc : string) (this left right : Expression)
    : M unit :=
  load_if_unbound left getreg;;
  sfx <- suffix_of left;;
  src <- operand right;;
  dst <- operand left;;
  emit (Ins ("cmp" +:+ sfx) [src; dst]);;
  assign (Some right) None;;
  assign (Some left) None;;
  comparison_result setcc this left.

Definition Not_emit (this expr : Expression) : M unit :=
  load_if_unbound expr getreg;;
  sfx <- suffix_of expr;;
  dst <- operand expr;;
  emit (Ins ("cmp" +:+ sfx) [Imm 0; dst]);;
  r <- reg_of expr;;
  let byteRegister := byte r in
  emit (Ins "sete" [Rg byteRegister]);;
  dst <- Register_operand r;;
  emit (Ins "movzbl" [Rg byteRegister; dst]);;
  assign (Some this) (Some r).

Definition Negate_emit (this expr : Expression) : M unit :=
  load_if_unbound expr getreg;;
  sfx <- suffix_of expr;;
  dst <- operand expr;;
  emit (Ins ("neg" +:+ sfx) [dst]);;
  s <- get;;
  assign (Some this) (reg s !! addr_of expr).

(** [Expression::generate] and its overrides.  Literals and identifiers
    inherit a [generate] that writes nothing; the generators of
    [Dereference], [Cast], [LogicalAnd] and [LogicalOr] have empty bodies
    in the source. *)
Fixpoint generate (this : Expression) : M unit :=
  match this with
  | Call _ _ id args =>
      (fix backwards (l : Expressions) : M unit :=
         match l with
         | [] => ret tt
         | arg :: r => backwards r;; generate arg
         end) args;;
      Call_emit this id args
  | Add _ _ _left _right =>
      generate _left;; generate _right;;
      arithmetic_emit "add" this _left _right
  | Subtract _ _ _left _right =>
      generate _left;; generate _right;;
      arithmetic_emit "sub" this _left _right
  | Multiply _ _ _left _right =>
      generate _left;; generate _right;;
      arithmetic_emit "mul" this _left _right
  | Divide _ _ _left _right =>
      generate _left;; generate _right;;
      division_emit rax this _left _right
  | Remainder _ _ _left _right =>
      generate _left;; generate _right;;
      division_emit rdx this _left _right
  | LessThan _ _ _left _right =>
      generate _left;; generate _right;;
      comparison_emit "setl" this _left _right
  | GreaterThan _ _ _left _right =>
      generate _left;; generate _right;;
      comparison_emit "setg" this _left _right
  | LessOrEqual _ _ _left _right =>
      generate _left;; generate _right;;
      comparison_emit "setle" this _left _right
  | GreaterOrEqual _ _ _left _right =>
      generate _left;; generate _right;;
      comparison_emit "setge" this _left _right
  | Equal _ _ _left _right =>
      generate _left;; generate _right;;
      comparison_emit "sete" this _left _right
  | NotEqual _ _ _left _right =>
      generate _left;; generate _right;;
      comparison_emit "setne" this _left _right
  | Not _ _ expr => generate expr;; Not_emit this expr
  | Negate _ _ expr => generate expr;; Negate_emit this expr
  | Address _ _ expr =>
      match expr with
      | Dereference _ _ pointer =>
          generate pointer;;
          load_if_unbound pointer getreg;;
          s <- get;;
          assign (Some this) (reg s !! addr_of pointer)
      | _ =>
          r <- getreg;;
          assign (Some this) (Some r);;
          src <- operand expr;;
          dst <- operand this;;
          emit (Ins "leaq" [src; dst])
      end
  | _ => ret tt
  end.

(** Modelled from the spec: Label.cpp is not part of the sources at hand.
    A new label takes the value of the global counter, which then moves
    on; it is written as the label prefix and its number. *)
Definition new_Label : M N :=
  s <- get;;
  modify (set_counter (counter s + 1)%N);;
  ret (counter s).

Definition Label_text (number : N) : string := label_prefix +:+ pretty number.

(** [Expression::test] *)
Definition test (this : Expression) (label : N) (ifTrue : bool) : M unit :=
  generate this;;
  load_if_unbound this getreg;;
  sfx <- suffix_of this;;
  dst <- operand this;;
  emit (Ins ("cmp" +:+ sfx) [Imm 0; dst]);;
  emit (Ins (if ifTrue then "jne" else "je") [Global (Label_text label)]);;
  assign (Some this) None.

Definition Assignment_generate (left right : Expression) : M unit :=
  generate right;;
  match isDereference left with
  | Some pointer =>
      generate pointer;;
      load_if_unbound pointer getreg;;
      load_if_unbound right getreg;;
      sfx <- suffix_of right;;
      dst <- operand pointer;;
      emit (Ins ("mov" +:+ sfx) [Empty; Indirect dst]);;
      assign (Some right) None;;
      assign (Some left) None
  | None =>
      load_if_unbound right getreg;;
      sfx <- suffix_of right;;
      src <- operand right;;
      dst <- operand left;;
      emit (Ins ("mov" +:+ sfx) [src; dst]);;
      assign (Some right) None;;
      assign (Some left) None
  end.

(** [Statement::generate] and its overrides.  The generators of [Return],
    [For], [If] and [Break] have empty bodies in the source. *)
Fixpoint Statement_generate (stmt : Statement) : M unit :=
  match stmt with
  | Block _ stmts =>
      (fix each (l : Statements) : M unit :=
         match l with
         | [] => ret tt
         | stmt :: r =>
             Statement_generate stmt;;
             for_each registers
               (λ r, s <- get;; assert_ (bool_decide (node s r = None)));;
             each r
         end) stmts
  | Simple expr => generate expr;; assign (Some expr) None
  | Assignment _left _right => Assignment_generate _left _right
  | While expr stmt =>
      loop <- new_Label;;
      exit <- new_Label;;
      emit (Lbl (Label_text loop));;
      test expr exit false;;
      Statement_generate stmt;;
      emit (Ins "jmp" [Global (Label_text loop)]);;
      emit (Lbl (Label_text exit))
  | _ => ret tt
  end.

(** The loop of [Function::generate] that stores the parameters passed in
    registers. *)
Fixpoint spill_parameters (types : Types) (symbols : list Addr)
    (n i : nat) : M unit :=
  match n with
  | O => ret tt
  | S n' =>
      if (i <? length types)%nat then
        match symbols !! i, parameter_registers !! i with
        | Some symbol, Some r =>
            sym <- symbol_at symbol;;
            size <- Type_size (Symbol_type sym);;
            emit (Ins ("mov" +:+ suffix size)
                    [Rg (Register_name r size); Frame (Symbol_offset sym)]);;
            spill_parameters types symbols n' (S i)
        | _, _ => abort
        end
      else ret tt
  end.

Definition Function_generate (f : Function) : M unit :=
  let param_offset := 2 * SIZEOF_REG in
  o <- Function_allocate f param_offset;;
  modify (set_offset o);;
  id <- symbol_at (Function_id f);;
  modify (set_funcname (Symbol_name id));;
  let funcname := Symbol_name id in
  emit (Lbl (global_prefix +:+ funcname));;
  emit (Ins "pushq" [Rg "%rbp"]);;
  emit (Ins "movq" [Rg "%rsp"; Rg "%rbp"]);;
  emit (Ins "movl" [ImmSym (funcname +:+ ".size"); Rg "%eax"]);;
  emit (Ins "subq" [Rg "%rax"; Rg "%rsp"]);;
  match parameters (Symbol_type id) with
  | Some params =>
      spill_parameters (types params) (Function_decls f) NUM_PARAM_REGS 0;;
      Statement_generate (Function_body f);;
      emit Blank;;
      emit (Lbl (global_prefix +:+ funcname +:+ ".exit"));;
      emit (Ins "movq" [Rg "%rbp"; Rg "%rsp"]);;
      emit (Ins "popq" [Rg "%rbp"]);;
      emit (Ins "ret" []);;
      emit Blank;;
      s <- get;;
      let o := to_int (offset s - align (to_int (offset s - param_offset))) in
      modify (set_offset o);;
      emit (Set_size funcname (to_int (- o)));;
      emit (Globl funcname);;
      emit Blank
  | None => abort
  end.

Definition generateGlobals (scope : list Addr) : M unit :=
  for_each scope
    (λ symbol,
       sym <- symbol_at symbol;;
       when (negb (isFunction (Symbol_type sym)))
         (size <- Type_size (Symbol_type sym);;
          emit (Comm (Symbol_name sym) size))).

(** ** parser.cpp

    The lexer is not part of the sources at hand: the token stream is given
    here as the phrases the recursive-descent parser recognises in it, and
    the functions below perform the parser's actions on them in its order.
    Where the parser meets a token it cannot accept, the phrase holds a
    [bad] mark with the text of the look-ahead token ([None] at the end of
    the file); what follows the mark is never read. *)

Module parser.

Definition EXIT_SUCCESS : Z := 0.
Definition EXIT_FAILURE : Z := 1.

Inductive Prefix := Bang | Minus | Star | Ampersand | Sizeof.

Inductive Infix :=
| Times | Slash | Percent | Plus | Dash
| Less | Greater | Leq | Geq | Eql | Neq | And | Or.

(** Expressions.  A number comes with the type its node is built with, a
    string with its bytes, a character with its value. *)
Inductive Phrase :=
| P_string (bytes : string)
| P_character (value : N)
| P_number (value : N) (type : Type_)
| P_identifier (name : string)
| P_call (name : string) (args : list Phrase)
| P_index (l r : Phrase)
| P_prefix (op : Prefix) (e : Phrase)
| P_sizeof_type (typespec : Specifier) (pointers : N)
| P_cast (typespec : Specifier) (pointers : N) (e : Phrase)
| P_infix (op : Infix) (l r : Phrase)
| P_bad (lexbuf : option string).

Record Declarator := mkDeclarator {
  declarator_pointers : N;
  declarator_name : string;
  declarator_length : option N
}.

Record Declaration := mkDeclaration {
  declaration_specifier : Specifier;
  declaration_declarators : list Declarator
}.

(** Statements; an assignment is [expression] or
    [expression = expression]. *)
Inductive Sentence :=
| S_block (decls : list Declaration) (stmts : list Sentence)
| S_break
| S_return (e : Phrase)
| S_while (e : Phrase) (body : Sentence)
| S_for (init : Phrase * option Phrase) (e : Phrase)
        (incr : Phrase * option Phrase) (body : Sentence)
| S_if (e : Phrase) (thenPart : Sentence) (elsePart : option Sentence)
| S_assignment (l : Phrase) (r : option Phrase)
| S_bad (lexbuf : option string).

Record Parameter_phrase := mkParameter_phrase {
  parameter_specifier : Specifier;
  parameter_pointers : N;
  parameter_name : string
}.

Inductive Parameters_phrase :=
| Void
| Listed (first : Parameter_phrase) (rest : list Parameter_phrase)
         (ellipsis : bool).

Inductive Global_declarator :=
| G_function (pointers : N) (name : string) (params : Parameters_phrase)
| G_array (pointers : N) (name : string) (length : N)
| G_scalar (pointers : N) (name : string).

Inductive Toplevel :=
| T_definition (typespec : Specifier) (pointers : N) (name : string)
    (params : Parameters_phrase) (decls : list Declaration)
    (stmts : list Sentence)
| T_declaration (typespec : Specifier) (first : Global_declarator)
    (rest : list Global_declarator)
| T_bad (lexbuf : option string).

(** [error] *)
Definition error {A} (lexbuf : option string) : M A :=
  match lexbuf with
  | None => report "syntax error at end of file" ""
  | Some lexbuf => report "syntax error at '%s'" lexbuf
  end;;
  exit EXIT_FAILURE.

(** [primaryExpression] to [expression]: the levels of the grammar are the
    shape of the phrase.  The loop of [checkCall] that may not return gets
    one round more than there are arguments, which is all it can use when
    it does return. *)
Fixpoint expression (p : Phrase) : M Expression :=
  match p with
  | P_string bytes =>
      a <- fresh;;
      ret (String_ a (TArray CHAR 0 (N.of_nat (String.length bytes) + 1))
             bytes)
  | P_character value => a <- fresh;; ret (Number a longint value)
  | P_number value type => a <- fresh;; ret (Number a type value)
  | P_identifier name =>
      symbol <- checkIdentifier name;;
      sym <- symbol_at symbol;;
      a <- fresh;;
      ret (Identifier a (Symbol_type sym) symbol)
  | P_call name args =>
      symbol <- checkIdentifier name;;
      args <- (fix each (l : list Phrase) : M Expressions :=
                 match l with
                 | [] => ret []
                 | x :: r =>
                     arg <- expression x;;
                     args <- each r;;
                     ret (arg :: args)
                 end) args;;
      checkCall (S (length args)) symbol args
  | P_index l r =>
      _left <- expression l;;
      _right <- expression r;;
      checkArray _left _right
  | P_prefix op e =>
      expr <- expression e;;
      match op with
      | Bang => checkNot expr
      | Minus => checkNegate expr
      | Star => checkDereference expr
      | Ampersand => checkAddress expr
      | Sizeof => checkSizeof expr
      end
  | P_sizeof_type typespec pointers =>
      a <- fresh;;
      ret (Number a longint (size (TScalar typespec pointers)))
  | P_cast typespec pointers e =>
      expr <- expression e;;
      checkCast (TScalar typespec pointers) expr
  | P_infix op l r =>
      _left <- expression l;;
      _right <- expression r;;
      match op with
      | Times => checkMultiply _left _right
      | Slash => checkDivide _left _right
      | Percent => checkRemainder _left _right
      | Plus => checkAdd _left _right
      | Dash => checkSubtract _left _right
      | Less => checkLessThan _left _right
      | Greater => checkGreaterThan _left _right
      | Leq => checkLessOrEqual _left _right
      | Geq => checkGreaterOrEqual _left _right
      | Eql => checkEqual _left _right
      | Neq => checkNotEqual _left _right
      | And => checkLogicalAnd _left _right
      | Or => checkLogicalOr _left _right
      end
  | P_bad lexbuf => error lexbuf
  end.

Definition declarator (typespec : Specifier) (d : Declarator) : M unit :=
  match declarator_length d with
  | Some n =>
      declareVariable (declarator_name d)
        (TArray typespec (declarator_pointers d) n);;
      ret tt
  | None =>
      declareVariable (declarator_name d)
        (TScalar typespec (declarator_pointers d));;
      ret tt
  end.

Definition declaration (d : Declaration) : M unit :=
  for_each (declaration_declarators d)
    (declarator (declaration_specifier d)).

Definition declarations (ds : list Declaration) : M unit :=
  for_each ds declaration.

Definition assignment (l : Phrase) (r : option Phrase) : M Statement :=
  expr <- expression l;;
  match r with
  | Some r =>
      _right <- expression r;;
      checkAssignment expr _right
  | None => ret (Simple expr)
  end.

Fixpoint statement (st : Sentence) : M Statement :=
  match st with
  | S_block decls stmts =>
      openScope;;
      declarations decls;;
      stmts <- (fix statements (l : list Sentence) : M Statements :=
                  match l with
                  | [] => ret []
                  | x :: r =>
                      stmt <- statement x;;
                      stmts <- statements r;;
                      ret (stmt :: stmts)
                  end) stmts;;
      scope <- closeScope false;;
      ret (Block scope stmts)
  | S_break =>
      s <- get;;
      checkBreak (loopDepth s)
  | S_return e =>
      expr <- expression e;;
      s <- get;;
      checkReturn expr (returnType s)
  | S_while e body =>
      expr <- expression e;;
      expr <- checkTest expr;;
      modify (λ s, set_loopDepth (to_unsigned (loopDepth s + 1)) s);;
      stmt <- statement body;;
      modify (λ s, set_loopDepth (to_unsigned (loopDepth s + (2 ^ 32 - 1))) s);;
      ret (While expr stmt)
  | S_for init e incr body =>
      init <- assignment init.1 init.2;;
      expr <- expression e;;
      expr <- checkTest expr;;
      incr <- assignment incr.1 incr.2;;
      modify (λ s, set_loopDepth (to_unsigned (loopDepth s + 1)) s);;
      stmt <- statement body;;
      modify (λ s, set_loopDepth (to_unsigned (loopDepth s + (2 ^ 32 - 1))) s);;
      ret (For init expr incr stmt)
  | S_if e thenPart elsePart =>
      expr <- expression e;;
      expr <- checkTest expr;;
      stmt <- statement thenPart;;
      match elsePart with
      | None => ret (If expr stmt None)
      | Some elsePart =>
          elseStmt <- statement elsePart;;
          ret (If expr stmt (Some elseStmt))
      end
  | S_assignment l r => assignment l r
  | S_bad lexbuf => error lexbuf
  end.

Fixpoint statements (l : list Sentence) : M Statements :=
  match l with
  | [] => ret []
  | x :: r =>
      stmt <- statement x;;
      stmts <- statements r;;
      ret (stmt :: stmts)
  end.

Definition parameter (p : Parameter_phrase) : M Type_ :=
  declareVariable (parameter_name p)
    (TScalar (parameter_specifier p) (parameter_pointers p));;
  ret (TScalar (parameter_specifier p) (parameter_pointers p)).

Fixpoint parameter_list (ps : list Parameter_phrase) : M Types :=
  match ps with
  | [] => ret []
  | p :: r =>
      t <- parameter p;;
      ts <- parameter_list r;;
      ret (t :: ts)
  end.

(** [parameters], named after its result here. *)
Definition parse_parameters (ps : Parameters_phrase) : M Parameters :=
  match ps with
  | Void => ret (mkParameters false [])
  | Listed first rest ellipsis =>
      t <- parameter first;;
      ts <- parameter_list rest;;
      ret (mkParameters ellipsis (t :: ts))
  end.

Definition globalDeclarator (typespec : Specifier) (g : Global_declarator)
    : M unit :=
  match g with
  | G_function pointers name params =>
      openScope;;
      params <- parse_parameters params;;
      declareFunction name
        (TFunction typespec pointers (variadic params) (types params));;
      closeScope true;;
      ret tt
  | G_array pointers name n =>
      declareVariable name (TArray typespec pointers n);;
      ret tt
  | G_scalar pointers name =>
      declareVariable name (TScalar typespec pointers);;
      ret tt
  end.

Definition functionOrGlobal (t : Toplevel) : M unit :=
  match t with
  | T_definition typespec pointers name params decls stmts =>
      openScope;;
      params <- parse_parameters params;;
      modify (set_returnType (TScalar typespec pointers));;
      symbol <- defineFunction name
                  (TFunction typespec pointers (variadic params)
                     (types params));;
      declarations decls;;
      stmts <- statements stmts;;
      decls <- closeScope false;;
      let function := mkFunction symbol decls stmts in
      s <- get;;
      when (bool_decide (numerrors s = 0%nat)) (Function_generate function)
  | T_declaration typespec first rest =>
      globalDeclarator typespec first;;
      for_each rest (globalDeclarator typespec)
  | T_bad lexbuf => error lexbuf
  end.

Definition main (input : list Toplevel) : M unit :=
  openScope;;
  for_each input functionOrGlobal;;
  scope <- closeScope false;;
  generateGlobals scope;;
  exit EXIT_SUCCESS.

End parser.

(** The state in which the process starts. *)
Definition initial : State :=
  mkState ∅ 1%positive [] [] 0 [] TError 0 0 "" (λ _, None) ∅ ∅ 0 [].

Local Open Scope M_scope.

(** * Properties *)

(** ** Machine integers *)

Lemma to_int_id z : INT_MIN ≤ z ≤ INT_MAX → to_int z = z.
Proof.
  unfold INT_MIN, INT_MAX, to_int. intros H.
  rewrite Z.mod_small; lia.
Qed.

Lemma to_int_range z : INT_MIN ≤ to_int z ≤ INT_MAX.
Proof.
  unfold INT_MIN, INT_MAX, to_int.
  pose proof (Z.mod_pos_bound (z + 2 ^ 31) (2 ^ 32)). lia.
Qed.

(** ** Types *)

Lemma Type_eq_spec (a b : Type_) : Type_eq a b = true ↔ a = b.
Proof.
  revert b. induction a as [| s i | s i n | s i v ts IH] using Type_nested_ind;
    intros [| s' i' | s' i' n' | s' i' v' ts']; simpl;
    repeat case_bool_decide; simpl; try (split; [done | congruence]);
    try (split; [intros _; congruence | done]).
  - subst s'. destruct (N.eqb_spec i i'); simpl; split; congruence.
  - subst s'. destruct (N.eqb_spec i i'); simpl; [| split; congruence].
    destruct (N.eqb_spec n n'); split; congruence.
  - subst s'. destruct (N.eqb_spec i i'); simpl; [| split; congruence].
    destruct (Bool.eqb_spec v v'); simpl; [| split; congruence].
    subst i' v'.
    match goal with
    | |- ?f ts ts' = true ↔ _ => assert (Hv : f ts ts' = true ↔ ts = ts')
    end.
    { clear -IH. revert ts'. induction IH as [| x r Hx _ IHr];
        intros [| x' r']; try (split; congruence).
      rewrite andb_true_iff, Hx, IHr. split; [intros []|intros [=]]; by subst. }
    rewrite Hv. split; congruence.
Qed.

Lemma Type_eq_refl t : Type_eq t t = true.
Proof. by apply Type_eq_spec. Qed.

Lemma Type_eq_false a b : a ≠ b → Type_eq a b = false.
Proof.
  intros H. destruct (Type_eq a b) eqn:E; [| done].
  by apply Type_eq_spec in E.
Qed.

Lemma Type_ne_spec a b : Type_ne a b = true ↔ a ≠ b.
Proof.
  unfold Type_ne. rewrite negb_true_iff. split.
  - intros E ->. by rewrite Type_eq_refl in E.
  - apply Type_eq_false.
Qed.

Lemma Type_ne_refl t : Type_ne t t = false.
Proof. unfold Type_ne. by rewrite Type_eq_refl. Qed.

(** The computations that only draw fresh addresses: they return in every
    state and change nothing but [next]. *)
Definition allocates {A} (m : M A) : Prop :=
  ∀ s, ∃ a n, m s = Returned a (set_next n s).

Lemma allocates_ret {A} (a : A) : allocates (ret a).
Proof. intros s. exists a, (next s). by destruct s. Qed.

Lemma allocates_fresh : allocates fresh.
Proof. intros s. by exists (next s), (Pos.succ (next s)). Qed.

Lemma allocates_bind {A B} (m : M A) (k : A → M B) :
  allocates m → (∀ a, allocates (k a)) → allocates (m <- m;; k m)%M.
Proof.
  intros Hm Hk s. destruct (Hm s) as (a & n & E).
  destruct (Hk a (set_next n s)) as (b & n' & E').
  exists b, n'. unfold bind. by rewrite E, E'.
Qed.

Create HintDb alloc.
#[local] Hint Resolve allocates_ret allocates_fresh : alloc.

Ltac allocates_tac :=
  repeat first
    [ apply allocates_ret | apply allocates_fresh
    | apply allocates_bind; [| intros ?]
    | progress eauto with alloc nocore
    | match goal with
      | |- allocates (if ?b then _ else _) => destruct b
      | |- allocates (match ?x with _ => _ end) => destruct x
      end ].

Lemma allocates_cast e t : allocates (cast e t).
Proof. unfold cast. allocates_tac. Qed.
#[local] Hint Resolve allocates_cast : alloc.
Lemma allocates_promote e : allocates (promote e).
Proof. unfold promote. allocates_tac. Qed.
Lemma allocates_decay e : allocates (decay e).
Proof. unfold decay. allocates_tac. Qed.
#[local] Hint Resolve allocates_promote allocates_decay : alloc.
Lemma allocates_extend e t : allocates (extend e t).
Proof. unfold extend. allocates_tac. Qed.
#[local] Hint Resolve allocates_extend : alloc.
Lemma allocates_scale e n : allocates (scale e n).
Proof. unfold scale. allocates_tac. Qed.
#[local] Hint Resolve allocates_scale : alloc.

Arguments cast : simpl never.
Arguments promote : simpl never.
Arguments decay : simpl never.
Arguments extend : simpl never.
Arguments scale : simpl never.
Arguments fresh : simpl never.
Arguments report : simpl never.
Arguments Type_eq : simpl never.
Arguments Type_ne : simpl never.

Lemma cast_type e t s e' s' : cast e t s = Returned e' s' → type_of e' = t.
Proof.
  unfold cast, bind, fresh, ret, get, modify. 
  destruct (isNumber e) as [v|]; simpl.
  - destruct (Type_eq (type_of e) integer && Type_eq t longint) eqn:E; simpl.
    + apply andb_true_iff in E as [_ ->%Type_eq_spec].
      rewrite Type_ne_refl. by intros [= <- <-].
    + destruct (Type_ne (type_of e) t) eqn:E'; simpl; intros [= <- <-]; [done|].
      apply negb_false_iff in E'. by apply Type_eq_spec in E'.
  - destruct (Type_ne (type_of e) t) eqn:E'; simpl; intros [= <- <-]; [done|].
    apply negb_false_iff in E'. by apply Type_eq_spec in E'.
Qed.

Lemma cast_same e s : cast e (type_of e) s = Returned e s.
Proof.
  unfold cast, bind, ret.
  destruct (isNumber e) as [v|] eqn:En.
  - destruct (Type_eq (type_of e) integer && Type_eq (type_of e) longint) eqn:E.
    + apply andb_true_iff in E as [E1%Type_eq_spec E2%Type_eq_spec].
      unfold integer, longint in *. congruence.
    + by rewrite Type_ne_refl.
  - by rewrite Type_ne_refl.
Qed.

Lemma promote_type e s e' s' :
  promote e s = Returned e' s' → type_of e' = Type_promote (type_of e).
Proof. apply cast_type. Qed.

Lemma decay_type e s e' s' :
  decay e s = Returned e' s' → type_of e' = Type_decay (type_of e).
Proof.
  unfold decay, bind, fresh, ret, get, modify.
  destruct (type_of e) eqn:E; simpl; intros [= <- <-]; by simpl.
Qed.

Lemma extend_type e t s e' s' :
  extend e t s = Returned e' s' →
  type_of e' =
    if (Type_eq (type_of e) character || Type_eq (type_of e) integer)
       && Type_eq t longint
    then longint else Type_promote (type_of e).
Proof.
  unfold extend. destruct (_ && _); [apply cast_type | apply promote_type].
Qed.

Lemma promote_error e s : type_of e = error → promote e s = Returned e s.
Proof.
  intros H. unfold promote. rewrite H. simpl. rewrite <- H. apply cast_same.
Qed.

Lemma decay_error e s : type_of e = error → decay e s = Returned e s.
Proof. intros H. unfold decay. by rewrite H. Qed.

Lemma extend_error e t s : type_of e = error → extend e t s = Returned e s.
Proof.
  intros H. unfold extend. rewrite H.
  replace (Type_eq error character) with false by done.
  replace (Type_eq error integer) with false by done.
  simpl. by apply promote_error.
Qed.

Lemma promote_keeps_error e s e' s' :
  promote e s = Returned e' s' → type_of e' = error → type_of e = error.
Proof.
  intros E%promote_type. rewrite E. by destruct (type_of e) as [|[] []| |].
Qed.

Definition propagates (m : M Expression) : Prop :=
  ∀ s, ∃ e n, m s = Returned e (set_next n s) ∧ type_of e = error.

Ltac exec :=
  repeat first
    [ match goal with
      | H : type_of ?e = error |- context [extend ?e ?t ?s] =>
          rewrite (extend_error e t s H)
      | H : type_of ?e = error |- context [promote ?e ?s] =>
          rewrite (promote_error e s H)
      | H : type_of ?e = error |- context [decay ?e ?s] =>
          rewrite (decay_error e s H)
      | |- context [extend ?e ?t ?s] =>
          let E := fresh "E" in
          destruct (allocates_extend e t s) as (? & ? & E); rewrite E
      | |- context [promote ?e ?s] =>
          let E := fresh "E" in
          destruct (allocates_promote e s) as (? & ? & E); rewrite E
      | |- context [decay ?e ?s] =>
          let E := fresh "E" in
          destruct (allocates_decay e s) as (? & ? & E); rewrite E
      | |- context [cast ?e ?t ?s] =>
          let E := fresh "E" in
          destruct (allocates_cast e t s) as (? & ? & E); rewrite E
      | H : type_of ?e = error |- context [Type_ne (type_of ?e) error] =>
          rewrite H, Type_ne_refl
      end
    | rewrite andb_false_r
    | progress simpl ].

Definition usual_conversions (l r : Expression)
    : M (Expression * Expression) :=
  l <- extend l (type_of r);;
  l <- decay l;;
  r <- extend r (type_of l);;
  r <- decay r;;
  ret (l, r).

Lemma isPointer_not_numeric t : isPointer t = true → isNumeric t = false.
Proof.
  unfold isPointer, isNumeric. intros [-> H]%andb_true_iff. simpl.
  apply N.ltb_lt in H. apply N.eqb_neq. lia.
Qed.

Lemma isPointer_not_error t : isPointer t = true → Type_ne t error = true.
Proof. destruct t; try done. Qed.

Lemma isNumeric_not_error t : isNumeric t = true → Type_ne t error = true.
Proof. destruct t; try done. Qed.

Lemma isNumeric_not_pointer t : isNumeric t = true → isPointer t = false.
Proof.
  unfold isPointer, isNumeric. intros [-> H]%andb_true_iff. simpl.
  apply N.eqb_eq in H. apply N.ltb_ge. lia.
Qed.

Ltac exec_in H :=
  repeat first
    [ match type of H with
      | context [extend ?e ?t ?s] =>
          let E := fresh "E" in
          destruct (allocates_extend e t s) as (? & ? & E); rewrite E in *
      | context [decay ?e ?s] =>
          let E := fresh "E" in
          destruct (allocates_decay e s) as (? & ? & E); rewrite E in *
      end
    | progress simpl in * ].


(** *** Operands of error type *)

Ltac finish_propagates :=
  unfold fresh, report, bind, get, modify, ret; simpl; eauto.

Lemma set_next_same s : set_next (next s) s = s.
Proof. by destruct s. Qed.

Lemma pointer_is_not_error t : isPointer t && Type_eq t error = false.
Proof. destruct t; [reflexivity | apply andb_false_r ..]. Qed.

Section Propagation.
Variables l r : Expression.
Hypothesis H : type_of l = error ∨ type_of r = error.

Lemma checkMultiplicative_error op s :
  ∃ l' r' n,
    checkMultiplicative l r op s = Returned (l', r', error) (set_next n s).
Proof.
  unfold checkMultiplicative, bind. destruct H as [H'|H']; exec;
    unfold ret; eauto.
Qed.

Lemma checkComparative_error op s :
  ∃ l' r' n,
    checkComparative l r op s = Returned (l', r', error) (set_next n s).
Proof.
  unfold checkComparative, bind. destruct H as [H'|H']; exec;
    unfold ret; eauto.
Qed.

Lemma checkLogical_error op s :
  ∃ l' r' n,
    checkLogical l r op s = Returned (l', r', error) (set_next n s).
Proof.
  unfold checkLogical, bind. destruct H as [H'|H']; exec;
    unfold ret; eauto.
Qed.

Ltac by_helper lem :=
  intros s; unfold bind;
  match goal with
  | |- context [?f l r ?op s] =>
      destruct (lem op s) as (? & ? & ? & ->)
  end; finish_propagates.

Lemma checkMultiply_error : propagates (checkMultiply l r).
Proof. unfold checkMultiply. by_helper checkMultiplicative_error. Qed.
Lemma checkDivide_error : propagates (checkDivide l r).
Proof. unfold checkDivide. by_helper checkMultiplicative_error. Qed.
Lemma checkRemainder_error : propagates (checkRemainder l r).
Proof. unfold checkRemainder. by_helper checkMultiplicative_error. Qed.
Lemma checkLessThan_error : propagates (checkLessThan l r).
Proof. unfold checkLessThan. by_helper checkComparative_error. Qed.
Lemma checkGreaterThan_error : propagates (checkGreaterThan l r).
Proof. unfold checkGreaterThan. by_helper checkComparative_error. Qed.
Lemma checkLessOrEqual_error : propagates (checkLessOrEqual l r).
Proof. unfold checkLessOrEqual. by_helper checkComparative_error. Qed.
Lemma checkGreaterOrEqual_error : propagates (checkGreaterOrEqual l r).
Proof. unfold checkGreaterOrEqual. by_helper checkComparative_error. Qed.
Lemma checkEqual_error : propagates (checkEqual l r).
Proof. unfold checkEqual. by_helper checkComparative_error. Qed.
Lemma checkNotEqual_error : propagates (checkNotEqual l r).
Proof. unfold checkNotEqual. by_helper checkComparative_error. Qed.
Lemma checkLogicalAnd_error : propagates (checkLogicalAnd l r).
Proof. unfold checkLogicalAnd. by_helper checkLogical_error. Qed.
Lemma checkLogicalOr_error : propagates (checkLogicalOr l r).
Proof. unfold checkLogicalOr. by_helper checkLogical_error. Qed.

Lemma checkAdd_error : propagates (checkAdd l r).
Proof.
  intros s. unfold checkAdd, bind. destruct H as [H'|H']; exec;
    finish_propagates.
Qed.

Lemma checkSubtract_error : propagates (checkSubtract l r).
Proof.
  intros s. unfold checkSubtract, bind. destruct H as [H'|H']; exec.
  - finish_propagates.
  - rewrite pointer_is_not_error. finish_propagates.
Qed.

Lemma checkArray_error : propagates (checkArray l r).
Proof.
  intros s. unfold checkArray, bind. destruct H as [H'|H']; exec;
    finish_propagates.
Qed.
End Propagation.

Section Propagation_unary.
Variable e : Expression.
Hypothesis H : type_of e = error.

Lemma checkNot_error : propagates (checkNot e).
Proof. intros s. unfold checkNot, bind. exec. finish_propagates. Qed.

Lemma checkNegate_error : propagates (checkNegate e).
Proof. intros s. unfold checkNegate, bind. exec. finish_propagates. Qed.

Lemma checkDereference_error : propagates (checkDereference e).
Proof. intros s. unfold checkDereference, bind. exec. finish_propagates. Qed.

Lemma checkAddress_error : propagates (checkAddress e).
Proof.
  intros s. unfold checkAddress, bind. rewrite H, Type_ne_refl.
  finish_propagates.
Qed.

Lemma checkCast_error t s : checkCast t e s = Returned e s.
Proof.
  unfold checkCast, bind. exec. unfold ret.
  pose proof (cast_same e s) as C. rewrite H in C. congruence.
Qed.

Lemma checkTest_error s : checkTest e s = Returned e s.
Proof. unfold checkTest, bind. exec. done. Qed.

Lemma checkSizeof_error s :
  checkSizeof e s =
    Returned (Number (next s) longint 0) (set_next (Pos.succ (next s)) s).
Proof. unfold checkSizeof, bind. rewrite H, Type_ne_refl. done. Qed.
End Propagation_unary.

(** *** Calls *)

Lemma symbol_at_Some a s sym :
  symtab s !! a = Some sym → symbol_at a s = Returned sym s.
Proof. intros H. unfold symbol_at, bind, get. by rewrite H. Qed.

(** An argument is accepted for a parameter when it has the error type or
    its decayed type is compatible with the parameter's. *)
Definition accepted (arg : Expression) (t : Type_) : Prop :=
  type_of arg = error ∨ isCompatibleWith t (Type_decay (type_of arg)) = true.

Lemma checkCall_parameters_accepts id ts n i args s :
  (i + n)%nat = length ts →
  length args = length ts →
  Forall2 accepted (drop i args) (drop i ts) →
  ∃ args' m,
    checkCall_parameters id ts n i args s = Returned (inr args') (set_next m s)
    ∧ length args' = length args.
Proof.
  revert i args s. induction n as [|n IH]; intros i args s Hi Hl Hf.
  - exists args, (next s). by rewrite set_next_same.
  - simpl.
    destruct (lookup_lt_is_Some_2 args i) as [arg Ha]; [lia|].
    destruct (lookup_lt_is_Some_2 ts i) as [t Ht]; [lia|].
    rewrite Ha, Ht.
    rewrite (drop_S _ _ _ Ha), (drop_S _ _ _ Ht) in Hf.
    apply Forall2_cons in Hf as [Hacc Hf].
    destruct (Type_ne (type_of arg) error) eqn:Ene.
    + destruct Hacc as [Herr|Hc].
      { rewrite Herr, Type_ne_refl in Ene. done. }
      unfold bind.
      destruct (allocates_decay arg s) as (arg' & n1 & E1). rewrite E1.
      rewrite (decay_type _ _ _ _ E1), Hc. simpl.
      destruct (allocates_cast arg' t (set_next n1 s)) as (arg'' & n2 & E2).
      rewrite E2. simpl.
      destruct (IH (S i) (<[i:=arg'']> (<[i:=arg']> args))
                  (set_next n2 (set_next n1 s)))
        as (args' & m & E & L).
      * lia.
      * by rewrite !length_insert.
      * rewrite !drop_insert_lt by lia. done.
      * exists args', m. rewrite E. split; [done|].
        by rewrite L, !length_insert.
    + apply (IH (S i) args s); [lia | done | done].
Qed.

Lemma checkCall_accepts fuel s id sym spec ind v ts args :
  symtab s !! id = Some sym →
  Symbol_type sym = TFunction spec ind v ts →
  Forall2 accepted args ts →
  ∃ a n args',
    checkCall (S fuel) id args s
      = Returned (Call a (TScalar spec ind) id args') (set_next n s).
Proof.
  intros Hs Ht Hf. unfold checkCall, bind.
  rewrite (symbol_at_Some _ _ _ Hs), Ht. simpl.
  pose proof (Forall2_length _ _ _ Hf) as Hl.
  rewrite Hl, Nat.ltb_irrefl, andb_false_r. simpl.
  destruct (checkCall_parameters_accepts id ts (length ts) 0 args s)
    as (args' & m & E & L); [done | done | done |].
  rewrite E. simpl.
  rewrite (lookup_ge_None_2 args' (length ts)) by lia.
  unfold ret, fresh, bind, get, modify. simpl. eauto.
Qed.

(** On an argument of error type that follows the declared parameters the
    second loop of [checkCall] never moves on. *)
Lemma checkCall_variadic_spins fuel id i args arg s :
  args !! i = Some arg → type_of arg = error →
  checkCall_variadic fuel id i args s = OutOfFuel.
Proof.
  intros Ha He. induction fuel as [|fuel IH]; [done|].
  simpl. by rewrite Ha, He, Type_ne_refl.
Qed.

(** ** The register protocol *)

Definition sized (e : Expression) : Prop := size_assert (type_of e) = true.

Lemma Type_size_sized t s :
  size_assert t = true → Type_size t s = Returned (size t) s.
Proof. intros H. unfold Type_size, bind, assert_. by rewrite H. Qed.

Lemma suffix_of_sized e s :
  sized e → suffix_of e s = Returned (suffix (size (type_of e))) s.
Proof. intros H. unfold suffix_of, bind. by rewrite Type_size_sized. Qed.

(** What the three functions that write an operand read in the state. *)
Definition written_register (s : State) (r : Register) : option Operand :=
  match node s r with
  | Some n =>
      if size_assert (type_of n)
      then Some (Rg (Register_name r (size (type_of n)))) else None
  | None => Some (Rg (qword r))
  end.

Definition written_expression (s : State) (e : Expression)
    : option Operand :=
  match e with
  | Identifier _ _ symbol =>
      sym ← symtab s !! symbol;
      Some (if Symbol_offset sym =? 0 then Global (Symbol_name sym)
            else Frame (Symbol_offset sym))
  | Number _ _ value => Some (Imm (Z.of_N value))
  | String_ _ _ _ => Some Empty
  | _ =>
      if slot_of s (addr_of e) =? 0 then None
      else Some (Frame (slot_of s (addr_of e)))
  end.

Definition written (s : State) (e : Expression) : option Operand :=
  match reg s !! addr_of e with
  | Some r => written_register s r
  | None => written_expression s e
  end.

Definition answer {A} (o : option A) (s : State) : Outcome A :=
  match o with Some a => Returned a s | None => Aborted end.

Lemma Register_operand_written r s :
  Register_operand r s = answer (written_register s r) s.
Proof.
  unfold Register_operand, written_register, bind, get, Type_size, assert_.
  destruct (node s r) as [n|]; [|done].
  by destruct (size_assert (type_of n)).
Qed.

Lemma Expression_operand_written e s :
  Expression_operand e s = answer (written_expression s e) s.
Proof.
  destruct e; unfold Expression_operand, written_expression, symbol_at,
    bind, get, assert_; simpl;
    try (by destruct (slot_of s _ =? 0)).
  - done.
  - done.
  - destruct (symtab s !! symbol) as [sym|]; simpl; [|done].
    by destruct (Symbol_offset sym =? 0).
Qed.

Lemma operand_written e s : operand e s = answer (written s e) s.
Proof.
  unfold operand, written, bind, get.
  destruct (reg s !! addr_of e);
    [apply Register_operand_written | apply Expression_operand_written].
Qed.

(** [assign] returns in every state and changes the bindings only. *)
Definition rebinds (s s' : State) : Prop :=
  s' = set_node (node s') (set_reg (reg s') s).

Lemma rebinds_refl s : rebinds s s.
Proof. by destruct s. Qed.

Lemma rebinds_trans s1 s2 s3 : rebinds s1 s2 → rebinds s2 s3 → rebinds s1 s3.
Proof. unfold rebinds. intros -> ->. done. Qed.

Lemma set_node_at_rebinds r v s :
  ∃ s', set_node_at r v s = Returned tt s' ∧ rebinds s s'
        ∧ reg s' = reg s
        ∧ node s' = (λ r', if decide (r' = r) then v else node s r').
Proof. eexists. split; [done|]. by destruct s. Qed.

Lemma set_reg_at_rebinds a v s :
  ∃ s', set_reg_at a v s = Returned tt s' ∧ rebinds s s'
        ∧ node s' = node s
        ∧ reg s' = match v with
                   | Some r => <[a := r]> (reg s)
                   | None => delete a (reg s)
                   end.
Proof. eexists. split; [done|]. by destruct s. Qed.

Lemma assign_returns e r s : ∃ s', assign e r s = Returned tt s' ∧ rebinds s s'.
Proof.
  unfold assign, bind, get, ret.
  destruct e as [x|], r as [r|]; simpl;
    repeat match goal with
    | |- context [match ?o with Some _ => _ | None => _ end] =>
        destruct o; simpl
    end;
    eexists; (split; [done|]); by destruct s.
Qed.

Lemma assign_binds x r s :
  (∀ n, node s r = Some n → addr_of n ≠ addr_of x) →
  ∃ s', assign (Some x) (Some r) s = Returned tt s' ∧ rebinds s s'
        ∧ node s' r = Some x ∧ reg s' !! addr_of x = Some r.
Proof.
  intros Hn. unfold assign, bind, get, ret, set_node_at, set_reg_at, modify.
  simpl.
  destruct (reg s !! addr_of x) as [r'|] eqn:Er; simpl.
  - destruct (decide (r = r')) as [<-|Hne]; simpl.
    + eexists. split; [done|]. split; [by destruct s|]. simpl.
      rewrite decide_True by done. by rewrite lookup_insert_eq.
    + destruct (node s r) as [n|] eqn:En; simpl.
      * eexists. split; [done|]. split; [by destruct s|]. simpl.
        rewrite decide_True by done.
        rewrite lookup_delete_ne by (by apply Hn).
        by rewrite lookup_insert_eq.
      * eexists. split; [done|]. split; [by destruct s|]. simpl.
        rewrite decide_True by done. by rewrite lookup_insert_eq.
  - destruct (node s r) as [n|] eqn:En; simpl.
    + eexists. split; [done|]. split; [by destruct s|]. simpl.
      rewrite decide_True by done.
      rewrite lookup_delete_ne by (by apply Hn).
      by rewrite lookup_insert_eq.
    + eexists. split; [done|]. split; [by destruct s|]. simpl.
      rewrite decide_True by done. by rewrite lookup_insert_eq.
Qed.

Lemma assign_frees r s :
  ∃ s', assign None (Some r) s = Returned tt s' ∧ rebinds s s'
        ∧ node s' r = None
        ∧ (∀ n, node s r = Some n → reg s' !! addr_of n = None).
Proof.
  unfold assign, bind, get, ret, set_node_at, set_reg_at, modify. simpl.
  destruct (node s r) as [n|] eqn:En; simpl.
  - eexists. split; [done|]. split; [by destruct s|]. simpl.
    rewrite decide_True by done. split; [done|].
    intros ? [= <-]. by rewrite lookup_delete_eq.
  - eexists. split; [done|]. split; [by destruct s|]. simpl.
    rewrite decide_True by done. done.
Qed.

Arguments assign : simpl never.
Arguments load : simpl never.

Definition spill_line (s : State) (r : Register) : list Line :=
  match node s r with
  | Some n =>
      [Ins ("mov" +:+ suffix (size (type_of n)))
         [Rg (Register_name r (size (type_of n)));
          Frame (to_int (offset s - Z.of_N (size (type_of n))))]]
  | None => []
  end.

Definition fill_line (s : State) (e : option Expression) (r : Register)
    : list Line :=
  match e with
  | Some x =>
      match written s x with
      | Some o =>
          [Ins ("mov" +:+ suffix (size (type_of x)))
             [o; Rg (Register_name r (size (type_of x)))]]
      | None => []
      end
  | None => []
  end.

Lemma written_view e s s' :
  symtab s' = symtab s → reg s' = reg s → node s' = node s →
  slot_of s' (addr_of e) = slot_of s (addr_of e) →
  written s' e = written s e.
Proof.
  intros Hs Hr Hn Hl. unfold written, written_register, written_expression.
  rewrite Hr, Hn, Hs, Hl. done.
Qed.

Lemma load_same e r s :
  same_node (node s r) e = true → load e r s = Returned tt s.
Proof. intros H. unfold load, bind, get. by rewrite H. Qed.

Lemma load_other e r s :
  same_node (node s r) e = false →
  (∀ n, node s r = Some n → sized n) →
  (∀ x, e = Some x → sized x ∧ is_Some (written s x)) →
  ∃ s', load e r s = Returned tt s'
    ∧ stdout s' = stdout s ++ spill_line s r ++ fill_line s e r
    ∧ symtab s' = symtab s
    ∧ counter s' = counter s
    ∧ offset s' = match node s r with
                  | Some n => to_int (offset s - Z.of_N (size (type_of n)))
                  | None => offset s
                  end
    ∧ slot s' = match node s r with
                | Some n => <[addr_of n := offset s']> (slot s)
                | None => slot s
                end
    ∧ node s' r = e
    ∧ (∀ x, e = Some x → reg s' !! addr_of x = Some r).
Proof.
  intros Hsame Hn He. unfold load, bind, get. rewrite Hsame. simpl.
  destruct (node s r) as [n|] eqn:En.
  - pose proof (Hn n eq_refl) as Hsz.
    rewrite (Type_size_sized _ _ Hsz). simpl.
    rewrite (suffix_of_sized _ _ Hsz).
    rewrite Register_operand_written. unfold written_register. simpl.
    rewrite En. unfold sized in Hsz. rewrite Hsz. simpl.
    destruct e as [x|].
    + destruct (He x eq_refl) as [Hx [o Ho]].
      rewrite (Type_size_sized _ _ Hx), (suffix_of_sized _ _ Hx).
      rewrite operand_written.
      match goal with
      | |- context [written ?st x] =>
          assert (written st x = written s x) as ->
      end.
      { apply written_view; try done. simpl. unfold slot_of. simpl.
        rewrite lookup_insert_ne; [done|].
        simpl in Hsame. by apply bool_decide_eq_false in Hsame. }
      rewrite Ho. simpl. unfold emit, modify.
      match goal with
      | |- context [assign (Some x) (Some r) ?st] =>
          destruct (assign_binds x r st) as (s' & E & Hb & Hnode & Hreg)
      end.
      { simpl. intros n' Hn'. rewrite En in Hn'. injection Hn' as <-.
        simpl in Hsame. by apply bool_decide_eq_false in Hsame. }
      rewrite E. exists s'. split; [done|].
      rewrite Hb. simpl. unfold spill_line, fill_line. rewrite En, Ho.
      rewrite <- app_assoc. repeat split; try done.
      intros ? [= <-]. done.
    + unfold ret.
      match goal with
      | |- context [assign None (Some r) ?st] =>
          destruct (assign_frees r st) as (s' & E & Hb & Hnode & Hreg)
      end.
      rewrite E. exists s'. split; [done|].
      rewrite Hb. simpl. unfold spill_line, fill_line. rewrite En.
      rewrite app_nil_r. repeat split; try done.
  - destruct e as [x|]; [|done].
    destruct (He x eq_refl) as [Hx [o Ho]]. unfold ret.
    rewrite (Type_size_sized _ _ Hx), (suffix_of_sized _ _ Hx).
    rewrite operand_written, Ho. simpl. unfold emit, modify.
    match goal with
    | |- context [assign (Some x) (Some r) ?st] =>
        destruct (assign_binds x r st) as (s' & E & Hb & Hnode & Hreg)
    end.
    { simpl. intros n' Hn'. by rewrite En in Hn'. }
    rewrite E. exists s'. split; [done|].
    rewrite Hb. simpl. unfold spill_line, fill_line. rewrite En, Ho.
    repeat split; try done.
    intros ? [= <-]. done.
Qed.

(** *** The two back-pointers *)

Definition consistent (s : State) : Prop :=
  (∀ a r, reg s !! a = Some r → ∃ n, node s r = Some n ∧ addr_of n = a)
  ∧ (∀ r n, node s r = Some n → reg s !! addr_of n = Some r).

Ltac fields :=
  unfold set_symtab, set_next, set_defined, set_scopes, set_numerrors,
    set_stderr, set_returnType, set_loopDepth, set_offset, set_funcname,
    set_node, set_reg, set_slot, set_counter, set_stdout in *;
  simpl in *.

Ltac consistency_case H1 H2 :=
  unfold consistent; simpl; split;
  [ intros a q;
    rewrite ?lookup_delete, ?lookup_insert;
    repeat case_decide; simplify_eq; try done;
    try (intros [= <-]); try (intros Hq; destruct (H1 _ _ Hq) as (? & ? & ?));
    simplify_eq; eauto;
    repeat match goal with
    | E : reg _ !! _ = Some _ |- _ =>
        let n := fresh in let Hn := fresh in let Ha := fresh in
        destruct (H1 _ _ E) as (n & Hn & Ha); clear E
    end; simplify_eq; eauto; congruence
  | intros q n;
    repeat case_decide; simplify_eq; try done;
    try (intros [= <-]); try (intros Hn; pose proof (H2 _ _ Hn));
    rewrite ?lookup_delete, ?lookup_insert;
    repeat case_decide; simplify_eq; try done;
    repeat match goal with
    | E : node _ _ = Some _ |- _ => apply H2 in E
    end; simplify_eq; try done; congruence ].

Lemma assign_consistent e r s s' :
  consistent s → assign e r s = Returned tt s' → consistent s'.
Proof.
  intros [H1 H2].
  unfold assign, bind, get, ret, set_node_at, set_reg_at, modify.
  destruct e as [x|], r as [r0|]; simpl.
  - destruct (reg s !! addr_of x) as [r'|] eqn:Er; simpl;
      (destruct (node s r0) as [n0|] eqn:En0; simpl);
      try (destruct (decide (r0 = r')) as [<-|Hne]; simpl);
      rewrite ?En0; simpl;
      intros [= <-]; fields.
    all: consistency_case H1 H2.
  - destruct (reg s !! addr_of x) as [r'|] eqn:Er; simpl;
      intros [= <-]; fields; consistency_case H1 H2.
  - destruct (node s r0) as [n0|] eqn:En0; simpl;
      intros [= <-]; fields; consistency_case H1 H2.
  - intros [= <-]. done.
Qed.

Lemma consistent_frame s s' :
  node s' = node s → reg s' = reg s → consistent s → consistent s'.
Proof. unfold consistent. by intros -> ->. Qed.

Lemma rebinds_fields s s' :
  rebinds s s' →
  symtab s' = symtab s ∧ offset s' = offset s ∧ slot s' = slot s
  ∧ stdout s' = stdout s ∧ counter s' = counter s.
Proof. intros ->. done. Qed.

Lemma Type_size_answer t s :
  Type_size t s = answer (if size_assert t then Some (size t) else None) s.
Proof. unfold Type_size, bind, assert_. by destruct (size_assert t). Qed.

Lemma suffix_of_answer e s :
  suffix_of e s
  = answer (if size_assert (type_of e)
            then Some (suffix (size (type_of e))) else None) s.
Proof.
  unfold suffix_of, bind. rewrite Type_size_answer.
  by destruct (size_assert (type_of e)).
Qed.

(** [load] returns exactly when the sizes it asks for exist and the
    expression it loads can be written. *)
Lemma load_returns e r s s' :
  load e r s = Returned tt s' →
  same_node (node s r) e = false →
  (∀ n, node s r = Some n → sized n)
  ∧ (∀ x, e = Some x → sized x ∧ is_Some (written s x)).
Proof.
  unfold load, bind, get. intros E Hsame. rewrite Hsame in E. simpl in E.
  assert (∀ n, node s r = Some n → sized n) as Hn.
  { intros n En. rewrite En in E. rewrite Type_size_answer in E.
    unfold sized. by destruct (size_assert (type_of n)). }
  split; [done|]. intros x ->.
  destruct (node s r) as [n|] eqn:En.
  - pose proof (Hn n eq_refl) as Hsz. unfold sized in Hsz.
    rewrite Type_size_answer, Hsz in E. simpl in E.
    rewrite suffix_of_answer, Hsz in E. simpl in E.
    rewrite Register_operand_written in E. unfold written_register in E.
    simpl in E. rewrite En, Hsz in E. simpl in E.
    rewrite Type_size_answer in E. unfold sized.
    destruct (size_assert (type_of x)) eqn:Hx; [|done]. simpl in E.
    rewrite suffix_of_answer, Hx in E. simpl in E.
    rewrite operand_written in E.
    match type of E with
    | context [written ?st x] =>
        assert (written st x = written s x) as Hw
    end.
    { apply written_view; try done. simpl. unfold slot_of. simpl.
      rewrite lookup_insert_ne; [done|].
      simpl in Hsame. by apply bool_decide_eq_false in Hsame. }
    rewrite Hw in E. split; [done|].
    destruct (written s x); [done|]. done.
  - unfold ret in E. rewrite Type_size_answer in E. unfold sized.
    destruct (size_assert (type_of x)) eqn:Hx; [|done]. simpl in E.
    rewrite suffix_of_answer, Hx in E. simpl in E.
    rewrite operand_written in E. split; [done|].
    destruct (written s x); [done|]. done.
Qed.

Lemma load_consistent e r s s' :
  consistent s → load e r s = Returned tt s' → consistent s'.
Proof.
  intros Hc E. destruct (same_node (node s r) e) eqn:Hsame.
  - rewrite load_same in E by done. by injection E as <-.
  - destruct (load_returns _ _ _ _ E Hsame) as [Hn He].
    revert E. unfold load, bind, get. rewrite Hsame. simpl.
    match goal with
    | |- match ?m with _ => _ end = _ → _ => destruct m as [[] s1| | |] eqn:E1
    end; try done.
    match goal with
    | |- match ?m with _ => _ end = _ → _ => destruct m as [[] s2| | |] eqn:E2
    end; try done.
    apply assign_consistent.
    assert (node s1 = node s ∧ reg s1 = reg s) as [Hn1 Hr1].
    { destruct (node s r) as [n|] eqn:En; [|by injection E1 as <-].
      pose proof (Hn n eq_refl) as Hsz. unfold sized in Hsz.
      rewrite Type_size_answer, Hsz in E1. simpl in E1.
      rewrite suffix_of_answer, Hsz in E1. simpl in E1.
      rewrite Register_operand_written in E1. unfold written_register in E1.
      simpl in E1. rewrite En, Hsz in E1. simpl in E1.
      by injection E1 as <-. }
    assert (node s2 = node s1 ∧ reg s2 = reg s1) as [Hn2 Hr2].
    { destruct e as [x|]; [|by injection E2 as <-].
      destruct (He x eq_refl) as [Hx _]. unfold sized in Hx.
      rewrite Type_size_answer, Hx in E2. simpl in E2.
      rewrite suffix_of_answer, Hx in E2. simpl in E2.
      rewrite operand_written in E2.
      destruct (written s1 x); [|done]. simpl in E2.
      by injection E2 as <-. }
    apply (consistent_frame s); [congruence | congruence | done].
Qed.

(** What [assign] leaves of the other bindings. *)
Lemma assign_effect e r s :
  ∃ s', assign e r s = Returned tt s' ∧ rebinds s s'
    ∧ (∀ q, r ≠ Some q →
         node s' q = match e with
                     | Some x =>
                         if decide (reg s !! addr_of x = Some q)
                         then None else node s q
                     | None => node s q
                     end)
    ∧ (∀ a, (∀ x, e = Some x → a ≠ addr_of x) →
            (∀ q n, r = Some q → node s q = Some n → a ≠ addr_of n) →
            reg s' !! a = reg s !! a).
Proof.
  unfold assign, bind, get, ret, set_node_at, set_reg_at, modify.
  destruct e as [x|], r as [r0|]; simpl.
  - destruct (reg s !! addr_of x) as [r'|] eqn:Er; simpl;
      (destruct (node s r0) as [n0|] eqn:En0; simpl);
      try (destruct (decide (r0 = r')) as [<-|Hne]; simpl);
      rewrite ?En0; simpl;
      (eexists; split; [done|]; split; [by destruct s|]); fields;
      (split;
        [ intros q Hq; repeat case_decide; simplify_eq; done
        | intros a Hx Hn;
          rewrite ?lookup_delete, ?lookup_insert;
          repeat case_decide; simplify_eq; try done;
          try (by exfalso; eapply Hx);
          try (by exfalso; eapply Hn) ]).
  - destruct (reg s !! addr_of x) as [r'|] eqn:Er; simpl;
      (eexists; split; [done|]; split; [by destruct s|]); fields;
      (split;
        [ intros q Hq; repeat case_decide; simplify_eq; done
        | intros a Hx Hn;
          rewrite ?lookup_delete, ?lookup_insert;
          repeat case_decide; simplify_eq; try done;
          try (by exfalso; eapply Hx) ]).
  - destruct (node s r0) as [n0|] eqn:En0; simpl;
      (eexists; split; [done|]; split; [by destruct s|]); fields;
      (split;
        [ intros q Hq; repeat case_decide; simplify_eq; done
        | intros a Hx Hn;
          rewrite ?lookup_delete, ?lookup_insert;
          repeat case_decide; simplify_eq; try done;
          try (by exfalso; eapply Hn) ]).
  - eexists. split; [done|]. split; [by destruct s|]. done.
Qed.

(** When it does not find the node in place, [load] ends by [assign] in a
    state with the bindings it started with. *)
Lemma load_assigns e r s s' :
  load e r s = Returned tt s' →
  same_node (node s r) e = false →
  ∃ s0, assign e (Some r) s0 = Returned tt s'
        ∧ node s0 = node s ∧ reg s0 = reg s.
Proof.
  intros E Hsame.
  destruct (load_returns _ _ _ _ E Hsame) as [Hn He].
  revert E. unfold load, bind, get. rewrite Hsame. simpl.
  match goal with
  | |- match ?m with _ => _ end = _ → _ => destruct m as [[] s1| | |] eqn:E1
  end; try done.
  match goal with
  | |- match ?m with _ => _ end = _ → _ => destruct m as [[] s2| | |] eqn:E2
  end; try done.
  intros E. exists s2. split; [done|].
  assert (node s1 = node s ∧ reg s1 = reg s) as [Hn1 Hr1].
  { destruct (node s r) as [n|] eqn:En; [|by injection E1 as <-].
    pose proof (Hn n eq_refl) as Hsz. unfold sized in Hsz.
    rewrite Type_size_answer, Hsz in E1. simpl in E1.
    rewrite suffix_of_answer, Hsz in E1. simpl in E1.
    rewrite Register_operand_written in E1. unfold written_register in E1.
    simpl in E1. rewrite En, Hsz in E1. simpl in E1.
    by injection E1 as <-. }
  assert (node s2 = node s1 ∧ reg s2 = reg s1) as [Hn2 Hr2].
  { destruct e as [x|]; [|by injection E2 as <-].
    destruct (He x eq_refl) as [Hx _]. unfold sized in Hx.
    rewrite Type_size_answer, Hx in E2. simpl in E2.
    rewrite suffix_of_answer, Hx in E2. simpl in E2.
    rewrite operand_written in E2.
    destruct (written s1 x); [|done]. simpl in E2.
    by injection E2 as <-. }
  split; congruence.
Qed.

(** What [load] leaves of the other bindings. *)
Lemma load_frame e r s s' :
  consistent s →
  load e r s = Returned tt s' →
  (∀ q, q ≠ r →
     node s' q = match e with
                 | Some x =>
                     if decide (reg s !! addr_of x = Some q)
                     then None else node s q
                 | None => node s q
                 end)
  ∧ (∀ a, (∀ x, e = Some x → a ≠ addr_of x) →
          (∀ n, node s r = Some n → a ≠ addr_of n) →
          reg s' !! a = reg s !! a).
Proof.
  intros [H1 H2] E. destruct (same_node (node s r) e) eqn:Hsame.
  - rewrite load_same in E by done. injection E as <-. split; [|done].
    intros q Hq. destruct e as [x|]; [|done].
    case_decide as Hx; [|done].
    destruct (node s r) as [n|] eqn:En; [|done]. simpl in Hsame.
    apply bool_decide_eq_true in Hsame.
    apply H2 in En. rewrite Hsame in En. congruence.
  - destruct (load_assigns _ _ _ _ E Hsame) as (s0 & Ea & Hn0 & Hr0).
    destruct (assign_effect e (Some r) s0) as (s1 & Ea' & _ & Hnode & Hreg).
    rewrite Ea in Ea'. injection Ea' as <-. rewrite Hn0, Hr0 in *. split.
    + intros q Hq. apply Hnode. congruence.
    + intros a Hx Hn. apply Hreg; [done|]. intros ? n [= <-]. apply Hn.
Qed.

(** *** [getreg] *)

Lemma first_free_Some s pool r :
  first_free s pool = Some r → r ∈ pool ∧ node s r = None.
Proof.
  induction pool as [|q pool IH]; simpl; [done|].
  destruct (node s q) eqn:E.
  - intros [H1 H2]%IH. split; [by right | done].
  - intros [= <-]. split; [by left | done].
Qed.

Lemma first_free_None s pool r :
  first_free s pool = None → r ∈ pool → node s r ≠ None.
Proof.
  induction pool as [|q pool IH]; simpl; [by intros _ ?%elem_of_nil|].
  destruct (node s q) eqn:E; [|done].
  intros H [->|Hin]%elem_of_cons; [congruence | by apply IH].
Qed.

Lemma first_free_ext s s' pool :
  (∀ q, q ∈ pool → node s' q = node s q) →
  first_free s' pool = first_free s pool.
Proof.
  induction pool as [|q pool IH]; simpl; [done|]. intros H.
  rewrite H by (by left). rewrite IH; [done|].
  intros q' Hq'. apply H. by right.
Qed.

Lemma first_free_occupied s pool r :
  node s r ≠ None →
  first_free s pool = first_free s (filter (λ q, q ≠ r) pool).
Proof.
  intros Hr. induction pool as [|q pool IH]; simpl; [done|].
  destruct (decide (q = r)) as [->|Hq].
  - rewrite filter_cons_False by (by intros H; apply H).
    destruct (node s r); [done | congruence].
  - rewrite filter_cons_True by done. simpl. by rewrite IH.
Qed.

Lemma getreg_free s r :
  first_free s registers = Some r → getreg s = Returned r s.
Proof. intros H. unfold getreg, bind, get. by rewrite H. Qed.

(** C5: the tail of a comparison in a state where the result node is in
    no register, [r] is the first free register of the pool and [r'] the
    next: the result is bound to [r]; the second call of [getreg] returns
    [r'], another register than [r]; the condition code is set in the
    byte of [r'] and extended from there into [r]. *)
Lemma comparison_result_registers setcc this _left s r r' :
  sized this → sized _left →
  reg s !! addr_of this = None →
  first_free s registers = Some r →
  first_free s (filter (λ q, q ≠ r) registers) = Some r' →
  ∃ s', comparison_result setcc this _left s = Returned tt s'
    ∧ stdout s'
      = stdout s ++
        [Ins setcc [Rg (byte r')];
         Ins ("movzb" +:+ tab +:+ suffix (size (type_of _left)))
           [Rg (byte r'); Rg (Register_name r (size (type_of this)))]]
    ∧ reg s' !! addr_of this = Some r
    ∧ node s' r = Some this
    ∧ r' ≠ r
    ∧ node s' r' = None.
Proof.
  intros Ht Hl Hthis Hr Hr'.
  destruct (first_free_Some _ _ _ Hr) as [Hin Hfree].
  destruct (first_free_Some _ _ _ Hr') as [Hin' Hfree'].
  apply list_elem_of_filter in Hin' as [Hne Hin'].
  unfold comparison_result, bind. rewrite (getreg_free _ _ Hr).
  destruct (assign_binds this r s) as (s2 & Ea & Hb & Hnode & Hreg).
  { intros n Hn. congruence. }
  destruct (assign_effect (Some this) (Some r) s)
    as (s2' & Ea' & _ & Hothers & _).
  rewrite Ea in Ea'. injection Ea' as <-. rewrite Ea.
  assert (∀ q, q ≠ r → node s2 q = node s q) as Hsame.
  { intros q Hq. rewrite Hothers by congruence. rewrite Hthis.
    by rewrite decide_False. }
  assert (first_free s2 registers = Some r') as Hff.
  { rewrite (first_free_occupied s2 registers r) by congruence.
    rewrite <- Hr'. apply first_free_ext.
    intros q [Hq _]%list_elem_of_filter. by apply Hsame. }
  rewrite (getreg_free _ _ Hff). unfold emit, modify. simpl.
  rewrite suffix_of_sized by done. rewrite operand_written.
  unfold written. simpl. rewrite Hreg. unfold written_register. simpl.
  rewrite Hnode. unfold sized in Ht. rewrite Ht. simpl.
  eexists. split; [done|]. simpl.
  destruct (rebinds_fields _ _ Hb) as (_ & _ & _ & -> & _).
  rewrite <- app_assoc. simpl. repeat split; try done.
  rewrite Hsame by done. done.
Qed.

(** *** States in which the loads go through *)

Definition scalar (e : Expression) : Prop := isScalar (type_of e) = true.

Lemma scalar_sized e : scalar e → sized e.
Proof. unfold scalar, sized. by destruct (type_of e). Qed.

Lemma scalar_size e : scalar e → (1 ≤ size (type_of e) ≤ 8)%N.
Proof.
  unfold scalar, size. destruct (type_of e) as [|sp i| |]; try done.
  intros _. simpl. destruct (0 <? i)%N; [|destruct sp]; vm_compute;
    split; discriminate.
Qed.

Definition held_scalar (s : State) : Prop :=
  ∀ r n, node s r = Some n → scalar n.

(** The registers and nodes agree, the nodes in registers are scalars, and
    the frame pointer offset is between [lo] and 0. *)
Definition frame_ok (lo : Z) (s : State) : Prop :=
  consistent s ∧ held_scalar s ∧ lo ≤ offset s ≤ 0.

(** An expression that [load] can take: a scalar, in a register or with a
    form in memory, and, for an identifier, with its symbol. *)
Definition ready (s : State) (e : Expression) : Prop :=
  scalar e
  ∧ match e with
    | Identifier _ _ symbol => is_Some (symtab s !! symbol)
    | _ => True
    end
  ∧ (is_Some (reg s !! addr_of e) ∨ is_Some (written_expression s e)).

Lemma ready_written lo s e : frame_ok lo s → ready s e → is_Some (written s e).
Proof.
  intros ([H1 H2] & Hh & _) (Hs & _ & [[r Hr]|Hw]); unfold written.
  - rewrite Hr. destruct (H1 _ _ Hr) as (n & Hn & _).
    unfold written_register. rewrite Hn.
    pose proof (scalar_sized _ (Hh _ _ Hn)) as Hz. unfold sized in Hz.
    by rewrite Hz.
  - destruct (reg s !! addr_of e) as [r|] eqn:Hr; [|done].
    destruct (H1 _ _ Hr) as (n & Hn & _).
    unfold written_register. rewrite Hn.
    pose proof (scalar_sized _ (Hh _ _ Hn)) as Hz. unfold sized in Hz.
    by rewrite Hz.
Qed.

Lemma written_expression_spilled s e :
  match e with
  | Identifier _ _ symbol => is_Some (symtab s !! symbol)
  | _ => True
  end →
  slot_of s (addr_of e) ≠ 0 → is_Some (written_expression s e).
Proof.
  intros Hv Hs. apply Z.eqb_neq in Hs.
  destruct e; simpl in *; rewrite ?Hs; try done.
  destruct Hv as [sym ->]. done.
Qed.

Lemma same_node_refl e : same_node e e = true.
Proof. destruct e; simpl; [by apply bool_decide_eq_true | done]. Qed.

Lemma load_ready lo e r s :
  INT_MIN + 8 ≤ lo →
  frame_ok lo s →
  (∀ x, e = Some x → ready s x) →
  ∃ s', load e r s = Returned tt s'
    ∧ frame_ok (lo - 8) s'
    ∧ offset s - 8 ≤ offset s' ≤ offset s
    ∧ symtab s' = symtab s
    ∧ counter s' = counter s
    ∧ stdout s'
      = stdout s ++
        (if same_node (node s r) e then []
         else spill_line s r ++ fill_line s e r)
    ∧ same_node (node s' r) e = true
    ∧ (∀ x, e = Some x → reg s' !! addr_of x = Some r)
    ∧ (∀ q, q ≠ r → node s' q = None ∨ node s' q = node s q)
    ∧ (∀ y, ready s y → ready s' y).
Proof.
  intros Hlo (Hc & Hh & Ho) He.
  destruct (same_node (node s r) e) eqn:Hsame.
  - exists s. rewrite load_same by done. rewrite app_nil_r.
    split; [done|]. split; [split; [done|split; [done|lia]] |].
    split; [lia|]. split; [done|]. split; [done|]. split; [done|].
    split; [done|]. split; [|split; [by right | done]].
    intros x ->. destruct (node s r) as [n|] eqn:En; [|done].
    simpl in Hsame. apply bool_decide_eq_true in Hsame.
    destruct Hc as [_ H2]. apply H2 in En. by rewrite Hsame in En.
  - assert (∀ n, node s r = Some n → sized n) as Hn.
    { intros n En. apply scalar_sized. by eapply Hh. }
    assert (∀ x, e = Some x → sized x ∧ is_Some (written s x)) as He'.
    { intros x Hx. pose proof (He x Hx) as Hr. split.
      - apply scalar_sized, Hr.
      - by apply (ready_written lo). }
    destruct (load_other e r s Hsame Hn He')
      as (s' & E & Hout & Hsym & Hcnt & Hoff & Hslot & Hnode & Hreg).
    pose proof (load_consistent _ _ _ _ Hc E) as Hc'.
    destruct (load_frame _ _ _ _ Hc E) as [Hfn Hfr].
    assert (offset s - 8 ≤ offset s' ≤ offset s ∧
            (∀ n, node s r = Some n → offset s' < 0)) as [Hrange Hneg].
    { rewrite Hoff. destruct (node s r) as [n|] eqn:En; [|split; [lia|done]].
      pose proof (scalar_size _ (Hh _ _ En)) as Hsz.
      rewrite to_int_id by (unfold INT_MIN, INT_MAX in *; lia).
      split; [lia|]. intros _ _. lia. }
    exists s'. split; [done|]. split.
    { split; [done|]. split; [|lia].
      intros q n Hq. destruct (decide (q = r)) as [->|Hqr].
      - rewrite Hnode in Hq. apply (He n Hq).
      - rewrite (Hfn q Hqr) in Hq. destruct e as [x|].
        + case_decide; [done|]. by eapply Hh.
        + by eapply Hh. }
    split; [done|]. split; [done|]. split; [done|]. split; [done|].
    split; [rewrite Hnode; apply same_node_refl|]. split; [done|]. split.
    { intros q Hq. rewrite (Hfn q Hq). destruct e as [x|]; [|by right].
      case_decide; [by left | by right]. }
    intros y (Hys & Hyv & Hyw). split; [done|]. split.
    { by rewrite Hsym. }
    assert ((∃ x, e = Some x ∧ addr_of y = addr_of x)
            ∨ (∀ x, e = Some x → addr_of y ≠ addr_of x)) as [(x & Hx & Hyx)|Hyx].
    { destruct e as [x|]; [|by right].
      destruct (decide (addr_of y = addr_of x)); [left; eauto|].
      right. by intros ? [= <-]. }
    { left. rewrite Hyx, (Hreg x Hx). done. }
    destruct (node s r) as [n|] eqn:En.
    + destruct (decide (addr_of y = addr_of n)) as [Hyn|Hyn].
      * right. apply written_expression_spilled; [by rewrite Hsym|].
        unfold slot_of. rewrite Hslot, Hyn, lookup_insert_eq. simpl.
        specialize (Hneg n eq_refl). lia.
      * rewrite (Hfr (addr_of y)); [|done|by intros ? [= <-]].
        destruct Hyw as [Hyw|Hyw]; [by left|]. right.
        destruct Hyw as [o Hw]. exists o. rewrite <- Hw.
        unfold written_expression, slot_of. rewrite Hsym, Hslot.
        rewrite lookup_insert_ne by done. done.
    + rewrite (Hfr (addr_of y)); [|done|done].
      destruct Hyw as [Hyw|Hyw]; [by left|]. right.
      destruct Hyw as [o Hw]. exists o. rewrite <- Hw.
      unfold written_expression, slot_of. by rewrite Hsym, Hslot.
Qed.

(** *** Division *)

Lemma assign_unbinds x s :
  ∃ s', assign (Some x) None s = Returned tt s' ∧ rebinds s s'
        ∧ reg s' !! addr_of x = None.
Proof.
  unfold assign, bind, get, ret, set_node_at, set_reg_at, modify. simpl.
  destruct (reg s !! addr_of x) as [r'|]; simpl;
    (eexists; split; [done|]; split; [by destruct s|]); fields;
    by rewrite lookup_delete_eq.
Qed.

Lemma load_if_unbound_bound x target s q :
  reg s !! addr_of x = Some q → load_if_unbound x target s = Returned tt s.
Proof. intros H. unfold load_if_unbound, bind, get. by rewrite H. Qed.

Lemma load_if_unbound_free x r s :
  reg s !! addr_of x = None →
  load_if_unbound x (ret r) s = load (Some x) r s.
Proof. intros H. unfold load_if_unbound, bind, get. by rewrite H. Qed.

Lemma consistent_unbound s x r n :
  consistent s → reg s !! addr_of x = None → node s r = Some n →
  addr_of x ≠ addr_of n.
Proof. intros [_ H2] Hx Hn E. apply H2 in Hn. congruence. Qed.

Lemma consistent_elsewhere s x p r n :
  consistent s → reg s !! addr_of x = Some p → p ≠ r → node s r = Some n →
  addr_of x ≠ addr_of n.
Proof. intros [_ H2] Hx Hp Hn E. apply H2 in Hn. congruence. Qed.

(** One of the three conditional loads, with what it keeps. *)
Lemma division_load x target lo' st :
  INT_MIN + 8 ≤ lo' → frame_ok lo' st → ready st x →
  ∃ st', load_if_unbound x (ret target) st = Returned tt st'
    ∧ frame_ok (lo' - 8) st'
    ∧ (∀ y, ready st y → ready st' y)
    ∧ (reg st !! addr_of x = None → reg st' !! addr_of x = Some target)
    ∧ (∀ p, reg st !! addr_of x = Some p → st' = st)
    ∧ (∀ q, q ≠ target → node st' q = None ∨ node st' q = node st q)
    ∧ (∀ a, a ≠ addr_of x →
            (∀ n, reg st !! addr_of x = None → node st target = Some n →
                  a ≠ addr_of n) →
            reg st' !! a = reg st !! a).
Proof.
  intros Hlo' Hf Hx. destruct (reg st !! addr_of x) as [p|] eqn:Ex.
  - exists st. rewrite (load_if_unbound_bound _ _ _ _ Ex).
    split; [done|]. split.
    { destruct Hf as (Hc & Hh & Ho). split; [done|]. split; [done|lia]. }
    split; [done|]. split; [done|]. split; [done|].
    split; [by right | done].
  - rewrite (load_if_unbound_free _ _ _ Ex).
    destruct (load_ready lo' (Some x) target st Hlo' Hf)
      as (st' & E & Hf' & _ & _ & _ & _ & _ & Hreg & Hnodes & Hready).
    { by intros ? [= <-]. }
    destruct Hf as (Hc & _ & _).
    destruct (load_frame _ _ _ _ Hc E) as [_ Hfr].
    exists st'. split; [done|]. split; [done|]. split; [done|].
    split; [by intros; apply Hreg|].
    split; [done|]. split; [done|].
    intros a Ha Hn. apply Hfr; [by intros ? [= <-] | by intros; apply Hn].
Qed.

(** What [Divide::generate] and [Remainder::generate] do once the code of
    the operands is written: [s3] is the state after the loads, [q] the
    register of the right operand and [o] the operand written for it. *)
Definition division_outcome (result : Register)
    (this _left _right : Expression) (s : State) : Prop :=
  ∃ s3 s' q o,
    division_operands _left _right s = Returned tt s3
    ∧ division_emit result this _left _right s = Returned tt s'
    ∧ (reg s !! addr_of _left = None →
       reg s3 !! addr_of _left = Some rax)
    ∧ (∀ p, reg s !! addr_of _left = Some p → p ≠ rdx →
            (p ≠ rcx ∨ ∃ p', reg s !! addr_of _right = Some p' ∧ p' ≠ rdx) →
            reg s3 !! addr_of _left = Some p)
    ∧ node s3 rdx = None
    ∧ reg s3 !! addr_of _right = Some q
    ∧ (reg s !! addr_of _right = None → q = rcx)
    ∧ (∀ p, reg s !! addr_of _right = Some p → p ≠ rdx →
            (p ≠ rax ∨ is_Some (reg s !! addr_of _left)) → q = p)
    ∧ written s3 _right = Some o
    ∧ stdout s'
      = stdout s3 ++
        [Ins (if (size (type_of _left) =? 8)%N then "cqto" else "cltd") [];
         Ins ("idiv" +:+ suffix (size (type_of _right))) [o]]
    ∧ reg s' !! addr_of this = Some result
    ∧ node s' result = Some this
    ∧ reg s' !! addr_of _left = None
    ∧ reg s' !! addr_of _right = None.

Section Division.
Variables (result : Register) (this _left _right : Expression).
Variables (lo : Z) (s : State).
Hypothesis Hlo : INT_MIN + 24 ≤ lo.
Hypothesis Hs : frame_ok lo s.
Hypothesis Hl : ready s _left.
Hypothesis Hr : ready s _right.
Hypothesis Hthis : reg s !! addr_of this = None.
Hypothesis Hlr : addr_of _left ≠ addr_of _right.
Hypothesis Htl : addr_of this ≠ addr_of _left.
Hypothesis Htr : addr_of this ≠ addr_of _right.

End Division.

(** *** Calls and the stack pointer *)

(** The number of bytes a line takes from, and gives back to, [%rsp]. *)
Definition rsp_sub (l : Line) : Z :=
  match l with
  | Ins opcode [Imm n; Rg r] =>
      if String.eqb opcode "subq" && String.eqb r "%rsp" then n else 0
  | Ins opcode [_] => if String.eqb opcode "pushq" then 8 else 0
  | _ => 0
  end.

Definition rsp_add (l : Line) : Z :=
  match l with
  | Ins opcode [Imm n; Rg r] =>
      if String.eqb opcode "addq" && String.eqb r "%rsp" then n else 0
  | Ins opcode [_] => if String.eqb opcode "popq" then 8 else 0
  | _ => 0
  end.

Definition total (f : Line → Z) (ls : list Line) : Z :=
  foldr (λ l acc, f l + acc) 0 ls.

Lemma total_app f ls ls' : total f (ls ++ ls') = total f ls + total f ls'.
Proof. induction ls as [|l ls IH]; simpl; [done|]. rewrite IH. lia. Qed.

(** A line that leaves [%rsp] alone. *)
Definition still (l : Line) : Prop := rsp_sub l = 0 ∧ rsp_add l = 0.

Lemma total_still f ls :
  (f = rsp_sub ∨ f = rsp_add) → Forall still ls → total f ls = 0.
Proof.
  intros Hf. induction 1 as [|l ls [H1 H2] _ IH]; [done|]. simpl.
  rewrite IH. destruct Hf as [-> | ->]; lia.
Qed.

Lemma mov_still sfx os : still (Ins ("mov" +:+ sfx) os).
Proof.
  split; simpl; destruct os as [|[] [|[] [|]]]; done.
Qed.

Lemma spill_line_still s r : Forall still (spill_line s r).
Proof.
  unfold spill_line. destruct (node s r); [|done].
  apply Forall_singleton, mov_still.
Qed.

Lemma fill_line_still s e r : Forall still (fill_line s e r).
Proof.
  unfold fill_line. destruct e as [x|]; [|done].
  destruct (written s x); [|done]. apply Forall_singleton, mov_still.
Qed.

Lemma load_lines_still s e r :
  Forall still
    (if same_node (node s r) e then []
     else spill_line s r ++ fill_line s e r).
Proof.
  destruct (same_node (node s r) e); [done|].
  apply Forall_app. split; [apply spill_line_still | apply fill_line_still].
Qed.

Lemma frame_ok_stdout lo s ls : frame_ok lo s → frame_ok lo (set_stdout ls s).
Proof. intros (Hc & Hh & Ho). done. Qed.

Lemma ready_stdout s ls y : ready s y → ready (set_stdout ls s) y.
Proof. done. Qed.

Lemma frame_ok_weaken lo lo' s : lo' ≤ lo → frame_ok lo s → frame_ok lo' s.
Proof. intros H (Hc & Hh & Ho). split; [done|]. split; [done|lia]. Qed.

Lemma bound_written lo s e r :
  frame_ok lo s → reg s !! addr_of e = Some r → is_Some (written s e).
Proof.
  intros ([H1 _] & Hh & _) Hr. unfold written. rewrite Hr.
  destruct (H1 _ _ Hr) as (n & Hn & _).
  unfold written_register. rewrite Hn.
  pose proof (scalar_sized _ (Hh _ _ Hn)) as Hz. unfold sized in Hz.
  by rewrite Hz.
Qed.

Lemma sign_extend_byte_arg_spec lo s arg r :
  frame_ok lo s → scalar arg → reg s !! addr_of arg = Some r →
  ∃ ls, sign_extend_byte_arg arg s = Returned tt (set_stdout (stdout s ++ ls) s)
        ∧ Forall still ls.
Proof.
  intros Hf Hs Hr. unfold sign_extend_byte_arg, bind.
  rewrite (Type_size_sized _ _ (scalar_sized _ Hs)).
  destruct (size (type_of arg) =? 1)%N; simpl.
  - rewrite operand_written.
    destruct (bound_written lo s arg r Hf Hr) as [o Ho].
    rewrite Ho. simpl. unfold reg_of, bind, get. rewrite Hr. simpl.
    exists [Ins "movsbl" [o; Rg (Register_name r 4)]].
    split; [done|]. apply Forall_singleton. split; simpl; by destruct o.
  - exists []. rewrite app_nil_r. split; [by destruct s | done].
Qed.

Lemma assign_node e r s :
  ∃ s', assign e (Some r) s = Returned tt s' ∧ node s' r = e.
Proof.
  unfold assign, bind, get, ret, set_node_at, set_reg_at, modify.
  destruct e as [x|]; simpl;
    repeat match goal with
    | |- context [match ?o with Some _ => _ | None => _ end] =>
        destruct o; simpl
    end;
    (eexists; split; [done|]); fields; by rewrite decide_True.
Qed.

Lemma assign_frame_ok lo e r s s' :
  frame_ok lo s → (∀ x, e = Some x → scalar x) →
  assign e r s = Returned tt s' → frame_ok lo s'.
Proof.
  intros (Hc & Hh & Ho) He E.
  destruct (assign_effect e r s) as (s1 & E1 & Hb & Hnode & _).
  rewrite E in E1. injection E1 as <-.
  split; [by eapply assign_consistent|]. split.
  - intros q n Hn. destruct (decide (r = Some q)) as [->|Hq].
    + destruct (assign_node e q s) as (s2 & E2 & Hn2).
      rewrite E in E2. injection E2 as <-. rewrite Hn2 in Hn.
      by apply He.
    + rewrite (Hnode q Hq) in Hn. destruct e as [x|].
      * case_decide; [done|]. by eapply Hh.
      * by eapply Hh.
  - destruct (rebinds_fields _ _ Hb) as (_ & -> & _). done.
Qed.

Lemma assign_unbind_ready s s' arg y :
  assign (Some arg) None s = Returned tt s' →
  ready s y → addr_of y ≠ addr_of arg → ready s' y.
Proof.
  intros E (Hs & Hv & Hw) Hne.
  destruct (assign_effect (Some arg) None s) as (s1 & E1 & Hb & _ & Hreg).
  rewrite E in E1. injection E1 as <-.
  destruct (rebinds_fields _ _ Hb) as (Hsym & _ & Hslot & _).
  split; [done|]. split; [by rewrite Hsym|].
  rewrite Hreg; [| by intros ? [= <-] | done].
  destruct Hw as [Hw|Hw]; [by left|]. right.
  unfold written_expression, slot_of in *. by rewrite Hsym, Hslot.
Qed.

Lemma Call_argument_spec lo args i arg acc s :
  args !! i = Some arg →
  INT_MIN + 8 ≤ lo → frame_ok lo s → ready s arg →
  ∃ s' ls,
    Call_argument args i acc s
      = Returned (if (NUM_PARAM_REGS <=? i)%nat
                  then to_unsigned (acc + 8) else acc) s'
    ∧ stdout s' = stdout s ++ ls
    ∧ total rsp_sub ls = (if (NUM_PARAM_REGS <=? i)%nat then 8 else 0)
    ∧ total rsp_add ls = 0
    ∧ frame_ok (lo - 8) s'
    ∧ symtab s' = symtab s
    ∧ (∀ y, ready s y → addr_of y ≠ addr_of arg → ready s' y).
Proof.
  intros Ha Hlo Hf Hr. unfold Call_argument, bind. rewrite Ha.
  assert (∀ r, ∃ s2 ls,
    (load (Some arg) r;; sign_extend_byte_arg arg)%M s = Returned tt s2
    ∧ stdout s2 = stdout s ++ ls
    ∧ Forall still ls
    ∧ frame_ok (lo - 8) s2
    ∧ symtab s2 = symtab s
    ∧ (∀ y, ready s y → ready s2 y)) as Hload.
  { intros r.
    destruct (load_ready lo (Some arg) r s Hlo Hf)
      as (s1 & E1 & Hf1 & _ & Hsym1 & _ & Hout1 & _ & Hreg1 & _ & Hready1).
    { by intros ? [= <-]. }
    destruct (sign_extend_byte_arg_spec (lo - 8) s1 arg r Hf1 (proj1 Hr)
                (Hreg1 arg eq_refl)) as (ls2 & E2 & Hls2).
    exists (set_stdout (stdout s1 ++ ls2) s1),
      ((if same_node (node s r) (Some arg) then []
        else spill_line s r ++ fill_line s (Some arg) r) ++ ls2).
    unfold bind. rewrite E1, E2. split; [done|].
    simpl. rewrite Hout1, <- app_assoc. split; [done|]. split.
    { apply Forall_app. split; [apply load_lines_still | done]. }
    split; [by apply frame_ok_stdout|]. split; [done|].
    intros y Hy. by apply ready_stdout, Hready1. }
  destruct (NUM_PARAM_REGS <=? i)%nat eqn:Hi.
  - destruct (Hload rax) as (s2 & ls & E & Hout & Hst & Hf2 & Hsym & Hready).
    unfold bind in E.
    destruct (load (Some arg) rax s) as [[] s1| | |]; try done.
    rewrite E. unfold emit, modify, ret. simpl.
    set (s3 := set_stdout (stdout s2 ++ [Ins "pushq" [Rg "%rax"]]) s2).
    destruct (assign_unbinds arg s3) as (s4 & E4 & Hb4 & _).
    rewrite E4. exists s4, (ls ++ [Ins "pushq" [Rg "%rax"]]).
    destruct (rebinds_fields _ _ Hb4) as (Hsym4 & _ & _ & Hout4 & _).
    split; [done|]. split.
    { rewrite Hout4. unfold s3. simpl. by rewrite Hout, <- app_assoc. }
    split. { rewrite total_app, (total_still rsp_sub ls); auto. }
    split. { rewrite total_app, (total_still rsp_add ls); auto. }
    split.
    { apply (assign_frame_ok _ (Some arg) None s3); [| |done].
      - by apply frame_ok_stdout.
      - intros ? [= <-]. apply Hr. }
    split; [by rewrite Hsym4|].
    intros y Hy Hne. apply (assign_unbind_ready s3 _ arg); [done| |done].
    by apply ready_stdout, Hready.
  - apply Nat.leb_gt in Hi.
    destruct (lookup_lt_is_Some_2 parameter_registers i) as [r Hreg];
      [done|].
    rewrite Hreg.
    destruct (Hload r) as (s2 & ls & E & Hout & Hst & Hf2 & Hsym & Hready).
    unfold bind in E.
    destruct (load (Some arg) r s) as [[] s1| | |]; try done.
    rewrite E. unfold ret. simpl.
    destruct (assign_unbinds arg s2) as (s4 & E4 & Hb4 & _).
    rewrite E4. exists s4, ls.
    destruct (rebinds_fields _ _ Hb4) as (Hsym4 & _ & _ & Hout4 & _).
    split; [done|]. split; [by rewrite Hout4|].
    split. { by apply (total_still rsp_sub); auto. }
    split. { by apply (total_still rsp_add); auto. }
    split.
    { apply (assign_frame_ok _ (Some arg) None s2); [done| |done].
      intros ? [= <-]. apply Hr. }
    split; [by rewrite Hsym4|].
    intros y Hy Hne. apply (assign_unbind_ready s2 _ arg); [done| |done].
    by apply Hready.
Qed.

Lemma Call_arguments_spec args :
  NoDup (addr_of <$> args) →
  ∀ i lo acc s,
    (i ≤ length args)%nat →
    INT_MIN + 8 + 8 * Z.of_nat i ≤ lo →
    frame_ok lo s →
    (∀ j arg, (j < i)%nat → args !! j = Some arg → ready s arg) →
    Z.of_N acc + 8 * Z.of_nat i < 2 ^ 32 →
    ∃ s' ls,
      for_down i (Call_argument args) acc s
        = Returned (acc + 8 * N.of_nat (i - NUM_PARAM_REGS))%N s'
      ∧ stdout s' = stdout s ++ ls
      ∧ total rsp_sub ls = 8 * Z.of_nat (i - NUM_PARAM_REGS)
      ∧ total rsp_add ls = 0
      ∧ frame_ok (lo - 8 * Z.of_nat i) s'
      ∧ symtab s' = symtab s.
Proof.
  intros Hnd. induction i as [|i IH]; intros lo acc s Hi Hlo Hf Hr Hacc.
  - exists s, []. simpl. rewrite N.add_0_r, app_nil_r.
    split; [done|]. split; [done|]. split; [done|]. split; [done|].
    split; [|done]. by apply (frame_ok_weaken lo); [lia|].
  - destruct (lookup_lt_is_Some_2 args i) as [arg Ha]; [lia|].
    destruct (Call_argument_spec lo args i arg acc s Ha)
      as (s1 & ls1 & E1 & Hout1 & Hsub1 & Hadd1 & Hf1 & Hsym1 & Hready1);
      [lia | done | by apply (Hr i); [lia|] |].
    set (acc1 := if (NUM_PARAM_REGS <=? i)%nat
                 then to_unsigned (acc + 8) else acc) in *.
    assert (acc1 = (acc + (if (NUM_PARAM_REGS <=? i)%nat then 8 else 0))%N)
      as Hacc1.
    { unfold acc1. destruct (NUM_PARAM_REGS <=? i)%nat; [|lia].
      unfold to_unsigned. apply N.mod_small. lia. }
    destruct (IH (lo - 8) acc1 s1) as
      (s2 & ls2 & E2 & Hout2 & Hsub2 & Hadd2 & Hf2 & Hsym2).
    + lia.
    + lia.
    + done.
    + intros j y Hj Hy. apply Hready1; [by apply (Hr j); [lia|] |].
      intros Heq.
      assert ((addr_of <$> args) !! j = Some (addr_of y)) as Hj1
        by (by rewrite list_lookup_fmap, Hy).
      assert ((addr_of <$> args) !! i = Some (addr_of y)) as Hi1
        by (by rewrite list_lookup_fmap, Ha, Heq).
      pose proof (NoDup_lookup _ _ _ _ Hnd Hj1 Hi1). lia.
    + rewrite Hacc1. destruct (NUM_PARAM_REGS <=? i)%nat; lia.
    + exists s2, (ls1 ++ ls2). simpl. unfold bind. rewrite E1, E2.
      split.
      { f_equal. rewrite Hacc1. unfold NUM_PARAM_REGS in *.
        destruct (6 <=? i)%nat eqn:H6.
        - apply Nat.leb_le in H6. lia.
        - apply Nat.leb_gt in H6. lia. }
      split; [by rewrite Hout2, Hout1, app_assoc|].
      split.
      { rewrite total_app, Hsub1, Hsub2. unfold NUM_PARAM_REGS in *.
        destruct (6 <=? i)%nat eqn:H6.
        - apply Nat.leb_le in H6. lia.
        - apply Nat.leb_gt in H6. lia. }
      split; [rewrite total_app; lia|].
      split; [|congruence].
      apply (frame_ok_weaken (lo - 8 - 8 * Z.of_nat i)); [lia | done].
Qed.

Lemma spill_all pool :
  ∀ lo s,
    INT_MIN + 8 + 8 * Z.of_nat (length pool) ≤ lo →
    frame_ok lo s →
    ∃ s' ls,
      for_each pool (λ r, load None r) s = Returned tt s'
      ∧ stdout s' = stdout s ++ ls
      ∧ Forall still ls
      ∧ frame_ok (lo - 8 * Z.of_nat (length pool)) s'
      ∧ symtab s' = symtab s.
Proof.
  induction pool as [|r pool IH]; intros lo s Hlo Hf.
  - exists s, []. rewrite app_nil_r.
    split; [done|]. split; [done|]. split; [done|]. split; [|done].
    by apply (frame_ok_weaken lo); [simpl; lia|].
  - simpl in Hlo.
    destruct (load_ready lo None r s) as
      (s1 & E1 & Hf1 & _ & Hsym1 & _ & Hout1 & _); [lia | done | done |].
    destruct (IH (lo - 8) s1) as (s2 & ls2 & E2 & Hout2 & Hst2 & Hf2 & Hsym2);
      [lia | done |].
    eexists s2, (_ ++ ls2). simpl. unfold bind. rewrite E1, E2.
    split; [done|]. split; [by rewrite Hout2, Hout1, app_assoc|].
    split. { apply Forall_app. split; [apply load_lines_still | done]. }
    split; [|congruence].
    apply (frame_ok_weaken (lo - 8 - 8 * Z.of_nat (length pool)));
      [simpl; lia | done].
Qed.

Definition round_up (x m : Z) : Z := (x + m - 1) / m * m.

Lemma Call_padding_spec (n : nat) :
  6 < Z.of_nat n < 2 ^ 28 →
  (Call_padding n = 0%N ∨ Call_padding n = 8%N)
  ∧ Z.of_N (Call_padding n) + 8 * (Z.of_nat n - 6)
    = round_up ((Z.of_nat n - Z.of_nat NUM_PARAM_REGS) * PARAM_ALIGNMENT)
        STACK_ALIGNMENT.
Proof.
  intros Hn. unfold Call_padding, round_up, align, NUM_PARAM_REGS,
    PARAM_ALIGNMENT, STACK_ALIGNMENT.
  set (k := Z.of_nat n - 6). replace (Z.of_nat n - Z.of_nat 6) with k by lia.
  assert (0 < k < 2 ^ 28) as Hk by lia.
  rewrite to_int_id by (unfold INT_MIN, INT_MAX; lia).
  rewrite Z.abs_eq by lia. rewrite !Z.rem_mod_nonneg by lia.
  assert ((k * 8) `mod` 16 = 8 * (k `mod` 2)) as ->.
  { replace (k * 8) with (8 * k) by lia. replace 16 with (8 * 2) by lia.
    apply Z.mul_mod_distr_l; lia. }
  pose proof (Z.mod_pos_bound k 2) as Hb.
  pose proof (Z.div_mod k 2) as Hd.
  assert (k `mod` 2 = 0 ∨ k `mod` 2 = 1) as [Hm|Hm] by lia; rewrite Hm.
  - simpl. split; [by left|].
    replace (k * 8 + 16 - 1) with (15 + (k `div` 2) * 16) by lia.
    rewrite Z.div_add by lia. change (15 `div` 16) with 0. simpl. lia.
  - simpl. split; [by right|].
    replace (k * 8 + 16 - 1) with (7 + (k `div` 2 + 1) * 16) by lia.
    rewrite Z.div_add by lia. change (7 `div` 16) with 0. simpl. lia.
Qed.

(** What [Call::generate] writes around the call instruction. *)
Definition Call_stack_outcome (this : Expression) (id : Addr)
    (args : Expressions) (s : State) : Prop :=
  ∃ sym s' before,
    symtab s !! id = Some sym
    ∧ Call_emit this id args s = Returned tt s'
    ∧ stdout s'
      = stdout s ++ before ++
        [Ins "call" [Global (Symbol_name sym)];
         Ins "addq"
           [Imm (round_up ((Z.of_nat (length args) - Z.of_nat NUM_PARAM_REGS)
                           * PARAM_ALIGNMENT) STACK_ALIGNMENT);
            Rg "%rsp"]]
    ∧ total rsp_sub before
      = round_up ((Z.of_nat (length args) - Z.of_nat NUM_PARAM_REGS)
                  * PARAM_ALIGNMENT) STACK_ALIGNMENT
    ∧ total rsp_add before = 0.

(** C6: for a call with more than [NUM_PARAM_REGS] arguments, what is
    taken from [%rsp] by the lines written before the [call] (the [subq]
    of the padding and a [pushq] for each argument passed on the stack)
    is [(n - NUM_PARAM_REGS) * PARAM_ALIGNMENT] rounded up to a multiple
    of [STACK_ALIGNMENT], nothing is given back before the [call], and
    the line after the [call] is the [addq] of that amount. *)
Theorem Call_emit_stack this id sym args lo s :
  (NUM_PARAM_REGS < length args)%nat →
  Z.of_nat (length args) < 2 ^ 28 →
  INT_MIN + 8 * (Z.of_nat (length args) + 10) ≤ lo →
  frame_ok lo s →
  Forall (ready s) args →
  NoDup (addr_of <$> args) →
  symtab s !! id = Some sym →
  isFunction (Symbol_type sym) = true →
  Call_stack_outcome this id args s.
Proof.
  intros Hn Hmax Hlo Hf Hargs Hnd Hsym Hfun. unfold Call_stack_outcome.
  unfold NUM_PARAM_REGS in Hn.
  destruct (Call_padding_spec (length args)) as [Hpad Hround]; [lia|].
  set (bytes := round_up _ _) in *.
  set (pad := Call_padding (length args)) in *.
  set (padding := if (0 <? pad)%N
                  then [Ins "subq" [Imm (Z.of_N pad); Rg "%rsp"]] else []).
  assert (total rsp_sub padding = Z.of_N pad ∧ total rsp_add padding = 0)
    as [Hpsub Hpadd].
  { unfold padding. destruct Hpad as [-> | ->]; done. }
  set (s0 := set_stdout (stdout s ++ padding) s).
  assert ((when (0 <? pad)%N
             (emit (Ins "subq" [Imm (Z.of_N pad); Rg "%rsp"]))) s
          = Returned tt s0) as Epad.
  { unfold s0, padding, when, emit, modify, ret.
    destruct (0 <? pad)%N; [done|]. rewrite app_nil_r. by destruct s. }
  destruct (Call_arguments_spec args Hnd (length args) lo pad s0)
    as (s1 & ls1 & E1 & Hout1 & Hsub1 & Hadd1 & Hf1 & Hsym1).
  { done. }
  { lia. }
  { by apply frame_ok_stdout. }
  { intros j arg _ Hj. apply ready_stdout.
    rewrite Forall_forall in Hargs. apply Hargs.
    by apply list_elem_of_lookup_2 in Hj. }
  { destruct Hpad as [-> | ->]; lia. }
  destruct (spill_all registers (lo - 8 * Z.of_nat (length args)) s1)
    as (s2 & ls2 & E2 & Hout2 & Hst2 & Hf2 & Hsym2).
  { simpl. lia. }
  { done. }
  assert (symtab s2 !! id = Some sym) as Hsym'.
  { rewrite Hsym2, Hsym1. exact Hsym. }
  destruct (Symbol_type sym) as [| | |sp ind v ts] eqn:Et; try done.
  set (zero := if v then [Ins "movl" [Imm 0; Rg "%eax"]] else []).
  set (numBytes := (pad + 8 * N.of_nat (length args - 6))%N) in *.
  assert (Z.of_N numBytes = bytes) as Hbytes.
  { unfold numBytes. rewrite <- Hround. lia. }
  assert (0 < bytes) as Hpos.
  { rewrite <- Hbytes. unfold numBytes. lia. }
  set (s3 := set_stdout
               (stdout s2 ++ zero ++
                [Ins "call" [Global (Symbol_name sym)];
                 Ins "addq" [Imm bytes; Rg "%rsp"]]) s2).
  destruct (assign_node (Some this) rax s3) as (s4 & E4 & _).
  destruct (assign_returns (Some this) (Some rax) s3) as (s4' & E4' & Hb4).
  rewrite E4 in E4'. injection E4' as <-.
  exists sym, s4, (padding ++ ls1 ++ ls2 ++ zero).
  split; [done|]. split.
  { unfold Call_emit, bind.
    assert ((NUM_PARAM_REGS <? length args)%nat = true) as ->
      by (apply Nat.ltb_lt; unfold NUM_PARAM_REGS; lia).
    fold pad. rewrite Epad. unfold ret at 1. rewrite E1, E2.
    rewrite (symbol_at_Some _ _ _ Hsym'), Et. simpl.
    change NUM_PARAM_REGS with 6%nat. fold numBytes.
    assert ((0 <? numBytes)%N = true) as -> by (apply N.ltb_lt; lia).
    unfold when, emit, modify, ret. rewrite Hbytes.
    rewrite <- E4. f_equal. unfold s3, zero.
    destruct v; simpl; by rewrite <- !app_assoc. }
  split.
  { destruct (rebinds_fields _ _ Hb4) as (_ & _ & _ & -> & _).
    unfold s3. simpl. rewrite Hout2, Hout1. unfold s0. simpl.
    by rewrite <- !app_assoc. }
  split.
  - rewrite !total_app, Hpsub, Hsub1, (total_still rsp_sub ls2) by auto.
    assert (total rsp_sub zero = 0) as -> by (unfold zero; by destruct v).
    rewrite <- Hround. unfold NUM_PARAM_REGS. lia.
  - rewrite !total_app, Hpadd, Hadd1, (total_still rsp_add ls2) by auto.
    assert (total rsp_add zero = 0) as -> by (unfold zero; by destruct v).
    done.
Qed.

(** ** Storage allocation *)

(** The symbols declared by the blocks of a statement. *)
Fixpoint symbols_of (stmt : Statement) : list Addr :=
  match stmt with
  | Block decls stmts =>
      decls ++
      (fix each (l : Statements) : list Addr :=
         match l with
         | [] => []
         | stmt :: r => symbols_of stmt ++ each r
         end) stmts
  | While _ stmt => symbols_of stmt
  | For _ _ _ stmt => symbols_of stmt
  | If _ thenStmt elseStmt =>
      symbols_of thenStmt ++
      match elseStmt with
      | Some elseStmt => symbols_of elseStmt
      | None => []
      end
  | _ => []
  end.

(** A symbol that is there and whose type has a size. *)
Definition known (s : State) (a : Addr) : Prop :=
  ∃ sym, symtab s !! a = Some sym ∧ size_assert (Symbol_type sym) = true.

(** From [s] to [s'] the symbols keep their types, and those that have an
    offset keep it. *)
Definition settled (s s' : State) : Prop :=
  ∀ a,
    match symtab s !! a, symtab s' !! a with
    | Some x, Some y =>
        Symbol_type y = Symbol_type x
        ∧ (Symbol_offset x ≠ 0 → Symbol_offset y = Symbol_offset x)
    | None, None => True
    | _, _ => False
    end.

(** From [s] to [s'] the symbols keep their types. *)
Definition retyped (s s' : State) : Prop :=
  ∀ a, Symbol_type <$> symtab s' !! a = Symbol_type <$> symtab s !! a.

(** The offset of the symbol at [a]. *)
Definition offset_at (s : State) (a : Addr) : option Z :=
  Symbol_offset <$> symtab s !! a.

(** The sum of the sizes of the first [k] types. *)
Definition sizes (types : Types) (k : nat) : Z :=
  foldr (λ t acc, Z.of_N (size t) + acc) 0 (take k types).

Lemma settled_refl s : settled s s.
Proof. intros a. by destruct (symtab s !! a). Qed.

Lemma settled_trans s1 s2 s3 : settled s1 s2 → settled s2 s3 → settled s1 s3.
Proof.
  intros H1 H2 a. specialize (H1 a). specialize (H2 a).
  destruct (symtab s1 !! a), (symtab s2 !! a), (symtab s3 !! a); try done.
  destruct H1 as [T1 O1], H2 as [T2 O2]. split; [congruence|].
  intros H. rewrite O2; [by apply O1|]. rewrite O1; done.
Qed.

Lemma settled_retyped s s' : settled s s' → retyped s s'.
Proof.
  intros H a. specialize (H a).
  destruct (symtab s !! a), (symtab s' !! a); try done.
  simpl. f_equal. apply H.
Qed.

Lemma retyped_refl s : retyped s s.
Proof. done. Qed.

Lemma retyped_trans s1 s2 s3 : retyped s1 s2 → retyped s2 s3 → retyped s1 s3.
Proof. intros H1 H2 a. by rewrite H2, H1. Qed.

Lemma known_retyped s s' a : retyped s s' → known s a → known s' a.
Proof.
  intros H (sym & Hs & Ht). specialize (H a). rewrite Hs in H.
  destruct (symtab s' !! a) as [y|] eqn:E; [|done].
  exists y. split; [done|]. simpl in H. congruence.
Qed.

Lemma set_Symbol_offset_spec a o s sym :
  symtab s !! a = Some sym →
  set_Symbol_offset a o s
  = Returned tt
      (set_symtab
         (<[a := mkSymbol (Symbol_name sym) (Symbol_type sym) o]> (symtab s))
         s).
Proof.
  intros H. unfold set_Symbol_offset, bind.
  by rewrite (symbol_at_Some _ _ _ H).
Qed.

Lemma set_offset_retyped a o s sym :
  symtab s !! a = Some sym →
  retyped s
    (set_symtab
       (<[a := mkSymbol (Symbol_name sym) (Symbol_type sym) o]> (symtab s)) s).
Proof.
  intros H b. unfold set_symtab; simpl.
  destruct (decide (b = a)) as [->|Hne].
  - by rewrite lookup_insert_eq, H.
  - by rewrite lookup_insert_ne.
Qed.

Lemma set_offset_settled a o s sym :
  symtab s !! a = Some sym →
  Symbol_offset sym = 0 →
  settled s
    (set_symtab
       (<[a := mkSymbol (Symbol_name sym) (Symbol_type sym) o]> (symtab s)) s).
Proof.
  intros H H0 b. unfold set_symtab; simpl.
  destruct (decide (b = a)) as [->|Hne].
  - rewrite lookup_insert_eq, H. simpl. split; [done|]. by rewrite H0.
  - rewrite lookup_insert_ne by done. by destruct (symtab s !! b).
Qed.

Lemma allocate_symbols_spec symbols :
  ∀ offset s,
    Forall (known s) symbols →
    ∃ offset' s',
      allocate_symbols symbols offset s = Returned offset' s'
      ∧ settled s s'.
Proof.
  induction symbols as [|a r IH]; intros offset s Hk.
  - exists offset, s. split; [done|apply settled_refl].
  - apply Forall_cons in Hk as [(sym & Hs & Ht) Hr]. simpl. unfold bind at 1.
    rewrite (symbol_at_Some _ _ _ Hs).
    destruct (Symbol_offset sym =? 0) eqn:E0.
    + apply Z.eqb_eq in E0. unfold bind at 1.
      rewrite (Type_size_sized _ _ Ht). unfold bind at 1.
      rewrite (set_Symbol_offset_spec _ _ _ _ Hs).
      match goal with |- context [allocate_symbols r ?o ?st] =>
        destruct (IH o st) as (o' & s' & E & Hst) end.
      { eapply Forall_impl; [exact Hr|]. intros b.
        apply known_retyped. by apply set_offset_retyped. }
      exists o', s'. split; [done|].
      eapply settled_trans; [|exact Hst]. by apply set_offset_settled.
    + apply IH. done.
Qed.

Lemma Statement_allocate_spec stmt :
  ∀ offset s,
    Forall (known s) (symbols_of stmt) →
    ∃ offset' s',
      Statement_allocate stmt offset s = Returned offset' s'
      ∧ settled s s'.
Proof.
  induction stmt as [e|l r|e| |e b IHb|i e c b IHi IHc IHb|e t IHt
                    |e t t' IHt IHt'|ds ss Hss] using Statement_nested_ind;
    intros offset s Hk;
    try (by exists offset, s; split; [|apply settled_refl]).
  - by apply IHb.
  - by apply IHb.
  - simpl in *. rewrite app_nil_r in Hk.
    destruct (IHt offset s Hk) as (o' & s' & E & Hs).
    exists o', s'. unfold bind. by rewrite E.
  - simpl in *. apply Forall_app in Hk as [Hk1 Hk2].
    destruct (IHt offset s Hk1) as (o1 & s1 & E1 & Hs1).
    destruct (IHt' offset s1) as (o2 & s2 & E2 & Hs2).
    { eapply Forall_impl; [exact Hk2|]. intros b.
      apply known_retyped. by apply settled_retyped. }
    exists (Z.min o1 o2), s2. unfold bind. rewrite E1, E2.
    split; [done|]. by eapply settled_trans.
  - simpl in Hk. apply Forall_app in Hk as [Hd Hk].
    destruct (allocate_symbols_spec _ offset s Hd) as (o1 & s1 & E1 & Hs1).
    simpl. unfold bind at 1. rewrite E1.
    assert (Forall (known s1)
              ((fix each (l : Statements) : list Addr :=
                  match l with
                  | [] => []
                  | stmt :: r => symbols_of stmt ++ each r
                  end) ss)) as Hk1.
    { eapply Forall_impl; [exact Hk|]. intros b.
      apply known_retyped. by apply settled_retyped. }
    clear Hk E1 Hd.
    assert (settled s s1 → ∀ acc, ∃ offset' s',
      (fix each (l : Statements) (offset : Z) : M Z :=
         match l with
         | [] => ret offset
         | stmt :: r =>
             temp <- Statement_allocate stmt o1;;
             each r (Z.min offset temp)
         end) ss acc s1 = Returned offset' s' ∧ settled s s') as Hgoal;
      [|by apply Hgoal].
    clear Hs1. revert s1 Hk1.
    induction Hss as [|stmt r Hstmt Hrest IH]; intros s1 Hk1 Hs1 acc.
    + by exists acc, s1.
    + apply Forall_app in Hk1 as [Ha Hb].
      destruct (Hstmt o1 s1 Ha) as (o2 & s2 & E2 & Hs2).
      unfold bind. rewrite E2.
      apply IH.
      * eapply Forall_impl; [exact Hb|]. intros b.
        apply known_retyped. by apply settled_retyped.
      * by eapply settled_trans.
Qed.

Lemma align_parameter_spec fuel :
  ∀ x,
    0 ≤ x →
    (- x) mod 8 < Z.of_nat fuel →
    x + (- x) mod 8 ≤ INT_MAX →
    ∀ s, align_parameter fuel x s = Returned (x + (- x) mod 8) s.
Proof.
  induction fuel as [|fuel IH]; intros x H0 Hd Hmax s.
  - exfalso. Z.to_euclidean_division_equations. lia.
  - simpl. unfold PARAM_ALIGNMENT. rewrite Z.rem_mod_nonneg by lia.
    destruct (x mod 8 =? 0) eqn:E; simpl.
    + apply Z.eqb_eq in E. unfold ret. f_equal.
      Z.to_euclidean_division_equations. lia.
    + apply Z.eqb_neq in E.
      assert (to_int (x + 1) = x + 1) as ->.
      { apply to_int_id. unfold INT_MIN, INT_MAX in *.
        Z.to_euclidean_division_equations. lia. }
      rewrite IH.
      * f_equal. Z.to_euclidean_division_equations. lia.
      * lia.
      * Z.to_euclidean_division_equations. lia.
      * Z.to_euclidean_division_equations. lia.
Qed.

Lemma scalar_type_size t :
  isScalar t = true →
  size_assert t = true ∧ 1 ≤ Z.of_N (size t) ≤ 8.
Proof.
  destruct t as [|sp i| |]; try done. intros _. split; [done|].
  unfold size. simpl. destruct (0 <? i)%N; [|destruct sp]; vm_compute;
    split; discriminate.
Qed.

(** The offset of the parameter of index [i] passed on the stack. *)
Definition stack_offset (i : nat) : Z :=
  2 * SIZEOF_REG + PARAM_ALIGNMENT * (Z.of_nat i - Z.of_nat NUM_PARAM_REGS).

Lemma allocate_stack_parameters_spec types symbols :
  NoDup (take (length types) symbols) →
  Forall (λ t, isScalar t = true) types →
  (length types ≤ length symbols)%nat →
  Z.of_nat (length types) < 2 ^ 27 →
  ∀ n i s,
    (NUM_PARAM_REGS ≤ i)%nat →
    (i + n ≤ i `max` length types)%nat →
    Forall (λ a, is_Some (symtab s !! a)) symbols →
    ∃ offset' s',
      allocate_stack_parameters types symbols n i (stack_offset i) s
        = Returned offset' s'
      ∧ retyped s s'
      ∧ (∀ j a, (i ≤ j < i + n)%nat → symbols !! j = Some a →
           offset_at s' a = Some (stack_offset j))
      ∧ (∀ j a, (j < i)%nat → symbols !! j = Some a →
           symtab s' !! a = symtab s !! a).
Proof.
  intros Hnd Hsc Hlen Hmax.
  induction n as [|n IH]; intros i s Hi Hin Hs.
  - exists (stack_offset i), s. split; [done|]. split; [done|].
    split; [intros; lia|done].
  - destruct (lookup_lt_is_Some_2 symbols i) as [a Ha]; [lia|].
    destruct (lookup_lt_is_Some_2 types i) as [t Ht]; [lia|].
    cbn [allocate_stack_parameters]. rewrite Ha, Ht.
    assert (is_Some (symtab s !! a)) as [sym Hsym].
    { rewrite Forall_forall in Hs. apply Hs.
      by apply list_elem_of_lookup_2 in Ha. }
    rewrite Forall_forall in Hsc.
    destruct (scalar_type_size t) as [Hsz Hb].
    { apply Hsc. by apply list_elem_of_lookup_2 in Ht. }
    unfold bind at 1. rewrite (set_Symbol_offset_spec _ _ _ _ Hsym).
    unfold bind at 1. rewrite (Type_size_sized _ _ Hsz).
    unfold bind at 1.
    assert (0 ≤ stack_offset i ∧ stack_offset i mod 8 = 0
            ∧ stack_offset i + 16 < 2 ^ 31) as (Hp & Hm & Hu).
    { unfold stack_offset, SIZEOF_REG, PARAM_ALIGNMENT, NUM_PARAM_REGS in *.
      split; [lia|]. split; [|lia].
      Z.to_euclidean_division_equations. lia. }
    assert (to_int (stack_offset i + Z.of_N (size t))
            = stack_offset i + Z.of_N (size t)) as ->.
    { apply to_int_id. unfold INT_MIN, INT_MAX. lia. }
    rewrite align_parameter_spec.
    2:{ lia. }
    2:{ unfold PARAM_ALIGNMENT. simpl.
        Z.to_euclidean_division_equations. lia. }
    2:{ unfold INT_MAX. Z.to_euclidean_division_equations. lia. }
    assert (stack_offset i + Z.of_N (size t)
            + (- (stack_offset i + Z.of_N (size t))) mod 8
            = stack_offset (S i)) as ->.
    { unfold stack_offset, SIZEOF_REG, PARAM_ALIGNMENT, NUM_PARAM_REGS in *.
      Z.to_euclidean_division_equations. lia. }
    match goal with |- context [allocate_stack_parameters _ _ n (S i) _ ?st] =>
      set (s1 := st) end.
    assert (retyped s s1) as Hr1 by by apply set_offset_retyped.
    destruct (IH (S i) s1) as (o' & s' & E & Hr & Hset & Hkeep).
    { lia. }
    { lia. }
    { eapply Forall_impl; [exact Hs|]. intros b [x Hx].
      specialize (Hr1 b). rewrite Hx in Hr1.
      destruct (symtab s1 !! b); [done|discriminate]. }
    exists o', s'. split; [done|]. split; [by eapply retyped_trans|].
    split.
    + intros j b Hj Hjb. destruct (decide (j = i)) as [->|Hne].
      * assert (b = a) as -> by congruence.
        unfold offset_at. rewrite (Hkeep i a); [|lia|done].
        unfold s1, set_symtab; simpl. by rewrite lookup_insert_eq.
      * apply (Hset j b); [lia|done].
    + intros j b Hj Hjb. rewrite (Hkeep j b); [|lia|done].
      unfold s1, set_symtab; simpl. rewrite lookup_insert_ne; [done|].
      intros Heq. subst b.
      assert (take (length types) symbols !! i = Some a) as H1.
      { rewrite lookup_take_lt by lia. done. }
      assert (take (length types) symbols !! j = Some a) as H2.
      { rewrite lookup_take_lt by lia. done. }
      pose proof (NoDup_lookup _ _ _ _ Hnd H1 H2). lia.
Qed.

Lemma sizes_S types i t :
  types !! i = Some t → sizes types (S i) = sizes types i + Z.of_N (size t).
Proof.
  unfold sizes. revert i. induction types as [|u r IH]; intros i H; [done|].
  destruct i as [|i].
  - injection H as ->. cbn. rewrite take_0. cbn. lia.
  - cbn in H. cbn [take foldr]. rewrite (IH i H). lia.
Qed.

Lemma sizes_bounds types :
  Forall (λ t, isScalar t = true) types →
  ∀ i, (i ≤ length types)%nat →
    Z.of_nat i ≤ sizes types i ≤ 8 * Z.of_nat i.
Proof.
  intros Hsc. induction i as [|i IH]; intros Hi.
  - unfold sizes. rewrite take_0. simpl. lia.
  - destruct (lookup_lt_is_Some_2 types i) as [t Ht]; [lia|].
    rewrite (sizes_S _ _ _ Ht).
    rewrite Forall_forall in Hsc.
    destruct (scalar_type_size t) as [_ Hb].
    { apply Hsc. by apply list_elem_of_lookup_2 in Ht. }
    lia.
Qed.

Lemma allocate_register_parameters_spec types symbols :
  NoDup (take (length types) symbols) →
  Forall (λ t, isScalar t = true) types →
  (length types ≤ length symbols)%nat →
  ∀ n i s,
    (i + n ≤ NUM_PARAM_REGS)%nat →
    (i ≤ length types)%nat →
    Forall (λ a, is_Some (symtab s !! a)) symbols →
    ∃ offset' s',
      allocate_register_parameters types symbols n i (- sizes types i) s
        = Returned offset' s'
      ∧ - 8 * Z.of_nat NUM_PARAM_REGS ≤ offset' ≤ 0
      ∧ retyped s s'
      ∧ (∀ j a, (i ≤ j < i + n)%nat → (j < length types)%nat →
           symbols !! j = Some a →
           offset_at s' a = Some (- sizes types (S j)))
      ∧ (∀ j a, (j < i ∨ i + n ≤ j < length types)%nat →
           symbols !! j = Some a →
           symtab s' !! a = symtab s !! a).
Proof.
  intros Hnd Hsc Hlen.
  induction n as [|n IH]; intros i s Hin Hi Hs.
  - exists (- sizes types i), s. split; [done|].
    pose proof (sizes_bounds types Hsc i Hi).
    split; [lia|]. split; [done|]. split; [intros; lia|done].
  - simpl. destruct (types !! i) as [t|] eqn:Ht.
    2:{ exists (- sizes types i), s. split; [done|].
        pose proof (sizes_bounds types Hsc i Hi).
        split; [lia|]. split; [done|]. split; [|done].
        intros j a Hj Hjl. apply lookup_ge_None in Ht. lia. }
    assert (i < length types)%nat as Hil by by eapply lookup_lt_Some.
    destruct (lookup_lt_is_Some_2 symbols i) as [a Ha]; [lia|].
    assert (is_Some (symtab s !! a)) as [sym Hsym].
    { rewrite Forall_forall in Hs. apply Hs.
      by apply list_elem_of_lookup_2 in Ha. }
    pose proof Hsc as Hsc'. rewrite Forall_forall in Hsc'.
    destruct (scalar_type_size t) as [Hsz Hb].
    { apply Hsc'. by apply list_elem_of_lookup_2 in Ht. }
    unfold bind at 1. rewrite (Type_size_sized _ _ Hsz). rewrite Ha.
    pose proof (sizes_bounds types Hsc i Hi) as Hsb.
    assert (to_int (- sizes types i - Z.of_N (size t))
            = - sizes types (S i)) as ->.
    { rewrite (sizes_S _ _ _ Ht). rewrite to_int_id; [lia|].
      unfold INT_MIN, INT_MAX. unfold NUM_PARAM_REGS in *. lia. }
    unfold bind at 1. rewrite (set_Symbol_offset_spec _ _ _ _ Hsym).
    match goal with
    | |- context [allocate_register_parameters _ _ n (S i) _ ?st] =>
        set (s1 := st) end.
    assert (retyped s s1) as Hr1 by by apply set_offset_retyped.
    destruct (IH (S i) s1) as (o' & s' & E & Ho & Hr & Hset & Hkeep).
    { lia. }
    { lia. }
    { eapply Forall_impl; [exact Hs|]. intros b [x Hx].
      specialize (Hr1 b). rewrite Hx in Hr1.
      destruct (symtab s1 !! b); [done|discriminate]. }
    assert (∀ j b, j ≠ i → (j < length types)%nat → symbols !! j = Some b →
              b ≠ a) as Hdiff.
    { intros j b Hne Hjl Hjb ->.
      assert (take (length types) symbols !! i = Some a) as H1.
      { rewrite lookup_take_lt by lia. done. }
      assert (take (length types) symbols !! j = Some a) as H2.
      { rewrite lookup_take_lt by lia. done. }
      pose proof (NoDup_lookup _ _ _ _ Hnd H1 H2). lia. }
    exists o', s'. split; [done|]. split; [done|].
    split; [by eapply retyped_trans|].
    split.
    + intros j b Hj Hjl Hjb. destruct (decide (j = i)) as [->|Hne].
      * assert (b = a) as -> by congruence.
        unfold offset_at. rewrite (Hkeep i a); [|lia|done].
        unfold s1, set_symtab; simpl. by rewrite lookup_insert_eq.
      * apply (Hset j b); [lia|done|done].
    + intros j b Hj Hjb. rewrite (Hkeep j b); [|lia|done].
      unfold s1, set_symtab; simpl. rewrite lookup_insert_ne; [done|].
      apply not_eq_sym. apply (Hdiff j); [lia|lia|done].
Qed.

(** The offsets of the parameters after [Function::allocate]. *)
Definition parameter_offsets (f : Function) (types : Types) (s' : State)
    : Prop :=
  ∀ i a,
    (i < length types)%nat →
    Function_decls f !! i = Some a →
    offset_at s' a
    = Some (if (i <? NUM_PARAM_REGS)%nat then - sizes types (S i)
            else 2 * SIZEOF_REG
                 + PARAM_ALIGNMENT * (Z.of_nat i - Z.of_nat NUM_PARAM_REGS)).

(** C3: [Function::allocate], called with the offset [2 * SIZEOF_REG] on
    a function whose parameters are scalars, returns, and gives the
    parameter of index [i] the offset [- (size t_0 + ... + size t_i)] when
    [i < NUM_PARAM_REGS], and the offset [16 + 8 * (i - NUM_PARAM_REGS)]
    otherwise: positive, a multiple of 8, growing with [i] from 16 on. *)
Theorem Function_allocate_parameters f id params s :
  symtab s !! Function_id f = Some id →
  parameters (Symbol_type id) = Some params →
  Forall (λ t, isScalar t = true) (types params) →
  Z.of_nat (length (types params)) < 2 ^ 27 →
  (length (types params) ≤ length (Function_decls f))%nat →
  NoDup (take (length (types params)) (Function_decls f)) →
  Forall (known s) (symbols_of (Function_body f)) →
  ∃ offset' s',
    Function_allocate f (2 * SIZEOF_REG) s = Returned offset' s'
    ∧ parameter_offsets f (types params) s'.
Proof.
  intros Hid Hparams Hsc Hmax Hlen Hnd Hk.
  assert (Forall (known s) (Function_decls f)) as Hkd.
  { simpl in Hk. by apply Forall_app in Hk as [? _]. }
  assert (Forall (λ a, is_Some (symtab s !! a)) (Function_decls f)) as Hs.
  { eapply Forall_impl; [exact Hkd|]. by intros a (x & -> & _). }
  destruct (allocate_stack_parameters_spec (types params) (Function_decls f)
              Hnd Hsc Hlen Hmax (length (types params) - NUM_PARAM_REGS)
              NUM_PARAM_REGS s)
    as (o1 & s1 & E1 & Hr1 & Hset1 & Hkeep1); [lia|lia|done|].
  assert (Forall (λ a, is_Some (symtab s1 !! a)) (Function_decls f)) as Hs1.
  { eapply Forall_impl; [exact Hkd|]. intros a Ha.
    by destruct (known_retyped _ _ _ Hr1 Ha) as (x & -> & _). }
  destruct (allocate_register_parameters_spec (types params)
              (Function_decls f) Hnd Hsc Hlen NUM_PARAM_REGS 0%nat s1)
    as (o2 & s2 & E2 & Ho2 & Hr2 & Hset2 & Hkeep2); [lia|lia|done|].
  destruct (Statement_allocate_spec (Function_body f) o2 s2)
    as (o3 & s3 & E3 & Hs3).
  { eapply Forall_impl; [exact Hk|]. intros a Ha.
    eapply known_retyped; [exact Hr2|]. by eapply known_retyped. }
  exists o3, s3. split.
  { unfold Function_allocate, bind.
    rewrite (symbol_at_Some _ _ _ Hid), Hparams.
    change (2 * SIZEOF_REG) with (stack_offset NUM_PARAM_REGS).
    rewrite E1. change (sizes (types params) 0) with 0 in E2.
    change (- 0) with 0 in E2. by rewrite E2. }
  intros i a Hi Ha.
  assert (∀ o, o ≠ 0 → offset_at s2 a = Some o → offset_at s3 a = Some o)
    as Hfinal.
  { intros o Ho. unfold offset_at. specialize (Hs3 a).
    destruct (symtab s2 !! a) as [x|], (symtab s3 !! a) as [y|];
      try done.
    simpl. intros [= <-]. f_equal. by apply Hs3. }
  destruct (i <? NUM_PARAM_REGS)%nat eqn:Ei.
  - apply Nat.ltb_lt in Ei. apply Hfinal.
    + pose proof (sizes_bounds _ Hsc (S i)). lia.
    + apply (Hset2 i a); [lia|done|done].
  - apply Nat.ltb_ge in Ei. apply Hfinal.
    + unfold SIZEOF_REG, PARAM_ALIGNMENT. lia.
    + unfold offset_at. rewrite (Hkeep2 i a); [|lia|done].
      apply (Hset1 i a); [lia|done].
Qed.

(** ** Computations that keep a relation between the states

    [respects R m]: when [m] returns, the state it leaves is related by [R]
    to the state it started in, and [m] never calls [exit]. *)

Definition respects {A} (R : relation State) (m : M A) : Prop :=
  ∀ s,
    match m s with
    | Returned _ s' => R s s'
    | Exited _ _ => False
    | Aborted | OutOfFuel => True
    end.

Section Respects.
Context (R : relation State) `{!PreOrder R}.

Lemma respects_ret {A} (a : A) : respects R (ret a).
Proof. intros s. simpl. reflexivity. Qed.

Lemma respects_get : respects R get.
Proof. intros s. simpl. reflexivity. Qed.

Lemma respects_abort {A} : respects R (@abort A).
Proof. by intros s. Qed.

Lemma respects_out_of_fuel {A} : respects R (@out_of_fuel A).
Proof. by intros s. Qed.

Lemma respects_modify f : (∀ s, R s (f s)) → respects R (modify f).
Proof. intros H s. apply H. Qed.

Lemma respects_bind {A B} (m : M A) (k : A → M B) :
respects R m → (∀ a, respects R (k a)) → respects R (x <- m;; k x).
Proof.
intros Hm Hk s. unfold bind. specialize (Hm s).
destruct (m s) as [a s1| | |]; try done.
specialize (Hk a s1). destruct (k a s1); try done. by etrans.
Qed.

Lemma respects_assert b : respects R (assert_ b).
Proof. destruct b; [apply respects_ret|apply respects_abort]. Qed.

Lemma respects_when b m : respects R m → respects R (when b m).
Proof. intros H. destruct b; [done|apply respects_ret]. Qed.

Lemma respects_for_each {A} (xs : list A) body :
(∀ x, respects R (body x)) → respects R (for_each xs body).
Proof.
intros H. induction xs as [|x r IH]; simpl.
- apply respects_ret.
- apply respects_bind; [apply H|done].
Qed.

Lemma respects_for_down {A} n (body : nat → A → M A) :
(∀ i a, respects R (body i a)) → ∀ a, respects R (for_down n body a).
Proof.
intros H. induction n as [|n IH]; intros a; simpl.
- apply respects_ret.
- apply respects_bind; [apply H|done].
Qed.

Lemma respects_symbol_at a : respects R (symbol_at a).
Proof.
intros s. unfold symbol_at, bind, get. destruct (symtab s !! a); simpl; [|done].
reflexivity.
Qed.

Lemma respects_Type_size t : respects R (Type_size t).
Proof.
unfold Type_size. apply respects_bind; [apply respects_assert|].
intros _. apply respects_ret.
Qed.

End Respects.

Create HintDb respects.

(** Takes a computation apart; [leaf] proves what is asked of the
    functions given to [modify]. *)
Ltac respects_with leaf :=
  repeat
    lazymatch goal with
    | |- PreOrder _ => exact _
    | |- respects _ (ret _) => apply respects_ret
    | |- respects _ get => apply respects_get
    | |- respects _ abort => apply respects_abort
    | |- respects _ out_of_fuel => apply respects_out_of_fuel
    | |- respects _ (assert_ _) => apply respects_assert
    | |- respects _ (symbol_at _) => apply respects_symbol_at
    | |- respects _ (Type_size _) => apply respects_Type_size
    | |- respects _ (bind _ _) => apply respects_bind; [| | intros ?]
    | |- respects _ (when _ _) => apply respects_when
    | |- respects _ (for_each _ _) => apply respects_for_each; [| intros ?]
    | |- respects _ (for_down _ _ _) =>
        apply respects_for_down; [| intros ? ?]
    | |- respects _ (modify _) => apply respects_modify; intros ?; leaf
    | |- respects _ (if ?b then _ else _) => destruct b
    | |- respects _ (match ?x with _ => _ end) => destruct x
    | |- respects _ (let _ := _ in _) => cbv zeta
    | |- respects _ _ => solve [eauto with respects nocore]
    end.

(** *** The checker: it allocates nodes and reports *)

Definition advance (s s' : State) : Prop :=
  symtab s' = symtab s ∧ scopes s' = scopes s ∧ stdout s' = stdout s
  ∧ offset s' = offset s ∧ node s' = node s ∧ reg s' = reg s
  ∧ slot s' = slot s ∧ counter s' = counter s
  ∧ (next s ≤ next s')%positive ∧ (numerrors s ≤ numerrors s')%nat.

#[local] Instance advance_preorder : PreOrder advance.
Proof.
  split.
  - intros s. unfold advance. repeat split; (done || lia).
  - intros a b c H1 H2. unfold advance in *.
    destruct H1 as (?&?&?&?&?&?&?&?&?&?), H2 as (?&?&?&?&?&?&?&?&?&?).
    repeat split; (congruence || lia).
Qed.

Ltac advance_leaf := unfold advance; simpl; repeat split; (done || lia).
Ltac advances := respects_with advance_leaf.

Lemma advances_fresh : respects advance fresh.
Proof. intros s. unfold fresh, bind, get, modify, ret. advance_leaf. Qed.

Lemma advances_report msg arg : respects advance (report msg arg).
Proof. unfold report. advances. Qed.

#[local] Hint Resolve advances_fresh advances_report : respects.

Lemma advances_cast expr t : respects advance (cast expr t).
Proof. unfold cast. advances. Qed.
#[local] Hint Resolve advances_cast : respects.

Lemma advances_promote expr : respects advance (promote expr).
Proof. unfold promote. advances. Qed.
#[local] Hint Resolve advances_promote : respects.

Lemma advances_decay expr : respects advance (decay expr).
Proof. unfold decay. advances. Qed.
#[local] Hint Resolve advances_decay : respects.

Lemma advances_extend expr t : respects advance (extend expr t).
Proof. unfold extend. advances. Qed.
#[local] Hint Resolve advances_extend : respects.

Lemma advances_scale expr n : respects advance (scale expr n).
Proof. unfold scale. advances. Qed.
#[local] Hint Resolve advances_scale : respects.

Lemma advances_invalid_call msg id args : respects advance (invalid_call msg id args).
Proof. unfold invalid_call. advances. Qed.
#[local] Hint Resolve advances_invalid_call : respects.

Lemma advances_checkCall_parameters id types n :
  ∀ i args, respects advance (checkCall_parameters id types n i args).
Proof. induction n as [|n IH]; intros i args; simpl; advances. Qed.
#[local] Hint Resolve advances_checkCall_parameters : respects.

Lemma advances_checkCall_variadic fuel id :
  ∀ i args, respects advance (checkCall_variadic fuel id i args).
Proof. induction fuel as [|fuel IH]; intros i args; simpl; advances. Qed.
#[local] Hint Resolve advances_checkCall_variadic : respects.

Lemma advances_checkCall fuel id args : respects advance (checkCall fuel id args).
Proof. unfold checkCall. advances. Qed.
#[local] Hint Resolve advances_checkCall : respects.

Lemma advances_checkArray l r : respects advance (checkArray l r).
Proof. unfold checkArray. advances. Qed.
#[local] Hint Resolve advances_checkArray : respects.

Lemma advances_checkNot expr : respects advance (checkNot expr).
Proof. unfold checkNot. advances. Qed.
#[local] Hint Resolve advances_checkNot : respects.

Lemma advances_checkNegate expr : respects advance (checkNegate expr).
Proof. unfold checkNegate. advances. Qed.
#[local] Hint Resolve advances_checkNegate : respects.

Lemma advances_checkDereference expr : respects advance (checkDereference expr).
Proof. unfold checkDereference. advances. Qed.
#[local] Hint Resolve advances_checkDereference : respects.

Lemma advances_checkAddress expr : respects advance (checkAddress expr).
Proof. unfold checkAddress. advances. Qed.
#[local] Hint Resolve advances_checkAddress : respects.

Lemma advances_checkSizeof expr : respects advance (checkSizeof expr).
Proof. unfold checkSizeof. advances. Qed.
#[local] Hint Resolve advances_checkSizeof : respects.

Lemma advances_checkCast t expr : respects advance (checkCast t expr).
Proof. unfold checkCast. advances. Qed.
#[local] Hint Resolve advances_checkCast : respects.

Lemma advances_checkMultiplicative l r make :
  respects advance (checkMultiplicative l r make).
Proof. unfold checkMultiplicative. advances. Qed.
#[local] Hint Resolve advances_checkMultiplicative : respects.

Lemma advances_checkMultiply l r : respects advance (checkMultiply l r).
Proof. unfold checkMultiply. advances. Qed.
#[local] Hint Resolve advances_checkMultiply : respects.

Lemma advances_checkDivide l r : respects advance (checkDivide l r).
Proof. unfold checkDivide. advances. Qed.
#[local] Hint Resolve advances_checkDivide : respects.

Lemma advances_checkRemainder l r : respects advance (checkRemainder l r).
Proof. unfold checkRemainder. advances. Qed.
#[local] Hint Resolve advances_checkRemainder : respects.

Lemma advances_checkAdd l r : respects advance (checkAdd l r).
Proof. unfold checkAdd. advances. Qed.
#[local] Hint Resolve advances_checkAdd : respects.

Lemma advances_checkSubtract l r : respects advance (checkSubtract l r).
Proof. unfold checkSubtract. advances. Qed.
#[local] Hint Resolve advances_checkSubtract : respects.

Lemma advances_checkComparative l r make :
  respects advance (checkComparative l r make).
Proof. unfold checkComparative. advances. Qed.
#[local] Hint Resolve advances_checkComparative : respects.

Lemma advances_checkLessThan l r : respects advance (checkLessThan l r).
Proof. unfold checkLessThan. advances. Qed.
#[local] Hint Resolve advances_checkLessThan : respects.

Lemma advances_checkGreaterThan l r : respects advance (checkGreaterThan l r).
Proof. unfold checkGreaterThan. advances. Qed.
#[local] Hint Resolve advances_checkGreaterThan : respects.

Lemma advances_checkLessOrEqual l r : respects advance (checkLessOrEqual l r).
Proof. unfold checkLessOrEqual. advances. Qed.
#[local] Hint Resolve advances_checkLessOrEqual : respects.

Lemma advances_checkGreaterOrEqual l r : respects advance (checkGreaterOrEqual l r).
Proof. unfold checkGreaterOrEqual. advances. Qed.
#[local] Hint Resolve advances_checkGreaterOrEqual : respects.

Lemma advances_checkEqual l r : respects advance (checkEqual l r).
Proof. unfold checkEqual. advances. Qed.
#[local] Hint Resolve advances_checkEqual : respects.

Lemma advances_checkNotEqual l r : respects advance (checkNotEqual l r).
Proof. unfold checkNotEqual. advances. Qed.
#[local] Hint Resolve advances_checkNotEqual : respects.

Lemma advances_checkLogical l r make :
  respects advance (checkLogical l r make).
Proof. unfold checkLogical. advances. Qed.
#[local] Hint Resolve advances_checkLogical : respects.

Lemma advances_checkLogicalAnd l r : respects advance (checkLogicalAnd l r).
Proof. unfold checkLogicalAnd. advances. Qed.
#[local] Hint Resolve advances_checkLogicalAnd : respects.

Lemma advances_checkLogicalOr l r : respects advance (checkLogicalOr l r).
Proof. unfold checkLogicalOr. advances. Qed.
#[local] Hint Resolve advances_checkLogicalOr : respects.

Lemma advances_checkTest expr : respects advance (checkTest expr).
Proof. unfold checkTest. advances. Qed.
#[local] Hint Resolve advances_checkTest : respects.

Lemma advances_checkAssignment l r : respects advance (checkAssignment l r).
Proof. unfold checkAssignment. advances. Qed.
#[local] Hint Resolve advances_checkAssignment : respects.

Lemma advances_checkReturn expr t : respects advance (checkReturn expr t).
Proof. unfold checkReturn. advances. Qed.
#[local] Hint Resolve advances_checkReturn : respects.

Lemma advances_checkBreak depth : respects advance (checkBreak depth).
Proof. unfold checkBreak. advances. Qed.
#[local] Hint Resolve advances_checkBreak : respects.

(** ** Computations between two conditions on the state

    [triple E P m Q]: started in a state where [P] holds, [m] leaves a state
    where [Q] holds when it returns, and a state where [E status] holds when
    it calls [exit status]. *)

Definition triple {A} (E : Z → State → Prop) (P : State → Prop) (m : M A)
    (Q : State → Prop) : Prop :=
  ∀ s, P s →
    match m s with
    | Returned _ s' => Q s'
    | Exited status s' => E status s'
    | Aborted | OutOfFuel => True
    end.

Lemma triple_bind {A B} E P Q Q' (m : M A) (k : A → M B) :
  triple E P m Q → (∀ a, triple E Q (k a) Q') → triple E P (x <- m;; k x) Q'.
Proof.
  intros Hm Hk s Hs. unfold bind. specialize (Hm s Hs).
  destruct (m s) as [a s1| | |]; try done. by apply Hk.
Qed.

Lemma triple_pure {A} E (P : State → Prop) (m : M A) :
  (∀ s, match m s with
        | Returned _ s' => s' = s
        | Exited _ _ => False
        | _ => True
        end) →
  triple E P m P.
Proof.
  intros H s Hs. specialize (H s). destruct (m s); try done. by subst.
Qed.

Lemma triple_respects {A} E (R : relation State) (P : State → Prop)
    (m : M A) :
  (∀ s s', R s s' → P s → P s') → respects R m → triple E P m P.
Proof.
  intros HP H s Hs. specialize (H s). destruct (m s); try done. by eapply HP.
Qed.

Lemma triple_when E P b m : triple E P m P → triple E P (when b m) P.
Proof. intros H. destruct b; [done|]. by intros s Hs. Qed.

Lemma triple_for_each {A} E P (xs : list A) body :
  (∀ x, triple E P (body x) P) → triple E P (for_each xs body) P.
Proof.
  intros H. induction xs as [|x r IH]; simpl.
  - by intros s Hs.
  - eapply triple_bind; [apply H|done].
Qed.

Lemma triple_exit {A} E (P Q : State → Prop) status :
  (∀ s, P s → E status s) → triple E P (@exit A status) Q.
Proof. intros H s Hs. by apply H. Qed.

(** ** The parser

    Induction on phrases and sentences, whose constructors hold lists of
    themselves. *)

Section Phrase_induction.
Import parser.
Variable P : Phrase → Prop.
Hypothesis P_string_ : ∀ bytes, P (P_string bytes).
Hypothesis P_character_ : ∀ value, P (P_character value).
Hypothesis P_number_ : ∀ value type, P (P_number value type).
Hypothesis P_identifier_ : ∀ name, P (P_identifier name).
Hypothesis P_call_ : ∀ name args, Forall P args → P (P_call name args).
Hypothesis P_index_ : ∀ l r, P l → P r → P (P_index l r).
Hypothesis P_prefix_ : ∀ op e, P e → P (P_prefix op e).
Hypothesis P_sizeof_type_ : ∀ typespec pointers,
P (P_sizeof_type typespec pointers).
Hypothesis P_cast_ : ∀ typespec pointers e,
P e → P (P_cast typespec pointers e).
Hypothesis P_infix_ : ∀ op l r, P l → P r → P (P_infix op l r).
Hypothesis P_bad_ : ∀ lexbuf, P (P_bad lexbuf).

Fixpoint Phrase_nested_ind (p : Phrase) : P p :=
match p with
| P_string bytes => P_string_ bytes
| P_character value => P_character_ value
| P_number value type => P_number_ value type
| P_identifier name => P_identifier_ name
| P_call name args =>
    P_call_ name args
      ((fix each (l : list Phrase) : Forall P l :=
          match l with
          | [] => @List.Forall_nil _ P
          | x :: r => @List.Forall_cons _ P x r (Phrase_nested_ind x) (each r)
          end) args)
| P_index l r => P_index_ l r (Phrase_nested_ind l) (Phrase_nested_ind r)
| P_prefix op e => P_prefix_ op e (Phrase_nested_ind e)
| P_sizeof_type typespec pointers => P_sizeof_type_ typespec pointers
| P_cast typespec pointers e =>
    P_cast_ typespec pointers e (Phrase_nested_ind e)
| P_infix op l r =>
    P_infix_ op l r (Phrase_nested_ind l) (Phrase_nested_ind r)
| P_bad lexbuf => P_bad_ lexbuf
end.
End Phrase_induction.

Section Sentence_induction.
Import parser.
Variable P : Sentence → Prop.
Hypothesis P_block_ : ∀ decls stmts, Forall P stmts → P (S_block decls stmts).
Hypothesis P_break_ : P S_break.
Hypothesis P_return_ : ∀ e, P (S_return e).
Hypothesis P_while_ : ∀ e body, P body → P (S_while e body).
Hypothesis P_for_ : ∀ init e incr body, P body → P (S_for init e incr body).
Hypothesis P_if_then_ : ∀ e t, P t → P (S_if e t None).
Hypothesis P_if_else_ : ∀ e t f, P t → P f → P (S_if e t (Some f)).
Hypothesis P_assignment_ : ∀ l r, P (S_assignment l r).
Hypothesis P_sbad_ : ∀ lexbuf, P (S_bad lexbuf).

Fixpoint Sentence_nested_ind (st : Sentence) : P st :=
match st with
| S_block decls stmts =>
    P_block_ decls stmts
      ((fix each (l : list Sentence) : Forall P l :=
          match l with
          | [] => @List.Forall_nil _ P
          | x :: r =>
              @List.Forall_cons _ P x r (Sentence_nested_ind x) (each r)
          end) stmts)
| S_break => P_break_
| S_return e => P_return_ e
| S_while e body => P_while_ e body (Sentence_nested_ind body)
| S_for init e incr body =>
    P_for_ init e incr body (Sentence_nested_ind body)
| S_if e t None => P_if_then_ e t (Sentence_nested_ind t)
| S_if e t (Some f) =>
    P_if_else_ e t f (Sentence_nested_ind t) (Sentence_nested_ind f)
| S_assignment l r => P_assignment_ l r
| S_bad lexbuf => P_sbad_ lexbuf
end.
End Sentence_induction.

(** The condition kept is one of a family [J d], where [d] is the number of
    scopes that are open.  What is asked of the family is what the
    functions on scopes and symbols do with it. *)

Section Front_end.
Import parser.
Context (E : Z → State → Prop) (J : nat → State → Prop).
Hypothesis J_advance : ∀ d s s', advance s s' → J d s → J d s'.
Hypothesis J_open : ∀ d, triple E (J d) openScope (J (S d)).
Hypothesis J_close :
∀ d b, (1 ≤ d)%nat → triple E (J (S d)) (closeScope b) (J d).
Hypothesis J_declareVariable :
∀ d name t, (2 ≤ d)%nat ∨ size_assert t = true →
  triple E (J d) (declareVariable name t) (J d).
Hypothesis J_declareFunction :
∀ d name t, isFunction t = true →
  triple E (J d) (declareFunction name t) (J d).
Hypothesis J_checkIdentifier :
∀ d name, (2 ≤ d)%nat → triple E (J d) (checkIdentifier name) (J d).
Hypothesis J_error :
∀ A d lexbuf Q, triple E (J d) (@error A lexbuf) Q.
Hypothesis J_generate :
∀ f s, J 1%nat s → numerrors s = 0%nat →
  match Function_generate f s with
  | Returned _ s' => J 1%nat s'
  | Exited status s' => E status s'
  | Aborted | OutOfFuel => True
  end.

Lemma keeps_advances {A} d (m : M A) :
respects advance m → triple E (J d) m (J d).
Proof. apply (triple_respects E advance (J d)). apply J_advance. Qed.

Lemma keeps_error {A} d lexbuf Q : triple E (J d) (@error A lexbuf) Q.
Proof. apply J_error. Qed.

Ltac keeps :=
repeat
  lazymatch goal with
  | |- triple _ _ (bind _ _) _ => eapply triple_bind; [| intros ?]
  | |- triple _ _ (checkIdentifier _) _ => apply J_checkIdentifier; lia
  | |- triple _ _ (error _) _ => apply keeps_error
  | |- triple _ _ (if ?b then _ else _) _ => destruct b
  | |- triple _ _ (match ?x with _ => _ end) _ => destruct x
  | |- triple _ _ _ _ =>
      first [ eassumption
            | solve [eauto 2]
            | apply keeps_advances; solve [advances] ]
  end.

Lemma keeps_expression p :
∀ d, (2 ≤ d)%nat → triple E (J d) (expression p) (J d).
Proof.
induction p as [bytes|value|value t|name|name args IH|l r IHl IHr
               |op e IHe|typespec pointers|typespec pointers e IHe
               |op l r IHl IHr|lexbuf] using Phrase_nested_ind;
  intros d Hd; simpl.
- keeps.
- keeps.
- keeps.
- keeps.
- eapply triple_bind; [apply J_checkIdentifier; lia|]. intros symbol.
  eapply triple_bind; [|intros args'; keeps].
  induction IH as [|x r Hx Hr IHr]; [keeps|].
  eapply triple_bind; [by apply Hx|]. intros arg.
  eapply triple_bind; [apply IHr|]. intros. keeps.
- eapply triple_bind; [by apply IHl|]. intros.
  eapply triple_bind; [by apply IHr|]. intros. keeps.
- eapply triple_bind; [by apply IHe|]. intros. keeps.
- keeps.
- eapply triple_bind; [by apply IHe|]. intros. keeps.
- eapply triple_bind; [by apply IHl|]. intros.
  eapply triple_bind; [by apply IHr|]. intros. keeps.
- apply keeps_error.
Qed.

Lemma keeps_declarator d typespec x :
triple E (J d) (declarator typespec x) (J d).
Proof.
unfold declarator. destruct (declarator_length x).
- eapply triple_bind; [apply J_declareVariable; by right|intros; keeps].
- eapply triple_bind; [apply J_declareVariable; by right|intros; keeps].
Qed.

Lemma keeps_declarations d ds :
triple E (J d) (declarations ds) (J d).
Proof.
unfold declarations. apply triple_for_each. intros x.
unfold declaration. apply triple_for_each. intros y.
apply keeps_declarator.
Qed.

Lemma keeps_assignment d l r :
(2 ≤ d)%nat → triple E (J d) (assignment l r) (J d).
Proof.
intros Hd. unfold assignment.
eapply triple_bind; [by apply keeps_expression|]. intros.
destruct r; [|keeps].
eapply triple_bind; [by apply keeps_expression|]. intros. keeps.
Qed.

Lemma keeps_statement st :
∀ d, (2 ≤ d)%nat → triple E (J d) (statement st) (J d).
Proof.
induction st as [decls stmts IH| |e|e body IHb|init e incr body IHb
                |e t IHt|e t f IHt IHf|l r|lexbuf]
  using Sentence_nested_ind; intros d Hd; simpl.
- eapply triple_bind; [apply J_open|]. intros _.
  eapply triple_bind; [apply keeps_declarations|]. intros _.
  apply (triple_bind E (J (S d)) (J (S d))).
  + induction IH as [|x r Hx Hr IHr]; [keeps|].
    eapply triple_bind; [apply Hx; lia|]. intros stmt.
    eapply triple_bind; [apply IHr|]. intros. keeps.
  + intros stmts'.
    eapply triple_bind; [apply J_close; lia|]. intros. keeps.
- keeps.
- eapply triple_bind; [by apply keeps_expression|]. intros. keeps.
- eapply triple_bind; [by apply keeps_expression|]. intros.
  eapply triple_bind; [keeps|]. intros.
  eapply triple_bind; [keeps|]. intros.
  eapply triple_bind; [by apply IHb|]. intros. keeps.
- eapply triple_bind; [by apply keeps_assignment|]. intros.
  eapply triple_bind; [by apply keeps_expression|]. intros.
  eapply triple_bind; [keeps|]. intros.
  eapply triple_bind; [by apply keeps_assignment|]. intros.
  eapply triple_bind; [keeps|]. intros.
  eapply triple_bind; [by apply IHb|]. intros. keeps.
- eapply triple_bind; [by apply keeps_expression|]. intros.
  eapply triple_bind; [keeps|]. intros.
  eapply triple_bind; [by apply IHt|]. intros. keeps.
- eapply triple_bind; [by apply keeps_expression|]. intros.
  eapply triple_bind; [keeps|]. intros.
  eapply triple_bind; [by apply IHt|]. intros.
  eapply triple_bind; [by apply IHf|]. intros. keeps.
- by apply keeps_assignment.
- apply keeps_error.
Qed.

Lemma keeps_statements l :
∀ d, (2 ≤ d)%nat → triple E (J d) (statements l) (J d).
Proof.
induction l as [|x r IH]; intros d Hd; simpl; [keeps|].
eapply triple_bind; [by apply keeps_statement|]. intros.
eapply triple_bind; [by apply IH|]. intros. keeps.
Qed.

Lemma keeps_parameter d p :
(2 ≤ d)%nat → triple E (J d) (parameter p) (J d).
Proof.
intros Hd. unfold parameter.
eapply triple_bind; [apply J_declareVariable; by left|]. intros. keeps.
Qed.

Lemma keeps_parameter_list ps :
∀ d, (2 ≤ d)%nat → triple E (J d) (parameter_list ps) (J d).
Proof.
induction ps as [|x r IH]; intros d Hd; simpl; [keeps|].
eapply triple_bind; [by apply keeps_parameter|]. intros.
eapply triple_bind; [by apply IH|]. intros. keeps.
Qed.

Lemma keeps_parse_parameters d ps :
(2 ≤ d)%nat → triple E (J d) (parse_parameters ps) (J d).
Proof.
intros Hd. destruct ps as [|first rest ellipsis]; simpl; [keeps|].
eapply triple_bind; [by apply keeps_parameter|]. intros.
eapply triple_bind; [by apply keeps_parameter_list|]. intros. keeps.
Qed.

Lemma keeps_globalDeclarator typespec g :
triple E (J 1%nat) (globalDeclarator typespec g) (J 1%nat).
Proof.
destruct g as [pointers name params|pointers name n|pointers name];
  simpl.
- eapply triple_bind; [apply J_open|]. intros _.
  eapply triple_bind; [apply keeps_parse_parameters; lia|]. intros ps.
  eapply triple_bind; [by apply J_declareFunction|]. intros _.
  eapply triple_bind; [apply J_close; lia|]. intros. keeps.
- eapply triple_bind; [apply J_declareVariable; by right|]. intros. keeps.
- eapply triple_bind; [apply J_declareVariable; by right|]. intros. keeps.
Qed.

Lemma keeps_defineFunction d name t :
isFunction t = true → triple E (J d) (defineFunction name t) (J d).
Proof.
intros Ht. unfold defineFunction.
eapply triple_bind; [keeps|]. intros s.
eapply triple_bind; [keeps|]. intros _.
eapply triple_bind; [keeps|]. intros _.
by apply J_declareFunction.
Qed.

Lemma keeps_functionOrGlobal t :
triple E (J 1%nat) (functionOrGlobal t) (J 1%nat).
Proof.
destruct t as [typespec pointers name params decls stmts
              |typespec first rest|lexbuf]; simpl.
- eapply triple_bind; [apply J_open|]. intros _.
  eapply triple_bind; [apply keeps_parse_parameters; lia|]. intros ps.
  eapply triple_bind; [keeps|]. intros _.
  eapply triple_bind; [by apply keeps_defineFunction|]. intros symbol.
  eapply triple_bind; [apply keeps_declarations|]. intros _.
  eapply triple_bind; [apply keeps_statements; lia|]. intros stmts'.
  eapply triple_bind; [apply J_close; lia|]. intros scope.
  intros s Hs. unfold bind, get, when.
  case_bool_decide as Hn; [|done]. by apply J_generate.
- eapply triple_bind; [apply keeps_globalDeclarator|]. intros _.
  apply triple_for_each. intros g. apply keeps_globalDeclarator.
- apply keeps_error.
Qed.

Lemma keeps_translation_unit input :
triple E (J 1%nat) (for_each input functionOrGlobal) (J 1%nat).
Proof. apply triple_for_each. apply keeps_functionOrGlobal. Qed.

End Front_end.

(** *** While it analyses, the compiler writes nothing *)

(** Nothing is written to the standard output, and no diagnostic is taken
    back. *)
Definition hushed (s s' : State) : Prop :=
  stdout s' = stdout s ∧ (numerrors s ≤ numerrors s')%nat.

#[local] Instance hushed_preorder : PreOrder hushed.
Proof.
  split.
  - by intros s.
  - intros a b c [H1 H2] [H3 H4]. split; [congruence|lia].
Qed.

Ltac hushed_leaf := unfold hushed; simpl; split; (done || lia).
Ltac hushes := respects_with hushed_leaf.

Lemma advance_hushed s s' : advance s s' → hushed s s'.
Proof. intros (?&?&?&?&?&?&?&?&?&?). by split. Qed.

Lemma hushes_advances {A} (m : M A) : respects advance m → respects hushed m.
Proof.
  intros H s. specialize (H s). destruct (m s); try done.
  by apply advance_hushed.
Qed.

Lemma hushes_fresh : respects hushed fresh.
Proof. apply hushes_advances, advances_fresh. Qed.

Lemma hushes_report msg arg : respects hushed (report msg arg).
Proof. apply hushes_advances, advances_report. Qed.

Lemma hushes_openScope : respects hushed openScope.
Proof. unfold openScope. hushes. Qed.

Lemma hushes_closeScope b : respects hushed (closeScope b).
Proof. unfold closeScope. hushes. Qed.

Lemma hushes_new_Symbol name t : respects hushed (new_Symbol name t).
Proof. unfold new_Symbol. pose proof hushes_fresh. hushes. Qed.

Lemma hushes_insert_current a : respects hushed (insert_current a).
Proof. unfold insert_current. hushes. Qed.

Lemma hushes_insert_global a : respects hushed (insert_global a).
Proof. unfold insert_global. hushes. Qed.

Lemma hushes_declareVariable name t : respects hushed (declareVariable name t).
Proof.
  unfold declareVariable.
  pose proof hushes_new_Symbol. pose proof hushes_insert_current.
  pose proof hushes_report. hushes.
Qed.

Lemma hushes_declareFunction name t : respects hushed (declareFunction name t).
Proof.
  unfold declareFunction.
  pose proof hushes_new_Symbol. pose proof hushes_insert_global.
  pose proof hushes_report. hushes.
Qed.

Lemma hushes_checkIdentifier name : respects hushed (checkIdentifier name).
Proof.
  unfold checkIdentifier.
  pose proof hushes_new_Symbol. pose proof hushes_insert_current.
  pose proof hushes_report. hushes.
Qed.

(** The output is [out] and at least [n] diagnostics were reported. *)
Definition quiet (out : list Line) (n : nat) (s : State) : Prop :=
  stdout s = out ∧ (n ≤ numerrors s)%nat.

Lemma quiet_hushed out n s s' : hushed s s' → quiet out n s → quiet out n s'.
Proof. intros [H1 H2] [H3 H4]. split; [congruence|lia]. Qed.

Lemma functionOrGlobal_quiet out n t :
  (1 ≤ n)%nat →
  triple (λ _, quiet out n) (quiet out n) (parser.functionOrGlobal t)
    (quiet out n).
Proof.
  intros Hn.
  apply (keeps_functionOrGlobal (λ _, quiet out n) (λ _, quiet out n)).
  - intros _ s s' H. apply quiet_hushed. by apply advance_hushed.
  - intros _. eapply triple_respects; [apply quiet_hushed|].
    apply hushes_openScope.
  - intros _ b _. eapply triple_respects; [apply quiet_hushed|].
    apply hushes_closeScope.
  - intros _ name t' _. eapply triple_respects; [apply quiet_hushed|].
    apply hushes_declareVariable.
  - intros _ name t' _. eapply triple_respects; [apply quiet_hushed|].
    apply hushes_declareFunction.
  - intros _ name _. eapply triple_respects; [apply quiet_hushed|].
    apply hushes_checkIdentifier.
  - intros A _ lexbuf Q s [H1 H2].
    unfold parser.error, bind, report, modify, exit.
    destruct lexbuf; (split; simpl; [done|lia]).
  - intros f s [_ H] H0. lia.
Qed.

(** *** The globals *)

(** A symbol that is there and whose type is not the error type. *)
Definition declared (s : State) (a : Addr) : Prop :=
  ∃ sym, symtab s !! a = Some sym ∧ kind (Symbol_type sym) ≠ ERROR.

(** The line [generateGlobals] writes for a symbol. *)
Definition comm_line (s : State) (a : Addr) : list Line :=
  match symtab s !! a with
  | Some sym =>
      if isFunction (Symbol_type sym) then []
      else [Comm (Symbol_name sym) (size (Symbol_type sym))]
  | None => []
  end.

Definition comm_lines (s : State) (scope : list Addr) : list Line :=
  concat (comm_line s <$> scope).

Lemma generateGlobals_lines scope :
  ∀ s,
    Forall (declared s) scope →
    generateGlobals scope s
    = Returned tt (set_stdout (stdout s ++ comm_lines s scope) s).
Proof.
  unfold generateGlobals.
  induction scope as [|a r IH]; intros s H.
  - unfold comm_lines. simpl. rewrite app_nil_r. by destruct s.
  - apply Forall_cons in H as [(sym & Hs & Hk) Hr].
    cbn [for_each]. unfold bind at 1. unfold bind at 1.
    rewrite (symbol_at_Some _ _ _ Hs).
    unfold comm_lines. cbn [fmap list_fmap concat]. unfold comm_line at 1.
    rewrite Hs.
    destruct (isFunction (Symbol_type sym)) eqn:Ef; cbn [negb when].
    + unfold ret at 1. rewrite IH by done. done.
    + unfold bind at 1. rewrite Type_size_sized.
      2:{ unfold size_assert. unfold isFunction in Ef.
          apply bool_decide_eq_false in Ef.
          rewrite !bool_decide_eq_false_2 by done. done. }
      unfold emit, modify.
      rewrite IH.
      2:{ eapply Forall_impl; [exact Hr|]. intros b Hb. exact Hb. }
      unfold set_stdout. simpl. f_equal. f_equal.
      by rewrite <- app_assoc.
Qed.

(** ** The generator

    Induction on expressions, whose calls hold a list of expressions. *)

Section Expression_induction.
Variable P : Expression → Prop.
Hypothesis P_Number : ∀ a t value, P (Number a t value).
Hypothesis P_String : ∀ a t value, P (String_ a t value).
Hypothesis P_Identifier : ∀ a t symbol, P (Identifier a t symbol).
Hypothesis P_Call : ∀ a t id args, Forall P args → P (Call a t id args).
Hypothesis P_Not : ∀ a t e, P e → P (Not a t e).
Hypothesis P_Negate : ∀ a t e, P e → P (Negate a t e).
Hypothesis P_Address : ∀ a t e, P e → P (Address a t e).
Hypothesis P_Dereference : ∀ a t e, P e → P (Dereference a t e).
Hypothesis P_Cast : ∀ a t e, P e → P (Cast a t e).
Hypothesis P_Multiply : ∀ a t l r, P l → P r → P (Multiply a t l r).
Hypothesis P_Divide : ∀ a t l r, P l → P r → P (Divide a t l r).
Hypothesis P_Remainder : ∀ a t l r, P l → P r → P (Remainder a t l r).
Hypothesis P_Add : ∀ a t l r, P l → P r → P (Add a t l r).
Hypothesis P_Subtract : ∀ a t l r, P l → P r → P (Subtract a t l r).
Hypothesis P_LessThan : ∀ a t l r, P l → P r → P (LessThan a t l r).
Hypothesis P_GreaterThan : ∀ a t l r, P l → P r → P (GreaterThan a t l r).
Hypothesis P_LessOrEqual : ∀ a t l r, P l → P r → P (LessOrEqual a t l r).
Hypothesis P_GreaterOrEqual : ∀ a t l r, P l → P r → P (GreaterOrEqual a t l r).
Hypothesis P_Equal : ∀ a t l r, P l → P r → P (Equal a t l r).
Hypothesis P_NotEqual : ∀ a t l r, P l → P r → P (NotEqual a t l r).
Hypothesis P_LogicalAnd : ∀ a t l r, P l → P r → P (LogicalAnd a t l r).
Hypothesis P_LogicalOr : ∀ a t l r, P l → P r → P (LogicalOr a t l r).

Fixpoint Expression_nested_ind (e : Expression) : P e :=
match e with
| Number a t value => P_Number a t value
| String_ a t value => P_String a t value
| Identifier a t symbol => P_Identifier a t symbol
| Call a t id args =>
    P_Call a t id args
      ((fix each (l : list Expression) : Forall P l :=
          match l with
          | [] => @List.Forall_nil _ P
          | x :: r =>
              @List.Forall_cons _ P x r (Expression_nested_ind x) (each r)
          end) args)
| Not a t e => P_Not a t e (Expression_nested_ind e)
| Negate a t e => P_Negate a t e (Expression_nested_ind e)
| Address a t e => P_Address a t e (Expression_nested_ind e)
| Dereference a t e => P_Dereference a t e (Expression_nested_ind e)
| Cast a t e => P_Cast a t e (Expression_nested_ind e)
| Multiply a t l r =>
    P_Multiply a t l r (Expression_nested_ind l) (Expression_nested_ind r)
| Divide a t l r =>
    P_Divide a t l r (Expression_nested_ind l) (Expression_nested_ind r)
| Remainder a t l r =>
    P_Remainder a t l r (Expression_nested_ind l) (Expression_nested_ind r)
| Add a t l r =>
    P_Add a t l r (Expression_nested_ind l) (Expression_nested_ind r)
| Subtract a t l r =>
    P_Subtract a t l r (Expression_nested_ind l) (Expression_nested_ind r)
| LessThan a t l r =>
    P_LessThan a t l r (Expression_nested_ind l) (Expression_nested_ind r)
| GreaterThan a t l r =>
    P_GreaterThan a t l r (Expression_nested_ind l) (Expression_nested_ind r)
| LessOrEqual a t l r =>
    P_LessOrEqual a t l r (Expression_nested_ind l) (Expression_nested_ind r)
| GreaterOrEqual a t l r =>
    P_GreaterOrEqual a t l r (Expression_nested_ind l) (Expression_nested_ind r)
| Equal a t l r =>
    P_Equal a t l r (Expression_nested_ind l) (Expression_nested_ind r)
| NotEqual a t l r =>
    P_NotEqual a t l r (Expression_nested_ind l) (Expression_nested_ind r)
| LogicalAnd a t l r =>
    P_LogicalAnd a t l r (Expression_nested_ind l) (Expression_nested_ind r)
| LogicalOr a t l r =>
    P_LogicalOr a t l r (Expression_nested_ind l) (Expression_nested_ind r)
end.
End Expression_induction.

(** What the generator leaves alone: the scopes, the supply of addresses,
    the diagnostics, and the types of the symbols. *)
Definition backstage (s s' : State) : Prop :=
  scopes s' = scopes s ∧ next s' = next s ∧ numerrors s' = numerrors s
  ∧ stderr s' = stderr s ∧ retyped s s'.

#[local] Instance backstage_preorder : PreOrder backstage.
Proof.
  split.
  - intros s. unfold backstage. repeat split; done.
  - intros a b c (?&?&?&?&?) (?&?&?&?&?). unfold backstage.
    split; [congruence|]. split; [congruence|]. split; [congruence|].
    split; [congruence|]. by eapply retyped_trans.
Qed.

Ltac backstage_leaf := unfold backstage; simpl; repeat split; done.
Ltac stays := respects_with backstage_leaf.
Create HintDb backstage.

Lemma stays_set_Symbol_offset a o : respects backstage (set_Symbol_offset a o).
Proof.
  intros s. unfold set_Symbol_offset. unfold bind at 1.
  destruct (symtab s !! a) as [sym|] eqn:E.
  - rewrite (symbol_at_Some _ _ _ E). unfold modify, backstage. simpl.
    split; [done|]. split; [done|]. split; [done|]. split; [done|].
    by apply (set_offset_retyped a o s sym).
  - unfold symbol_at, bind, get. by rewrite E.
Qed.
#[local] Hint Resolve stays_set_Symbol_offset : respects.

Lemma stays_allocate_symbols symbols :
  ∀ offset, respects backstage (allocate_symbols symbols offset).
Proof. induction symbols as [|a r IH]; intros offset; simpl; stays. Qed.
#[local] Hint Resolve stays_allocate_symbols : respects.

Lemma stays_Statement_allocate stmt :
  ∀ offset, respects backstage (Statement_allocate stmt offset).
Proof.
  induction stmt as [e|l r|e| |e b IHb|i e c b IHi IHc IHb|e t IHt
                    |e t t' IHt IHt'|ds ss Hss] using Statement_nested_ind;
    intros offset; simpl; try solve [stays].
  apply respects_bind; [exact _|stays|]. intros o. generalize o at 2.
  induction Hss as [|x r Hx Hr IH]; intros acc; stays.
Qed.
#[local] Hint Resolve stays_Statement_allocate : respects.

Lemma stays_align_parameter fuel :
  ∀ offset, respects backstage (align_parameter fuel offset).
Proof. induction fuel as [|fuel IH]; intros offset; simpl; stays. Qed.
#[local] Hint Resolve stays_align_parameter : respects.

Lemma stays_allocate_stack_parameters types symbols n :
  ∀ i offset,
    respects backstage (allocate_stack_parameters types symbols n i offset).
Proof.
  induction n as [|n IH]; intros i offset;
    cbn [allocate_stack_parameters]; stays.
Qed.
#[local] Hint Resolve stays_allocate_stack_parameters : respects.

Lemma stays_allocate_register_parameters types symbols n :
  ∀ i offset,
    respects backstage
      (allocate_register_parameters types symbols n i offset).
Proof. induction n as [|n IH]; intros i offset; simpl; stays. Qed.
#[local] Hint Resolve stays_allocate_register_parameters : respects.

Lemma stays_Function_allocate f offset :
  respects backstage (Function_allocate f offset).
Proof. unfold Function_allocate. stays. Qed.
#[local] Hint Resolve stays_Function_allocate : respects.

Lemma stays_set_node_at r v : respects backstage (set_node_at r v).
Proof. unfold set_node_at. stays. Qed.
#[local] Hint Resolve stays_set_node_at : respects.

Lemma stays_set_reg_at a v : respects backstage (set_reg_at a v).
Proof. unfold set_reg_at. stays. Qed.
#[local] Hint Resolve stays_set_reg_at : respects.

Lemma stays_set_slot_at a v : respects backstage (set_slot_at a v).
Proof. unfold set_slot_at. stays. Qed.
#[local] Hint Resolve stays_set_slot_at : respects.

Lemma stays_emit l : respects backstage (emit l).
Proof. unfold emit. stays. Qed.
#[local] Hint Resolve stays_emit : respects.

Lemma stays_assign expr r : respects backstage (assign expr r).
Proof. unfold assign. stays. Qed.
#[local] Hint Resolve stays_assign : respects.

Lemma stays_suffix_of expr : respects backstage (suffix_of expr).
Proof. unfold suffix_of. stays. Qed.
#[local] Hint Resolve stays_suffix_of : respects.

Lemma stays_Register_operand r : respects backstage (Register_operand r).
Proof. unfold Register_operand. stays. Qed.
#[local] Hint Resolve stays_Register_operand : respects.

Lemma stays_Expression_operand expr : respects backstage (Expression_operand expr).
Proof. unfold Expression_operand. stays. Qed.
#[local] Hint Resolve stays_Expression_operand : respects.

Lemma stays_operand expr : respects backstage (operand expr).
Proof. unfold operand. stays. Qed.
#[local] Hint Resolve stays_operand : respects.

Lemma stays_load expr r : respects backstage (load expr r).
Proof. unfold load. stays. Qed.
#[local] Hint Resolve stays_load : respects.

Lemma stays_getreg  : respects backstage (getreg ).
Proof. unfold getreg. stays. Qed.
#[local] Hint Resolve stays_getreg : respects.

Lemma stays_reg_of expr : respects backstage (reg_of expr).
Proof. unfold reg_of. stays. Qed.
#[local] Hint Resolve stays_reg_of : respects.

Lemma stays_load_if_unbound expr target :
  respects backstage target → respects backstage (load_if_unbound expr target).
Proof. intros H. unfold load_if_unbound. stays. Qed.
#[local] Hint Resolve stays_load_if_unbound : respects.
#[local] Hint Extern 1 (respects _ (ret _)) =>
  apply respects_ret; exact _ : respects.

Lemma stays_sign_extend_byte_arg arg : respects backstage (sign_extend_byte_arg arg).
Proof. unfold sign_extend_byte_arg. stays. Qed.
#[local] Hint Resolve stays_sign_extend_byte_arg : respects.

Lemma stays_Call_argument args i numBytes : respects backstage (Call_argument args i numBytes).
Proof. unfold Call_argument. stays. Qed.
#[local] Hint Resolve stays_Call_argument : respects.

Lemma stays_Call_emit this id args : respects backstage (Call_emit this id args).
Proof. unfold Call_emit. stays. Qed.
#[local] Hint Resolve stays_Call_emit : respects.

Lemma stays_arithmetic_emit opcode this l r : respects backstage (arithmetic_emit opcode this l r).
Proof. unfold arithmetic_emit. stays. Qed.
#[local] Hint Resolve stays_arithmetic_emit : respects.

Lemma stays_division_operands l r : respects backstage (division_operands l r).
Proof. unfold division_operands. stays. Qed.
#[local] Hint Resolve stays_division_operands : respects.

Lemma stays_division_emit result this l r : respects backstage (division_emit result this l r).
Proof. unfold division_emit. stays. Qed.
#[local] Hint Resolve stays_division_emit : respects.

Lemma stays_comparison_result setcc this l : respects backstage (comparison_result setcc this l).
Proof. unfold comparison_result. stays. Qed.
#[local] Hint Resolve stays_comparison_result : respects.

Lemma stays_comparison_emit setcc this l r : respects backstage (comparison_emit setcc this l r).
Proof. unfold comparison_emit. stays. Qed.
#[local] Hint Resolve stays_comparison_emit : respects.

Lemma stays_Not_emit this expr : respects backstage (Not_emit this expr).
Proof. unfold Not_emit. stays. Qed.
#[local] Hint Resolve stays_Not_emit : respects.

Lemma stays_Negate_emit this expr : respects backstage (Negate_emit this expr).
Proof. unfold Negate_emit. stays. Qed.
#[local] Hint Resolve stays_Negate_emit : respects.

Lemma stays_generate_pointer e :
  respects backstage (generate e)
  ∧ match e with
    | Dereference _ _ pointer => respects backstage (generate pointer)
    | _ => True
    end.
Proof.
  induction e as [a t value|a t value|a t symbol|a t id args IH
                 |a t e IHe|a t e IHe|a t e IHe|a t e IHe|a t e IHe
                 |a t l r IHl IHr|a t l r IHl IHr|a t l r IHl IHr
                 |a t l r IHl IHr|a t l r IHl IHr|a t l r IHl IHr
                 |a t l r IHl IHr|a t l r IHl IHr|a t l r IHl IHr
                 |a t l r IHl IHr|a t l r IHl IHr|a t l r IHl IHr
                 |a t l r IHl IHr] using Expression_nested_ind;
    try destruct IHe as [IHe IHp]; try destruct IHl as [IHl _];
    try destruct IHr as [IHr _];
    (split; [|try done]); cbn [generate]; try solve [stays].
  - apply respects_bind; [exact _| |intros; stays].
    induction IH as [|x r [Hx _] Hr IH]; stays.
Qed.

Lemma stays_generate e : respects backstage (generate e).
Proof. apply stays_generate_pointer. Qed.
#[local] Hint Resolve stays_generate : respects.

Lemma stays_new_Label  : respects backstage (new_Label ).
Proof. unfold new_Label. stays. Qed.
#[local] Hint Resolve stays_new_Label : respects.

Lemma stays_test this label ifTrue : respects backstage (test this label ifTrue).
Proof. unfold test. stays. Qed.
#[local] Hint Resolve stays_test : respects.

Lemma stays_Assignment_generate l r : respects backstage (Assignment_generate l r).
Proof. unfold Assignment_generate. stays. Qed.
#[local] Hint Resolve stays_Assignment_generate : respects.

Lemma stays_Statement_generate stmt :
  respects backstage (Statement_generate stmt).
Proof.
  induction stmt as [e|l r|e| |e b IHb|i e c b IHi IHc IHb|e t IHt
                    |e t t' IHt IHt'|ds ss Hss] using Statement_nested_ind;
    cbn [Statement_generate]; try solve [stays].
  induction Hss as [|x r Hx Hr IH]; stays.
Qed.
#[local] Hint Resolve stays_Statement_generate : respects.

Lemma stays_spill_parameters types symbols n :
  ∀ i, respects backstage (spill_parameters types symbols n i).
Proof. induction n as [|n IH]; intros i; simpl; stays. Qed.
#[local] Hint Resolve stays_spill_parameters : respects.

Lemma stays_Function_generate f : respects backstage (Function_generate f).
Proof. unfold Function_generate. stays. Qed.
#[local] Hint Resolve stays_Function_generate : respects.

(** ** The scopes while the translation unit is read *)

(** [d] scopes are open; no symbol is in two of them or twice in one; the
    symbols in them were allocated before [next]; the symbols of the
    outermost scope are there, and none has the error type. *)
Definition scoped (d : nat) (s : State) : Prop :=
  length (scopes s) = d
  ∧ NoDup (concat (scopes s))
  ∧ (∀ a, a ∈ concat (scopes s) → (a < next s)%positive)
  ∧ (∀ global, last (scopes s) = Some global → Forall (declared s) global).

Lemma scoped_advance d s s' : advance s s' → scoped d s → scoped d s'.
Proof.
  intros (Hsym & Hsc & _ & _ & _ & _ & _ & _ & Hn & _) (H1 & H2 & H3 & H4).
  unfold scoped. rewrite Hsc.
  split; [done|]. split; [done|]. split.
  - intros a Ha. specialize (H3 a Ha). lia.
  - intros global Hg. specialize (H4 global Hg).
    eapply Forall_impl; [exact H4|]. intros a (sym & Hs & Hk).
    exists sym. by rewrite Hsym.
Qed.

Lemma scoped_backstage d s s' : backstage s s' → scoped d s → scoped d s'.
Proof.
  intros (Hsc & Hn & _ & _ & Hr) (H1 & H2 & H3 & H4).
  unfold scoped. rewrite Hsc, Hn.
  split; [done|]. split; [done|]. split; [done|].
  intros global Hg. specialize (H4 global Hg).
  eapply Forall_impl; [exact H4|]. intros a (sym & Hs & Hk).
  specialize (Hr a). rewrite Hs in Hr.
  destruct (symtab s' !! a) as [y|] eqn:Ey; [|done].
  exists y. split; [done|]. simpl in Hr. congruence.
Qed.

Lemma elem_of_concat_of {A} (x : A) (l : list A) (ls : list (list A)) :
  l ∈ ls → x ∈ l → x ∈ concat ls.
Proof.
  induction ls as [|y r IH]; [by intros ?%elem_of_nil|].
  intros [->|Hl]%elem_of_cons Hx; simpl; apply elem_of_app.
  - by left.
  - right. by apply IH.
Qed.

Lemma openScope_scoped E d : triple E (scoped d) openScope (scoped (S d)).
Proof.
  intros s (H1 & H2 & H3 & H4). unfold openScope, modify, scoped. simpl.
  split; [by rewrite H1|]. split; [done|]. split; [done|].
  intros global Hg. destruct (scopes s) as [|x r] eqn:Es.
  - injection Hg as <-. constructor.
  - apply H4. exact Hg.
Qed.

Lemma declared_delete s old a :
  a ∉ old → declared s a →
  declared (set_symtab (foldr (λ a Σ, delete a Σ) (symtab s) old) s) a.
Proof.
  intros Ha (sym & Hs & Hk). exists sym. split; [|done]. simpl.
  induction old as [|b r IH]; [done|]. simpl.
  apply not_elem_of_cons in Ha as [Hne Hr].
  rewrite lookup_delete_ne by done. by apply IH.
Qed.

Lemma closeScope_scoped E d b :
  (1 ≤ d)%nat → triple E (scoped (S d)) (closeScope b) (scoped d).
Proof.
  intros Hd s (H1 & H2 & H3 & H4). unfold closeScope, bind, get.
  destruct (scopes s) as [|old enclosing] eqn:Es; [done|].
  simpl in H1, H2, H3.
  assert (enclosing ≠ []) as Hne by (intros ->; simpl in H1; lia).
  assert (last (old :: enclosing) = last enclosing) as Hlast.
  { destruct enclosing; [done|]. done. }
  apply NoDup_app in H2 as (Hold & Hdisj & Henc).
  destruct b; unfold modify, ret; cbn [negb]; unfold scoped; simpl.
  - split; [lia|]. split; [done|]. split.
    { intros a Ha. apply H3. apply elem_of_app. by right. }
    intros global Hg. rewrite <- Hlast in Hg. specialize (H4 global Hg).
    apply Forall_forall. intros a Ha. rewrite Forall_forall in H4.
    apply (declared_delete (set_scopes enclosing s)).
    2:{ destruct (H4 a Ha) as (x & Hx & Hk). by exists x. }
    intros Hin. apply (Hdisj a Hin).
    apply (elem_of_concat_of a global); [|done].
    rewrite Hlast in Hg. by apply last_Some_elem_of.
  - split; [lia|]. split; [done|]. split.
    { intros a Ha. apply H3. apply elem_of_app. by right. }
    intros global Hg. rewrite <- Hlast in Hg. by apply H4.
Qed.

(** The state after a new symbol was put into the current scope. *)
Definition with_symbol (name : string) (t : Type_)
    (current : list Addr) (enclosing : list (list Addr)) (s : State)
    : State :=
  set_scopes ((current ++ [next s]) :: enclosing)
    (set_symtab (<[next s := mkSymbol name t 0]> (symtab s))
       (set_next (Pos.succ (next s)) s)).

Lemma new_in_current name t current enclosing s :
  scopes s = current :: enclosing →
  (symbol <- new_Symbol name t;; insert_current symbol;; ret symbol) s
  = Returned (next s) (with_symbol name t current enclosing s).
Proof.
  intros Es. unfold new_Symbol, insert_current, fresh, bind, get, modify, ret.
  simpl. rewrite Es. done.
Qed.

Lemma declared_insert s a b sym (f : State → State) :
  b ≠ a →
  (∀ s, symtab (f s) = symtab s) →
  declared s b →
  declared (f (set_symtab (<[a := sym]> (symtab s)) s)) b.
Proof.
  intros Hne Hf (x & Hx & Hk). exists x. split; [|done].
  rewrite Hf. simpl. by rewrite lookup_insert_ne.
Qed.

Lemma with_symbol_scoped d name t current enclosing s :
  scopes s = current :: enclosing →
  enclosing ≠ [] ∨ kind t ≠ ERROR →
  scoped d s → scoped d (with_symbol name t current enclosing s).
Proof.
  intros Es Ht (H1 & H2 & H3 & H4). rewrite Es in *.
  assert (next s ∉ concat (current :: enclosing)) as Hfresh.
  { intros Hin. specialize (H3 _ Hin). lia. }
  unfold scoped, with_symbol. simpl in *.
  split; [done|]. split.
  { rewrite <- app_assoc. apply NoDup_app in H2 as (Hc & Hd & He).
    apply NoDup_app. split; [done|]. split.
    - intros a Ha [->|Hin]%elem_of_cons.
      + apply Hfresh. apply elem_of_app. by left.
      + by apply (Hd a).
    - simpl. apply NoDup_cons. split; [|done].
      intros Hin. apply Hfresh. apply elem_of_app. by right. }
  split.
  { intros a Ha. rewrite <- app_assoc in Ha. simpl in Ha.
    apply elem_of_app in Ha as [Ha|[->|Ha]%elem_of_cons]; [| lia |].
    - assert (a < next s)%positive; [|lia].
      apply H3. apply elem_of_app. by left.
    - assert (a < next s)%positive; [|lia].
      apply H3. apply elem_of_app. by right. }
  intros global Hg.
  assert (∀ b, b ∈ concat (current :: enclosing) →
            declared s b →
            declared
              (set_scopes ((current ++ [next s]) :: enclosing)
                 (set_symtab
                    (<[next s := mkSymbol name t 0]> (symtab s))
                    (set_next (Pos.succ (next s)) s))) b) as Hkeep.
  { intros b Hb (x & Hx & Hk). exists x. split; [|done]. simpl.
    rewrite lookup_insert_ne; [done|]. intros <-. by apply Hfresh. }
  destruct enclosing as [|e r].
  - simpl in Hg. injection Hg as <-.
    apply Forall_app. split.
    + specialize (H4 current eq_refl). apply Forall_forall.
      intros b Hb. rewrite Forall_forall in H4. apply Hkeep; [|by apply H4].
      simpl. rewrite app_nil_r. done.
    + apply Forall_singleton. exists (mkSymbol name t 0). simpl.
      rewrite lookup_insert_eq. split; [done|]. by destruct Ht.
  - change (last ((current ++ [next s]) :: e :: r)) with (last (e :: r)) in Hg.
    specialize (H4 global Hg). apply Forall_forall. intros b Hb.
    rewrite Forall_forall in H4. apply Hkeep; [|by apply H4].
    simpl. apply elem_of_app. right.
    apply (elem_of_concat_of b global (e :: r)); [|done].
    by apply last_Some_elem_of.
Qed.

Lemma size_assert_kind t : size_assert t = true → kind t ≠ ERROR.
Proof. by destruct t. Qed.

Lemma isFunction_kind t : isFunction t = true → kind t ≠ ERROR.
Proof. by destruct t. Qed.

Lemma declareVariable_scoped E d name t :
  (2 ≤ d)%nat ∨ size_assert t = true →
  triple E (scoped d) (declareVariable name t) (scoped d).
Proof.
  intros Ht s Hs. unfold declareVariable. unfold bind at 1, get.
  destruct (scopes s) as [|current enclosing] eqn:Es; [done|].
  destruct (Scope_find (symtab s) name current) as [symbol|].
  - match goal with |- match ?m s with _ => _ end =>
      assert (respects advance m) as H by advances; specialize (H s);
      destruct (m s); try done
    end.
    by eapply scoped_advance.
  - rewrite (new_in_current _ _ _ _ _ Es).
    apply with_symbol_scoped; [done| |done].
    destruct Ht as [Hd|Ht]; [left|right; by apply size_assert_kind].
    destruct Hs as (H1 & _). rewrite Es in H1. simpl in H1.
    intros ->. simpl in H1. lia.
Qed.

Lemma checkIdentifier_scoped E d name :
  (2 ≤ d)%nat → triple E (scoped d) (checkIdentifier name) (scoped d).
Proof.
  intros Hd s Hs. unfold checkIdentifier. unfold bind at 1, get.
  destruct (Scope_lookup (symtab s) name (scopes s)); [done|].
  unfold bind at 1, report, modify. cbv beta iota.
  set (s1 := set_numerrors _ _).
  assert (scoped d s1) as Hs1.
  { apply (scoped_advance d s); [|done]. unfold s1. advance_leaf. }
  destruct (scopes s1) as [|current enclosing] eqn:Es.
  { destruct Hs1 as (H1 & _). rewrite Es in H1. simpl in H1. lia. }
  cbv beta iota. rewrite (new_in_current _ _ _ _ _ Es).
  apply with_symbol_scoped; [done| |done].
  left. destruct Hs1 as (H1 & _). rewrite Es in H1. simpl in H1.
  intros ->. simpl in H1. lia.
Qed.

(** The state after a new symbol was put into the outermost scope. *)
Definition with_global (name : string) (t : Type_)
    (global : list Addr) (inner : list (list Addr)) (s : State) : State :=
  set_scopes (reverse ((global ++ [next s]) :: inner))
    (set_symtab (<[next s := mkSymbol name t 0]> (symtab s))
       (set_next (Pos.succ (next s)) s)).

Lemma new_in_global name t global inner s :
  reverse (scopes s) = global :: inner →
  (symbol <- new_Symbol name t;; insert_global symbol;; ret symbol) s
  = Returned (next s) (with_global name t global inner s).
Proof.
  intros Es. unfold new_Symbol, insert_global, fresh, bind, get, modify, ret.
  simpl. rewrite Es. done.
Qed.

Lemma concat_snoc {A} (ls : list (list A)) (l : list A) :
  concat (ls ++ [l]) = concat ls ++ l.
Proof. rewrite concat_app. simpl. by rewrite app_nil_r. Qed.

Lemma with_global_scoped d name t global inner s :
  reverse (scopes s) = global :: inner →
  kind t ≠ ERROR →
  scoped d s → scoped d (with_global name t global inner s).
Proof.
  intros Es Ht (H1 & H2 & H3 & H4).
  assert (scopes s = reverse inner ++ [global]) as Esc.
  { rewrite <- (reverse_involutive (scopes s)), Es. by rewrite reverse_cons. }
  rewrite Esc in *.
  assert (next s ∉ concat (reverse inner ++ [global])) as Hfresh.
  { intros Hin. specialize (H3 _ Hin). lia. }
  unfold scoped, with_global. simpl. rewrite reverse_cons.
  rewrite !concat_snoc in *. rewrite !length_app in *. simpl in *.
  split; [done|]. split.
  { rewrite app_assoc. apply NoDup_app. split; [done|]. split.
    - intros a Ha [->|Hin%elem_of_nil]%elem_of_cons; done.
    - apply NoDup_singleton. }
  split.
  { intros a Ha. rewrite app_assoc in Ha.
    apply elem_of_app in Ha as [Ha|[->|Ha%elem_of_nil]%elem_of_cons];
      [|lia|done].
    specialize (H3 a Ha). lia. }
  intros g Hg. rewrite last_snoc in Hg. injection Hg as <-.
  specialize (H4 global). rewrite last_snoc in H4. specialize (H4 eq_refl).
  apply Forall_app. split.
  - apply Forall_forall. intros b Hb. rewrite Forall_forall in H4.
    destruct (H4 b Hb) as (x & Hx & Hk). exists x. split; [|done]. simpl.
    rewrite lookup_insert_ne; [done|]. intros <-. apply Hfresh.
    apply elem_of_app. by right.
  - apply Forall_singleton. exists (mkSymbol name t 0). simpl.
    by rewrite lookup_insert_eq.
Qed.

Lemma declareFunction_scoped E d name t :
  isFunction t = true →
  triple E (scoped d) (declareFunction name t) (scoped d).
Proof.
  intros Ht s Hs. unfold declareFunction. unfold bind at 1, get.
  destruct (reverse (scopes s)) as [|global inner] eqn:Es; [done|].
  destruct (Scope_find (symtab s) name global) as [symbol|].
  - match goal with |- match ?m s with _ => _ end =>
      assert (respects advance m) as H by advances; specialize (H s);
      destruct (m s); try done
    end.
    by eapply scoped_advance.
  - rewrite (new_in_global _ _ _ _ _ Es).
    apply with_global_scoped; [done| |done]. by apply isFunction_kind.
Qed.

(** The exit of [error]: the status is [EXIT_FAILURE], and the last
    diagnostic written is that of the syntax error. *)
Definition syntax_error_exit (status : Z) (s : State) : Prop :=
  status = parser.EXIT_FAILURE
  ∧ ∃ before lexbuf,
      stderr s
      = before ++ [match lexbuf with
                   | None => ("syntax error at end of file", "")
                   | Some lexbuf => ("syntax error at '%s'", lexbuf)
                   end].

Lemma error_exits {A} lexbuf s :
  ∃ s', @parser.error A lexbuf s = Exited parser.EXIT_FAILURE s'
        ∧ syntax_error_exit parser.EXIT_FAILURE s'
        ∧ numerrors s' = S (numerrors s)
        ∧ stdout s' = stdout s.
Proof.
  unfold parser.error, bind, report, modify, exit.
  destruct lexbuf as [l|]; eexists; (split; [reflexivity|]);
    (split; [|done]); (split; [done|]).
  - by exists (stderr s), (Some l).
  - by exists (stderr s), None.
Qed.

Lemma translation_unit_scoped input :
  triple syntax_error_exit (scoped 1)
    (for_each input parser.functionOrGlobal) (scoped 1).
Proof.
  apply (keeps_translation_unit syntax_error_exit scoped).
  - intros d s s'. apply scoped_advance.
  - intros d. apply openScope_scoped.
  - intros d b. apply closeScope_scoped.
  - intros d name t. apply declareVariable_scoped.
  - intros d name t. apply declareFunction_scoped.
  - intros d name. apply checkIdentifier_scoped.
  - intros A d lexbuf Q s _.
    destruct (@error_exits A lexbuf s) as (s' & -> & H & _). exact H.
  - intros f s Hs _. pose proof (stays_Function_generate f s) as H.
    destruct (Function_generate f s); try done.
    by eapply scoped_backstage.
Qed.

(** What [main] does once the loop over the input has returned in [s1]. *)
Lemma main_at_end_of_input input s s1 :
  scopes s = [] →
  for_each input parser.functionOrGlobal (set_scopes [[]] s) = Returned tt s1 →
  ∃ global,
    scopes s1 = [global]
    ∧ parser.main input s
      = Exited parser.EXIT_SUCCESS
          (set_stdout (stdout s1 ++ comm_lines s1 global) (set_scopes [] s1)).
Proof.
  intros Hs Hloop.
  assert (scoped 1 (set_scopes [[]] s)) as H0.
  { unfold scoped. simpl. split; [done|]. split; [constructor|].
    split; [by intros a ?%elem_of_nil|]. intros g [= <-]. constructor. }
  pose proof (translation_unit_scoped input _ H0) as H. rewrite Hloop in H.
  destruct H as (H1 & H2 & H3 & H4).
  destruct (scopes s1) as [|global [|x r]] eqn:Es; try done.
  exists global. split; [done|].
  unfold parser.main, bind, openScope, modify. rewrite Hs, Hloop.
  unfold closeScope, bind, get, modify, ret. rewrite Es. cbn [negb].
  rewrite generateGlobals_lines.
  - done.
  - specialize (H4 global eq_refl). eapply Forall_impl; [exact H4|].
    intros a (x & Hx & Hk). by exists x.
Qed.

Lemma main_outcome input s :
  scopes s = [] →
  match parser.main input s with
  | Exited status s' =>
      status = parser.EXIT_SUCCESS ∨ syntax_error_exit status s'
  | Returned _ _ => False
  | Aborted | OutOfFuel => True
  end.
Proof.
  intros Hs.
  destruct (for_each input parser.functionOrGlobal (set_scopes [[]] s))
    as [[] s1|status s1| |] eqn:Hloop.
  - destruct (main_at_end_of_input input s s1 Hs Hloop) as (g & _ & ->).
    by left.
  - assert (scoped 1 (set_scopes [[]] s)) as H0.
    { unfold scoped. simpl. split; [done|]. split; [constructor|].
      split; [by intros a ?%elem_of_nil|]. intros g [= <-]. constructor. }
    pose proof (translation_unit_scoped input _ H0) as H. rewrite Hloop in H.
    unfold parser.main, bind, openScope, modify. rewrite Hs, Hloop. by right.
  - unfold parser.main, bind, openScope, modify. by rewrite Hs, Hloop.
  - unfold parser.main, bind, openScope, modify. by rewrite Hs, Hloop.
Qed.

(** ** Examples *)

(** [int f(int)] *)
Definition int_f : Symbol :=
  mkSymbol "f" (TFunction INT 0 false [TScalar INT 0]) 0.

(** The state in which [f], at address 9, is the one symbol. *)
Definition state_f : State := set_symtab (<[9%positive := int_f]> ∅) initial.

(** An identifier that was not declared: its type is the error type. *)
Definition undeclared_y : Expression := Identifier 5 error 7.



(** Two pointers to [long], and the number 2. *)
Definition pointer_p : Expression := Identifier 1 (TScalar LONG 1) 7.
Definition pointer_q : Expression := Identifier 2 (TScalar LONG 1) 8.
Definition number_2 : Expression := Number 3 integer 2.


(** [int f(int x, int y, int z, int w, int u, int v, int k) { }]: the
    function symbol is at address 1, those of the parameters at 2 to 8. *)
Definition seven_ints : Types := replicate 7 (TScalar INT 0).

Definition seven_parameters : Function := mkFunction 1 [2; 3; 4; 5; 6; 7; 8]%positive [].

Definition state_seven : State :=
  set_symtab
    (list_to_map
       [(1%positive, mkSymbol "f" (TFunction INT 0 false seven_ints) 0);
        (2%positive, mkSymbol "x" integer 0);
        (3%positive, mkSymbol "y" integer 0);
        (4%positive, mkSymbol "z" integer 0);
        (5%positive, mkSymbol "w" integer 0);
        (6%positive, mkSymbol "u" integer 0);
        (7%positive, mkSymbol "v" integer 0);
        (8%positive, mkSymbol "k" integer 0)])
    initial.

Lemma Function_allocate_parameters_witness :
  (∃ offset' s',
     Function_allocate seven_parameters (2 * SIZEOF_REG) state_seven
     = Returned offset' s'
     ∧ parameter_offsets seven_parameters seven_ints s')
  ∧ ∃ offset' s',
      Function_allocate seven_parameters (2 * SIZEOF_REG) state_seven
      = Returned offset' s'
      ∧ offset_at s' <$> Function_decls seven_parameters
        = Some <$> [-4; -8; -12; -16; -20; -24; 16].
Proof.
  split.
  - apply (Function_allocate_parameters seven_parameters
             (mkSymbol "f" (TFunction INT 0 false seven_ints) 0)
             (mkParameters false seven_ints) state_seven).
    + reflexivity.
    + reflexivity.
    + repeat constructor.
    + reflexivity.
    + simpl. lia.
    + apply (bool_decide_unpack _). vm_compute. exact I.
    + repeat constructor; eexists; split; reflexivity.
  - eexists _, _. split; vm_compute; reflexivity.
Defined.

(** What [load(e, r)] does when [r] does not hold [e]: [spill] is what it
    writes for the node it finds in [r], [fill] what it writes for [e]. *)
Definition spills_and_loads (e : option Expression) (r : Register)
    (s : State) : Prop :=
  ∃ s' spill fill,
    load e r s = Returned tt s'
    ∧ stdout s' = stdout s ++ spill ++ fill
    ∧ match node s r with
      | Some n =>
          spill = [Ins ("mov" +:+ suffix (size (type_of n)))
                     [Rg (Register_name r (size (type_of n)));
                      Frame (offset s')]]
          ∧ offset s' = to_int (offset s - Z.of_N (size (type_of n)))
          ∧ slot s' !! addr_of n = Some (offset s')
          ∧ (INT_MIN ≤ offset s - Z.of_N (size (type_of n)) →
             offset s ≤ 0 → (0 < size (type_of n))%N →
             offset s' < offset s ∧ offset s' < 0)
      | None => spill = [] ∧ offset s' = offset s ∧ slot s' = slot s
      end
    ∧ match e with
      | Some x =>
          ∃ o, written s x = Some o
               ∧ fill = [Ins ("mov" +:+ suffix (size (type_of x)))
                           [o; Rg (Register_name r (size (type_of x)))]]
      | None => fill = []
      end
    ∧ node s' r = e
    ∧ (∀ x, e = Some x → reg s' !! addr_of x = Some r).


(** The register [%rax] holds a node of type [int]; [x] is a local
    variable at offset -4. *)
Definition held_node : Expression := Number 10 integer 5.
Definition local_x : Expression := Identifier 11 integer 7.

Definition state_held : State :=
  set_node (λ q, if decide (q = rax) then Some held_node else None)
    (set_reg (<[10%positive := rax]> ∅)
       (set_symtab (<[7%positive := mkSymbol "x" integer (-4)]> ∅)
          (set_offset (-4) initial))).


(** [x < y] with all registers free. *)
Definition less_x : Expression := Identifier 21 integer 7.
Definition less_y : Expression := Identifier 22 integer 8.
Definition less_than : Expression := LessThan 20 integer less_x less_y.

Lemma comparison_result_registers_witness :
  ∃ s', comparison_result "setl" less_than less_x initial = Returned tt s'
    ∧ stdout s'
      = stdout initial ++
        [Ins "setl" [Rg (byte rdi)];
         Ins ("movzb" +:+ tab +:+ suffix (size (type_of less_x)))
           [Rg (byte rdi); Rg (Register_name rax (size (type_of less_than)))]]
    ∧ reg s' !! addr_of less_than = Some rax
    ∧ node s' rax = Some less_than
    ∧ rdi ≠ rax
    ∧ node s' rdi = None.
Proof.
  apply (comparison_result_registers "setl" less_than less_x initial rax rdi);
    reflexivity.
Defined.

(** [f(1, 2, 3, 4, 5, 6, 7)] with arguments of type [long], [f] at
    address 9. *)
Definition seven_arguments : Expressions :=
  [Number 31 longint 1; Number 32 longint 2; Number 33 longint 3;
   Number 34 longint 4; Number 35 longint 5; Number 36 longint 6;
   Number 37 longint 7].

Definition long_f : Symbol :=
  mkSymbol "f" (TFunction INT 0 false (replicate 7 longint)) 0.

Definition state_long_f : State :=
  set_symtab (<[9%positive := long_f]> ∅) initial.

Definition call_seven : Expression := Call 30 integer 9 seven_arguments.

Lemma Call_emit_stack_witness :
  Call_stack_outcome call_seven 9 seven_arguments state_long_f
  ∧ ∃ s', Call_emit call_seven 9 seven_arguments state_long_f
          = Returned tt s'
          ∧ filter (λ l, rsp_sub l ≠ 0 ∨ rsp_add l ≠ 0) (stdout s')
            = [Ins "subq" [Imm 8; Rg "%rsp"]; Ins "pushq" [Rg "%rax"];
               Ins "addq" [Imm 16; Rg "%rsp"]].
Proof.
  split.
  - apply (Call_emit_stack call_seven 9%positive long_f seven_arguments
             (-1000) state_long_f).
    + simpl. unfold NUM_PARAM_REGS. lia.
    + simpl. lia.
    + unfold INT_MIN. simpl. lia.
    + split; [split; [intros a r H; done|intros r n H; done]|].
      split; [intros r n H; done|]. simpl. lia.
    + repeat (apply Forall_cons; split;
              [split; [reflexivity|split; [exact I|right; by eexists]]|]).
      constructor.
    + apply (bool_decide_unpack _). vm_compute. exact I.
    + reflexivity.
    + reflexivity.
  - eexists. split; vm_compute; reflexivity.
Defined.

(** Four local variables of type [int], and the quotients [a / x] and
    [(a + x) / (y + z)]. *)
Definition state_locals : State :=
  set_offset (-16)
    (set_symtab
       (list_to_map
          [(1%positive, mkSymbol "a" integer (-4));
           (2%positive, mkSymbol "x" integer (-8));
           (3%positive, mkSymbol "y" integer (-12));
           (4%positive, mkSymbol "z" integer (-16))])
       initial).

Definition local_a : Expression := Identifier 41 integer 1.
Definition local_x' : Expression := Identifier 42 integer 2.
Definition local_y : Expression := Identifier 43 integer 3.
Definition local_z : Expression := Identifier 44 integer 4.

Definition quotient : Expression := Divide 40 integer local_a local_x'.

Definition quotient_of_sums : Expression :=
  Divide 50 integer (Add 51 integer local_a local_x')
    (Add 52 integer local_y local_z).



(** [int f(void) { x; } int g;]: [x] is not declared. *)
Definition undeclared_then_global : list parser.Toplevel :=
  [parser.T_definition INT 0 "f" parser.Void []
     [parser.S_assignment (parser.P_identifier "x") None];
   parser.T_declaration INT (parser.G_scalar 0 "g") []].



(** C9: [operator==] on types is an equivalence relation, and two types
    that are equal and have a size have the same size. *)
Theorem Type_eq_equivalence :
  (∀ t, Type_eq t t = true)
  ∧ (∀ t u, Type_eq t u = true → Type_eq u t = true)
  ∧ (∀ t u v, Type_eq t u = true → Type_eq u v = true → Type_eq t v = true)
  ∧ (∀ t u, Type_eq t u = true → size_assert t = true →
       size_assert u = true ∧ size t = size u).
Proof.
  split; [apply Type_eq_refl|]. split; [|split].
  - intros t u ->%Type_eq_spec. apply Type_eq_refl.
  - intros t u v ->%Type_eq_spec H. exact H.
  - by intros t u ->%Type_eq_spec H.
Qed.

(** The ways [main] ends on [input] from the state [s]. *)
Definition exit_discipline (input : list parser.Toplevel) (s : State)
    : Prop :=
  match parser.main input s with
  | Exited status s' =>
      status = parser.EXIT_SUCCESS ∨ syntax_error_exit status s'
  | Returned _ _ => False
  | Aborted | OutOfFuel => True
  end
  ∧ (∀ s1,
       for_each input parser.functionOrGlobal (set_scopes [[]] s)
       = Returned tt s1 →
       ∃ s', parser.main input s = Exited parser.EXIT_SUCCESS s'
             ∧ numerrors s' = numerrors s1)
  ∧ (∀ status s1,
       for_each input parser.functionOrGlobal (set_scopes [[]] s)
       = Exited status s1 →
       parser.main input s = Exited status s1
       ∧ syntax_error_exit status s1).



(** * Further properties *)

(** ** Types *)

(** [operator ==] holds exactly of two types that are built alike, and
    [operator !=] of the others. *)
Theorem Type_eq_decides (t u : Type_) :
  (Type_eq t u = true ↔ t = u) ∧ (Type_ne t u = true ↔ t ≠ u).
Proof.
  split; [apply Type_eq_spec|].
  unfold Type_ne. rewrite negb_true_iff. split.
  - intros E ->. by rewrite Type_eq_refl in E.
  - intros H. by apply Type_eq_false.
Qed.

(** Two types are compatible in one order when they are in the other;
    compatible types are scalars; two numeric types are compatible; a
    pointer type is compatible with itself only. *)
Theorem isCompatibleWith_symmetric (t u : Type_) :
  isCompatibleWith t u = isCompatibleWith u t
  ∧ (isCompatibleWith t u = true → isScalar t = true ∧ isScalar u = true)
  ∧ (isNumeric t = true → isNumeric u = true → isCompatibleWith t u = true)
  ∧ (isPointer t = true → isCompatibleWith t u = true → u = t).
Proof.
  split; [|split; [|split]].
  - unfold isCompatibleWith.
    destruct (Type_eq t u) eqn:E.
    + apply Type_eq_spec in E as ->. by rewrite Type_eq_refl.
    + assert (Type_eq u t = false) as ->.
      { apply Type_eq_false. intros ->. by rewrite Type_eq_refl in E. }
      rewrite !andb_false_r, !orb_false_r. apply andb_comm.
  - unfold isCompatibleWith, isNumeric, isScalar.
    intros [[H1 H2]%andb_true_iff|[H1 H2]%andb_true_iff]%orb_true_iff.
    + apply andb_true_iff in H1 as [H1 _]. by apply andb_true_iff in H2 as [H2 _].
    + apply Type_eq_spec in H2 as ->. done.
  - intros H1 H2. unfold isCompatibleWith. by rewrite H1, H2.
  - intros Hp. unfold isCompatibleWith.
    rewrite (isPointer_not_numeric _ Hp). simpl.
    intros [_ H]%andb_true_iff. by apply Type_eq_spec in H.
Qed.

(** [decay] and [promote] change nothing when applied a second time;
    [decay] leaves no array type, and [promote] no plain [char]; what they
    return for an array and for [char] is a pointer and [int]. *)
Theorem decay_promote_idempotent (t : Type_) :
  Type_decay (Type_decay t) = Type_decay t
  ∧ Type_promote (Type_promote t) = Type_promote t
  ∧ isArray (Type_decay t) = false
  ∧ Type_promote t ≠ character
  ∧ (isArray t = true → isScalar (Type_decay t) = true
     ∧ specifier (Type_decay t) = specifier t
     ∧ indirection (Type_decay t) = to_unsigned (indirection t + 1))
  ∧ (isArray t = false → Type_decay t = t)
  ∧ (t ≠ character → Type_promote t = t).
Proof.
  destruct t as [|sp i|sp i n|sp i v ts]; simpl;
    repeat split; try done.
  - by destruct sp, i.
  - by destruct sp, i.
  - intros H. by destruct sp, i.
Qed.

(** The alignment of a type is 1, 4 or 8 and divides its size; a scalar
    has the size of its alignment. *)
Theorem alignment_divides_size (t : Type_) :
  (alignment t = 1 ∨ alignment t = 4 ∨ alignment t = 8)%N
  ∧ (alignment t | size t)%N
  ∧ (isScalar t = true → size t = alignment t).
Proof.
  split; [|split].
  - unfold alignment. destruct (0 <? indirection t)%N; [by right; right|].
    destruct (specifier t); auto.
  - assert (∀ c a, (a | 2 ^ 64)%N → (a | to_ulong (c * a))%N) as H.
    { intros c a Ha. unfold to_ulong. rewrite N.Div0.mod_eq.
      apply N.divide_sub_r; [apply N.divide_factor_r|].
      by apply N.divide_mul_l. }
    unfold size, alignment.
    destruct (0 <? indirection t)%N.
    + apply H. by exists (2 ^ 61)%N.
    + destruct (specifier t); apply H.
      * by exists (2 ^ 64)%N.
      * by exists (2 ^ 62)%N.
      * by exists (2 ^ 61)%N.
  - destruct t as [|sp i|sp i n|sp i v ts]; try done.
Qed.

(** ** The conversions of the checker *)

(** [cast] returns an expression of the type asked for, and the expression
    it was given, in the state it was called in, when that has the type
    already.  A number of type [int] becomes the same number of type
    [long] without a [Cast]; in every other case the expression of
    another type is put under a [Cast]. *)
Theorem cast_spec (e : Expression) (t : Type_) (s : State) :
  (∃ e' n, cast e t s = Returned e' (set_next n s) ∧ type_of e' = t)
  ∧ (type_of e = t → cast e t s = Returned e s)
  ∧ (∀ a value, e = Number a integer value →
       cast e longint s
       = Returned (Number (next s) longint value)
           (set_next (Pos.succ (next s)) s))
  ∧ (type_of e ≠ t →
     (∀ a value, e = Number a integer value → t ≠ longint) →
     cast e t s
     = Returned (Cast (next s) t e) (set_next (Pos.succ (next s)) s)).
Proof.
  split; [|split; [|split]].
  - destruct (allocates_cast e t s) as (e' & n & E).
    exists e', n. split; [done|]. by eapply cast_type.
  - intros <-. apply cast_same.
  - intros a value ->. reflexivity.
  - intros Ht Hn.
    assert (Type_ne (type_of e) t = true) as Hne by by apply Type_ne_spec.
    assert ((expr <- ret e;;
             if Type_ne (type_of expr) t
             then a <- fresh;; ret (Cast a t expr)
             else ret expr) s
            = Returned (Cast (next s) t e) (set_next (Pos.succ (next s)) s))
      as Hplain.
    { unfold bind at 1. unfold ret at 1. by rewrite Hne. }
    unfold cast. destruct (isNumber e) as [value|] eqn:En; [|done].
    destruct e; try done. simpl in Ht, Hne, Hplain |- *.
    destruct (Type_eq t0 integer) eqn:E1; [|done].
    destruct (Type_eq t longint) eqn:E2; [|done].
    apply Type_eq_spec in E1 as ->. apply Type_eq_spec in E2 as ->.
    by destruct (Hn a _ eq_refl).
Qed.

(** The types after [promote], [decay] and [extend], which always
    return: those of [Type::promote] and [Type::decay]; [extend] to [long]
    gives [long] for [char] and [int], and promotes otherwise. *)
Theorem conversions_types (e : Expression) (t : Type_) (s : State) :
  (∃ e' n, promote e s = Returned e' (set_next n s)
           ∧ type_of e' = Type_promote (type_of e))
  ∧ (∃ e' n, decay e s = Returned e' (set_next n s)
             ∧ type_of e' = Type_decay (type_of e))
  ∧ (∃ e' n, extend e t s = Returned e' (set_next n s)
             ∧ type_of e'
               = if (Type_eq (type_of e) character
                     || Type_eq (type_of e) integer) && Type_eq t longint
                 then longint else Type_promote (type_of e)).
Proof.
  split; [|split].
  - destruct (allocates_promote e s) as (e' & n & E).
    exists e', n. split; [done|]. by eapply promote_type.
  - destruct (allocates_decay e s) as (e' & n & E).
    exists e', n. split; [done|]. by eapply decay_type.
  - destruct (allocates_extend e t s) as (e' & n & E).
    exists e', n. split; [done|]. by eapply extend_type.
Qed.

(** [scale]: by 1 it extends to [long]; a number is multiplied on the
    spot, as an [unsigned long]; another expression is extended and put
    under a product with the number [size], of type [long]. *)
Theorem scale_spec (e : Expression) (size : N) (s : State) :
  scale e 1 s = extend e longint s
  ∧ (size ≠ 1%N →
     ∀ a t value, e = Number a t value →
       scale e size s
       = Returned (Number (next s) longint (to_ulong (value * size)))
           (set_next (Pos.succ (next s)) s))
  ∧ (size ≠ 1%N → isNumber e = None →
     ∃ e' n,
       extend e longint s = Returned e' (set_next n s)
       ∧ scale e size s
         = Returned
             (Multiply n longint e' (Number (Pos.succ n) longint size))
             (set_next (Pos.succ (Pos.succ n)) s)).
Proof.
  split; [done|]. split.
  - intros Hs a t value ->. unfold scale.
    destruct (size =? 1)%N eqn:E; [by apply N.eqb_eq in E|]. reflexivity.
  - intros Hs Hn. unfold scale.
    destruct (size =? 1)%N eqn:E; [by apply N.eqb_eq in E|]. rewrite Hn.
    destruct (allocates_extend e longint s) as (e' & n & Ee).
    exists e', n. split; [done|]. unfold bind. rewrite Ee.
    unfold fresh, bind, get, modify, ret. simpl. done.
Qed.

(** The address of an expression that designates an object of scalar
    type is a pointer, and what that pointer points to has the type of
    the expression: [*&e] has the type of [e], and no diagnostic is
    written. *)
Theorem address_then_dereference (e : Expression) (sp : Specifier)
    (i : N) (s : State) :
  type_of e = TScalar sp i →
  lvalue e = true →
  (i + 1 < 2 ^ 32)%N →
  ∃ p s1 d s2,
    checkAddress e s = Returned p s1
    ∧ isPointer (type_of p) = true
    ∧ checkDereference p s1 = Returned d s2
    ∧ type_of d = type_of e
    ∧ lvalue d = true
    ∧ numerrors s2 = numerrors s.
Proof.
  intros Ht Hl Hi.
  assert (to_unsigned (i + 1) = (i + 1)%N) as Hu.
  { unfold to_unsigned. by apply N.mod_small. }
  eexists _, _, _, _. split.
  { unfold checkAddress. rewrite Ht, Hl. simpl. rewrite Hu.
    unfold bind, ret, fresh, get, modify. simpl. reflexivity. }
  split.
  { simpl. unfold isPointer. simpl. apply N.ltb_lt. lia. }
  split.
  { unfold checkDereference, decay. simpl.
    unfold bind, ret. simpl.
    assert (isPointer (TScalar sp (i + 1)) = true) as ->.
    { unfold isPointer. simpl. apply N.ltb_lt. lia. }
    unfold fresh, bind, get, modify, ret. simpl. reflexivity. }
  split.
  { simpl. rewrite Ht. unfold Type_dereference. simpl. f_equal. lia. }
  split; done.
Qed.

Lemma address_then_dereference_witness :
  ∃ p s1 d s2,
    checkAddress local_x initial = Returned p s1
    ∧ isPointer (type_of p) = true
    ∧ checkDereference p s1 = Returned d s2
    ∧ type_of d = type_of local_x
    ∧ lvalue d = true
    ∧ numerrors s2 = numerrors initial.
Proof.
  apply (address_then_dereference local_x INT 0 initial); reflexivity.
Defined.

(** ** The diagnostics of the checker *)

(** No diagnostic is written. *)
Definition silent (s s' : State) : Prop :=
  numerrors s' = numerrors s ∧ stderr s' = stderr s.

#[local] Instance silent_preorder : PreOrder silent.
Proof.
  split.
  - by intros s.
  - intros a b c [H1 H2] [H3 H4]. split; congruence.
Qed.

Ltac silent_leaf := unfold silent; simpl; split; done.
Ltac silence := respects_with silent_leaf.

Lemma silent_fresh : respects silent fresh.
Proof. intros s. unfold fresh, bind, get, modify, ret. silent_leaf. Qed.
#[local] Hint Resolve silent_fresh : respects.

Lemma silent_cast e t : respects silent (cast e t).
Proof. unfold cast. silence. Qed.
#[local] Hint Resolve silent_cast : respects.

Lemma silent_promote e : respects silent (promote e).
Proof. unfold promote. silence. Qed.
#[local] Hint Resolve silent_promote : respects.

Lemma silent_decay e : respects silent (decay e).
Proof. unfold decay. silence. Qed.
#[local] Hint Resolve silent_decay : respects.

Lemma silent_extend e t : respects silent (extend e t).
Proof. unfold extend. silence. Qed.
#[local] Hint Resolve silent_extend : respects.

Lemma silent_scale e n : respects silent (scale e n).
Proof. unfold scale. silence. Qed.
#[local] Hint Resolve silent_scale : respects.

(** [m] never calls [exit], and when it returns it has written no
    diagnostic, or one. *)
Definition reports_once {A} (m : M A) : Prop :=
  ∀ s,
    match m s with
    | Returned _ s' =>
        silent s s'
        ∨ (numerrors s' = S (numerrors s)
           ∧ ∃ message arg, stderr s' = stderr s ++ [(message, arg)])
    | Exited _ _ => False
    | Aborted | OutOfFuel => True
    end.

Lemma once_silent {A} (m : M A) : respects silent m → reports_once m.
Proof. intros H s. specialize (H s). destruct (m s); try done. by left. Qed.

Lemma once_report message arg : reports_once (report message arg).
Proof. intros s. right. split; [done|]. by exists message, arg. Qed.

Lemma once_bind_l {A B} (m : M A) (k : A → M B) :
  respects silent m → (∀ a, reports_once (k a)) →
  reports_once (x <- m;; k x).
Proof.
  intros Hm Hk s. unfold bind. specialize (Hm s).
  destruct (m s) as [a s1| | |]; try done.
  specialize (Hk a s1). destruct (k a s1) as [b s2| | |]; try done.
  destruct Hm as [H1 H2]. destruct Hk as [[H3 H4]|(H3 & msg & arg & H4)].
  - left. split; congruence.
  - right. split; [congruence|]. exists msg, arg. congruence.
Qed.

Lemma once_bind_r {A B} (m : M A) (k : A → M B) :
  reports_once m → (∀ a, respects silent (k a)) →
  reports_once (x <- m;; k x).
Proof.
  intros Hm Hk s. unfold bind. specialize (Hm s).
  destruct (m s) as [a s1| | |]; try done.
  specialize (Hk a s1). destruct (k a s1) as [b s2| | |]; try done.
  destruct Hk as [H1 H2]. destruct Hm as [[H3 H4]|(H3 & msg & arg & H4)].
  - left. split; congruence.
  - right. split; [congruence|]. exists msg, arg. congruence.
Qed.

Ltac one_report :=
  repeat
    lazymatch goal with
    | |- reports_once (bind _ _) =>
        first [ apply once_bind_l; [solve [silence] | intros ?]
              | apply once_bind_r; [ | intros ?; solve [silence]] ]
    | |- reports_once (report _ _) => apply once_report
    | |- reports_once (when ?b _) => destruct b; unfold when
    | |- reports_once (if ?b then _ else _) => destruct b
    | |- reports_once (match ?x with _ => _ end) => destruct x
    | |- reports_once (let _ := _ in _) => cbv zeta
    | |- reports_once _ =>
        first [ solve [eauto 2] | apply once_silent; solve [silence] ]
    end.

Lemma once_invalid_call message id args :
  reports_once (invalid_call message id args).
Proof. unfold invalid_call. one_report. Qed.

(** [m] leaves early, on the left, after one diagnostic at most, or goes
    on, on the right, having written none. *)
Definition leaves_early {A B} (m : M (A + B)) : Prop :=
  ∀ s,
    match m s with
    | Returned (inl _) s' =>
        silent s s'
        ∨ (numerrors s' = S (numerrors s)
           ∧ ∃ message arg, stderr s' = stderr s ++ [(message, arg)])
    | Returned (inr _) s' => silent s s'
    | Exited _ _ => False
    | Aborted | OutOfFuel => True
    end.

Lemma early_bind {A B C} (m : M C) (k : C → M (A + B)) :
  respects silent m → (∀ c, leaves_early (k c)) →
  leaves_early (x <- m;; k x).
Proof.
  intros Hm Hk s. unfold bind. specialize (Hm s).
  destruct (m s) as [c s1| | |]; try done.
  specialize (Hk c s1). destruct (k c s1) as [[a|b] s2| | |]; try done.
  - destruct Hm as [H1 H2].
    destruct Hk as [[H3 H4]|(H3 & msg & arg & H4)].
    + left. split; congruence.
    + right. split; [congruence|]. exists msg, arg. congruence.
  - by etrans.
Qed.

Lemma early_left {A B} (m : M A) :
  reports_once m → leaves_early (c <- m;; ret (@inl A B c)).
Proof.
  intros Hm s. unfold bind, ret. specialize (Hm s). by destruct (m s).
Qed.

Lemma early_then {A B C} (m : M (A + B)) (kl : A → M C) (kr : B → M C) :
  leaves_early m →
  (∀ a, respects silent (kl a)) → (∀ b, reports_once (kr b)) →
  reports_once (r <- m;; match r with inl a => kl a | inr b => kr b end).
Proof.
  intros Hm Hl Hr s. unfold bind. specialize (Hm s).
  destruct (m s) as [[a|b] s1| | |]; try done.
  - specialize (Hl a s1). destruct (kl a s1) as [c s2| | |]; try done.
    destruct Hl as [H1 H2].
    destruct Hm as [[H3 H4]|(H3 & msg & arg & H4)].
    + left. split; congruence.
    + right. split; [congruence|]. exists msg, arg. congruence.
  - specialize (Hr b s1). destruct (kr b s1) as [c s2| | |]; try done.
    destruct Hm as [H1 H2].
    destruct Hr as [[H3 H4]|(H3 & msg & arg & H4)].
    + left. split; congruence.
    + right. split; [congruence|]. exists msg, arg. congruence.
Qed.

Lemma early_checkCall_parameters id types n :
  ∀ i args, leaves_early (checkCall_parameters id types n i args).
Proof.
  induction n as [|n IH]; intros i args; simpl.
  - intros s. by simpl.
  - destruct (args !! i) as [arg|]; [|by intros s].
    destruct (types !! i) as [type|]; [|by intros s].
    destruct (Type_ne (type_of arg) error); [|apply IH].
    apply early_bind; [apply silent_decay|]. intros arg'. cbv zeta.
    destruct (negb _).
    + apply early_left, once_invalid_call.
    + apply early_bind; [apply silent_cast|]. intros arg''. apply IH.
Qed.

Lemma early_checkCall_variadic fuel id :
  ∀ i args, leaves_early (checkCall_variadic fuel id i args).
Proof.
  induction fuel as [|fuel IH]; intros i args; simpl; [by intros s|].
  destruct (args !! i) as [arg|]; [|by intros s].
  destruct (Type_ne (type_of arg) error); [|apply IH].
  apply early_bind; [apply silent_promote|]. intros arg'.
  apply early_bind; [apply silent_decay|]. intros arg''. cbv zeta.
  destruct (negb _).
  - apply early_left, once_invalid_call.
  - apply IH.
Qed.

Lemma once_checkCall fuel id args : reports_once (checkCall fuel id args).
Proof.
  pose proof once_invalid_call.
  unfold checkCall.
  apply once_bind_l; [silence|]. intros sym. cbv zeta.
  destruct (Type_ne (Symbol_type sym) error); [|one_report].
  destruct (negb (isFunction (Symbol_type sym))); [one_report|].
  destruct (parameters (Symbol_type sym)) as [params|]; [|one_report].
  destruct (_ <? _)%nat; [one_report|].
  destruct (_ && _); [one_report|].
  apply early_then; [apply early_checkCall_parameters|intros; silence|].
  intros args'.
  apply early_then; [apply early_checkCall_variadic|intros; silence|].
  intros args''. one_report.
Qed.

Lemma once_checkMultiplicative l r op :
  reports_once (checkMultiplicative l r op).
Proof. unfold checkMultiplicative. one_report. Qed.

Lemma once_checkComparative l r op : reports_once (checkComparative l r op).
Proof. unfold checkComparative. one_report. Qed.

Lemma once_checkLogical l r op : reports_once (checkLogical l r op).
Proof. unfold checkLogical. one_report. Qed.

(** A check writes one diagnostic at most, and never calls [exit]. *)
Theorem checks_report_once :
  (∀ fuel id args, reports_once (checkCall fuel id args))
  ∧ (∀ l r,
       reports_once (checkArray l r) ∧ reports_once (checkMultiply l r)
       ∧ reports_once (checkDivide l r) ∧ reports_once (checkRemainder l r)
       ∧ reports_once (checkAdd l r) ∧ reports_once (checkSubtract l r)
       ∧ reports_once (checkLessThan l r)
       ∧ reports_once (checkGreaterThan l r)
       ∧ reports_once (checkLessOrEqual l r)
       ∧ reports_once (checkGreaterOrEqual l r)
       ∧ reports_once (checkEqual l r) ∧ reports_once (checkNotEqual l r)
       ∧ reports_once (checkLogicalAnd l r)
       ∧ reports_once (checkLogicalOr l r)
       ∧ reports_once (checkAssignment l r))
  ∧ (∀ e t,
       reports_once (checkNot e) ∧ reports_once (checkNegate e)
       ∧ reports_once (checkDereference e) ∧ reports_once (checkAddress e)
       ∧ reports_once (checkSizeof e) ∧ reports_once (checkCast t e)
       ∧ reports_once (checkTest e) ∧ reports_once (checkReturn e t))
  ∧ (∀ depth, reports_once (checkBreak depth)).
Proof.
  pose proof once_checkMultiplicative. pose proof once_checkComparative.
  pose proof once_checkLogical.
  split; [apply once_checkCall|]. split; [|split].
  - intros l r.
    repeat split;
      unfold checkArray, checkMultiply, checkDivide, checkRemainder,
        checkAdd, checkSubtract, checkLessThan, checkGreaterThan,
        checkLessOrEqual, checkGreaterOrEqual, checkEqual, checkNotEqual,
        checkLogicalAnd, checkLogicalOr, checkAssignment;
      one_report.
  - intros e t.
    repeat split;
      unfold checkNot, checkNegate, checkDereference, checkAddress,
        checkSizeof, checkCast, checkTest, checkReturn;
      one_report.
  - intros depth. unfold checkBreak. one_report.
Qed.

(** A check changes neither the symbols nor the scopes, writes nothing to
    the output, and leaves the registers and the frame as they are; it
    takes no diagnostic back, and never calls [exit]. *)
Theorem checks_leave_tables :
  (∀ fuel id args, respects advance (checkCall fuel id args))
  ∧ (∀ l r,
       respects advance (checkArray l r)
       ∧ respects advance (checkMultiply l r)
       ∧ respects advance (checkDivide l r)
       ∧ respects advance (checkRemainder l r)
       ∧ respects advance (checkAdd l r)
       ∧ respects advance (checkSubtract l r)
       ∧ respects advance (checkLessThan l r)
       ∧ respects advance (checkGreaterThan l r)
       ∧ respects advance (checkLessOrEqual l r)
       ∧ respects advance (checkGreaterOrEqual l r)
       ∧ respects advance (checkEqual l r)
       ∧ respects advance (checkNotEqual l r)
       ∧ respects advance (checkLogicalAnd l r)
       ∧ respects advance (checkLogicalOr l r)
       ∧ respects advance (checkAssignment l r))
  ∧ (∀ e t,
       respects advance (checkNot e) ∧ respects advance (checkNegate e)
       ∧ respects advance (checkDereference e)
       ∧ respects advance (checkAddress e)
       ∧ respects advance (checkSizeof e)
       ∧ respects advance (checkCast t e)
       ∧ respects advance (checkTest e)
       ∧ respects advance (checkReturn e t))
  ∧ (∀ depth, respects advance (checkBreak depth)).
Proof.
  split; [apply advances_checkCall|]. split; [|split].
  - intros l r.
    split; [apply advances_checkArray|].
    split; [apply advances_checkMultiply|].
    split; [apply advances_checkDivide|].
    split; [apply advances_checkRemainder|].
    split; [apply advances_checkAdd|].
    split; [apply advances_checkSubtract|].
    split; [apply advances_checkLessThan|].
    split; [apply advances_checkGreaterThan|].
    split; [apply advances_checkLessOrEqual|].
    split; [apply advances_checkGreaterOrEqual|].
    split; [apply advances_checkEqual|].
    split; [apply advances_checkNotEqual|].
    split; [apply advances_checkLogicalAnd|].
    split; [apply advances_checkLogicalOr|].
    apply advances_checkAssignment.
  - intros e t.
    split; [apply advances_checkNot|].
    split; [apply advances_checkNegate|].
    split; [apply advances_checkDereference|].
    split; [apply advances_checkAddress|].
    split; [apply advances_checkSizeof|].
    split; [apply advances_checkCast|].
    split; [apply advances_checkTest|].
    apply advances_checkReturn.
  - apply advances_checkBreak.
Qed.

(** ** Calls *)

(** The state after [report]. *)
Definition reported (message arg : string) (s : State) : State :=
  set_numerrors (S (numerrors s))
    (set_stderr (stderr s ++ [(message, arg)]) s).

(** [checkCall] rejects, with one diagnostic and a call of error type
    that keeps the arguments as they are: what is called when it is no
    function; too few arguments; and too many when the function is not
    variadic. *)
Theorem checkCall_rejects fuel id args sym s :
  symtab s !! id = Some sym →
  (Symbol_type sym ≠ error → isFunction (Symbol_type sym) = false →
   checkCall fuel id args s
   = Returned (Call (next s) error id args)
       (set_next (Pos.succ (next s))
          (reported invalid_function "" s)))
  ∧ (∀ params,
       parameters (Symbol_type sym) = Some params →
       (length args < length (types params)
        ∨ variadic params = false ∧ length (types params) < length args)%nat →
       checkCall fuel id args s
       = Returned (Call (next s) error id args)
           (set_next (Pos.succ (next s))
              (reported invalid_arguments "" s))).
Proof.
  intros Hs. split.
  - intros Hne Hf. unfold checkCall, bind.
    rewrite (symbol_at_Some _ _ _ Hs). cbv zeta.
    assert (Type_ne (Symbol_type sym) error = true) as ->
      by by apply Type_ne_spec.
    by rewrite Hf.
  - intros params Hp Hn. unfold checkCall, bind.
    rewrite (symbol_at_Some _ _ _ Hs). cbv zeta.
    destruct (Symbol_type sym) as [| | |sp i v ts] eqn:Et; try done.
    injection Hp as <-. simpl in *.
    destruct (length args <? length ts)%nat eqn:E1; [done|].
    apply Nat.ltb_ge in E1.
    destruct Hn as [Hn|[-> Hn]]; [lia|].
    apply Nat.ltb_lt in Hn. by rewrite Hn.
Qed.

Lemma checkCall_rejects_witness :
  checkCall 1 9 [] state_f
  = Returned (Call (next state_f) error 9 [])
      (set_next (Pos.succ (next state_f))
         (reported invalid_arguments "" state_f)).
Proof.
  apply (proj2 (checkCall_rejects 1 9%positive [] int_f state_f eq_refl)
           (mkParameters false [TScalar INT 0]) eq_refl).
  left. simpl. lia.
Defined.

Lemma checkCall_parameters_passes id ts n :
  ∀ i args s,
    (i + n)%nat = length ts →
    (length ts ≤ length args)%nat →
    Forall2 accepted (drop i (take (length ts) args)) (drop i ts) →
    ∃ args' m,
      checkCall_parameters id ts n i args s
      = Returned (inr args') (set_next m s)
      ∧ length args' = length args
      ∧ drop (length ts) args' = drop (length ts) args.
Proof.
  induction n as [|n IH]; intros i args s Hi Hl Hf.
  - exists args, (next s). by rewrite set_next_same.
  - simpl.
    destruct (lookup_lt_is_Some_2 args i) as [arg Ha]; [lia|].
    destruct (lookup_lt_is_Some_2 ts i) as [t Ht]; [lia|].
    rewrite Ha, Ht.
    assert (take (length ts) args !! i = Some arg) as Ha'.
    { rewrite lookup_take_lt by lia. done. }
    rewrite (drop_S _ _ _ Ha'), (drop_S _ _ _ Ht) in Hf.
    apply Forall2_cons in Hf as [Hacc Hf].
    destruct (Type_ne (type_of arg) error) eqn:Ene.
    + destruct Hacc as [Herr|Hc].
      { rewrite Herr, Type_ne_refl in Ene. done. }
      unfold bind.
      destruct (allocates_decay arg s) as (arg' & n1 & E1). rewrite E1.
      rewrite (decay_type _ _ _ _ E1), Hc. simpl.
      destruct (allocates_cast arg' t (set_next n1 s)) as (arg'' & n2 & E2).
      rewrite E2. simpl.
      destruct (IH (S i) (<[i:=arg'']> (<[i:=arg']> args))
                  (set_next n2 (set_next n1 s)))
        as (args' & m & E & L & D).
      * lia.
      * by rewrite !length_insert.
      * rewrite !take_insert_lt by lia. rewrite !drop_insert_lt by lia.
        done.
      * exists args', m. rewrite E. split; [done|].
        rewrite L, D, !length_insert. split; [done|].
        by rewrite !drop_insert_lt by lia.
    + apply (IH (S i) args s); [lia | done | done].
Qed.

(** A call of a variadic function whose first argument after those for
    the declared parameters has the error type: the loop over these
    arguments does not move on, and [checkCall] does not return, whatever
    the number of rounds it is given. *)
Theorem checkCall_never_returns fuel id sym sp ind ts args arg s :
  symtab s !! id = Some sym →
  Symbol_type sym = TFunction sp ind true ts →
  Forall2 accepted (take (length ts) args) ts →
  args !! length ts = Some arg →
  type_of arg = error →
  checkCall fuel id args s = OutOfFuel.
Proof.
  intros Hs Ht Hf Ha He. unfold checkCall, bind.
  rewrite (symbol_at_Some _ _ _ Hs), Ht. simpl.
  assert (length ts < length args)%nat as Hl by by eapply lookup_lt_Some.
  assert ((length args <? length ts)%nat = false) as ->
    by (apply Nat.ltb_ge; lia).
  destruct (checkCall_parameters_passes id ts (length ts) 0 args s)
    as (args' & m & E & L & D); [done | lia | done |].
  rewrite E.
  assert (args' !! length ts = Some arg) as Ha'.
  { rewrite <- (Nat.add_0_r (length ts)), <- lookup_drop, D, lookup_drop.
    by rewrite Nat.add_0_r. }
  by rewrite (checkCall_variadic_spins _ _ _ _ arg _ Ha' He).
Qed.

(** [int printf(char *, ...)] at address 9, and the call
    [printf(s, y)] with [y] not declared. *)
Definition state_printf : State :=
  set_symtab
    (<[9%positive :=
         mkSymbol "printf" (TFunction INT 0 true [TScalar CHAR 1]) 0]> ∅)
    initial.

Definition format : Expression := Identifier 6 (TScalar CHAR 1) 8.

Lemma checkCall_never_returns_witness :
  checkCall 1000 9 [format; undeclared_y] state_printf = OutOfFuel.
Proof.
  apply (checkCall_never_returns 1000 9%positive
           (mkSymbol "printf" (TFunction INT 0 true [TScalar CHAR 1]) 0)
           INT 0 [TScalar CHAR 1] [format; undeclared_y] undeclared_y
           state_printf); try reflexivity.
  simpl. apply Forall2_cons. split; [by right|constructor].
Defined.

(** ** Storage allocation *)

(** [Statement::allocate] returns when the symbols the statement declares
    are there with types that have a size.  It gives no new offset to a
    symbol that has one, and keeps the type of every symbol; it changes
    nothing else that the analysis left. *)
Theorem allocate_keeps_offsets stmt offset s :
  Forall (known s) (symbols_of stmt) →
  ∃ offset' s',
    Statement_allocate stmt offset s = Returned offset' s'
    ∧ settled s s'
    ∧ backstage s s'.
Proof.
  intros H.
  destruct (Statement_allocate_spec stmt offset s H) as (o & s' & E & Hs).
  exists o, s'. split; [done|]. split; [done|].
  pose proof (stays_Statement_allocate stmt offset s) as Hb.
  by rewrite E in Hb.
Qed.

(** A block that declares [x] and [y] in a function with the seven
    parameters of the example above; the parameters have their offsets. *)
Definition block_in_seven : Statement := Block [10; 11]%positive [].

Definition state_block : State :=
  set_symtab
    (<[10%positive := mkSymbol "x" integer 0]>
       (<[11%positive := mkSymbol "y" (TArray CHAR 0 10) 0]>
          (<[2%positive := mkSymbol "a" integer (-4)]> ∅)))
    initial.

Lemma allocate_keeps_offsets_witness :
  ∃ offset' s',
    Statement_allocate block_in_seven (-4) state_block = Returned offset' s'
    ∧ settled state_block s'
    ∧ backstage state_block s'.
Proof.
  apply (allocate_keeps_offsets block_in_seven (-4) state_block).
  repeat (apply Forall_cons; split; [eexists; split; reflexivity|]).
  constructor.
Defined.

(** The sum of the sizes of the first [k] of the symbols [symbols]. *)
Definition sizes_of (s : State) (symbols : list Addr) (k : nat) : Z :=
  foldr (λ a acc,
           match symtab s !! a with
           | Some sym => Z.of_N (size (Symbol_type sym)) + acc
           | None => acc
           end) 0 (take k symbols).

Lemma sizes_of_S s symbols k a sym :
  symbols !! k = Some a → symtab s !! a = Some sym →
  sizes_of s symbols (S k)
  = sizes_of s symbols k + Z.of_N (size (Symbol_type sym)).
Proof.
  unfold sizes_of. revert k.
  induction symbols as [|b r IH]; intros k Hk Hs; [done|].
  destruct k as [|k].
  - injection Hk as ->. cbn. rewrite take_0, Hs. cbn. lia.
  - cbn in Hk. cbn [take foldr]. rewrite (IH k Hk Hs).
    destruct (symtab s !! b); lia.
Qed.

Lemma sizes_of_bounds s symbols k :
  0 ≤ sizes_of s symbols k.
Proof.
  unfold sizes_of. induction (take k symbols) as [|a r IH]; simpl; [lia|].
  destruct (symtab s !! a); lia.
Qed.

Lemma sizes_of_mono s symbols k :
  sizes_of s symbols k ≤ sizes_of s symbols (length symbols).
Proof.
  unfold sizes_of. rewrite firstn_all. revert k.
  induction symbols as [|a r IH]; intros k; [by rewrite take_nil|].
  destruct k as [|k]; cbn [take foldr].
  - pose proof (sizes_of_bounds s (a :: r) (length (a :: r))) as H.
    unfold sizes_of in H. by rewrite firstn_all in H.
  - specialize (IH k). destruct (symtab s !! a); lia.
Qed.

Lemma sizes_of_retyped s s' symbols k :
  retyped s s' → sizes_of s' symbols k = sizes_of s symbols k.
Proof.
  intros H. unfold sizes_of.
  induction (take k symbols) as [|a r IH]; simpl; [done|].
  specialize (H a).
  destruct (symtab s !! a), (symtab s' !! a); simpl in H; try done.
  injection H as ->. by rewrite IH.
Qed.

Lemma allocate_symbols_offsets symbols :
  NoDup symbols →
  ∀ offset s,
    Forall (λ a, ∃ sym, symtab s !! a = Some sym ∧ Symbol_offset sym = 0
                         ∧ size_assert (Symbol_type sym) = true) symbols →
    INT_MIN ≤ offset - sizes_of s symbols (length symbols) →
    offset ≤ INT_MAX →
    ∃ s',
      allocate_symbols symbols offset s
      = Returned (offset - sizes_of s symbols (length symbols)) s'
      ∧ retyped s s'
      ∧ (∀ i a, symbols !! i = Some a →
           offset_at s' a = Some (offset - sizes_of s symbols (S i)))
      ∧ (∀ a, a ∉ symbols → symtab s' !! a = symtab s !! a).
Proof.
  intros Hnd. induction symbols as [|a r IH]; intros offset s Hk Hlo Hhi.
  - exists s. unfold sizes_of. simpl. rewrite Z.sub_0_r.
    split; [done|]. split; [done|]. split; done.
  - apply NoDup_cons in Hnd as [Ha Hnd].
    apply Forall_cons in Hk as [(sym & Hs & Ho & Ht) Hk].
    simpl. unfold bind at 1. rewrite (symbol_at_Some _ _ _ Hs).
    rewrite Ho. simpl. unfold bind at 1.
    rewrite (Type_size_sized _ _ Ht). unfold bind at 1.
    rewrite (set_Symbol_offset_spec _ _ _ _ Hs).
    set (o := to_int (offset - Z.of_N (size (Symbol_type sym)))).
    set (s1 := set_symtab _ s).
    assert (retyped s s1) as Hr1 by by apply set_offset_retyped.
    cbn [length] in Hlo |- *.
    assert (sizes_of s (a :: r) (S (length r))
            = Z.of_N (size (Symbol_type sym)) + sizes_of s r (length r))
      as Hsum.
    { unfold sizes_of. cbn [take foldr]. by rewrite Hs. }
    assert (sizes_of s1 r (length r) = sizes_of s r (length r)) as Hsame
      by by apply sizes_of_retyped.
    pose proof (sizes_of_bounds s r (length r)) as Hpos.
    assert (o = offset - Z.of_N (size (Symbol_type sym))) as Eo.
    { unfold o. apply to_int_id. lia. }
    destruct (IH Hnd o s1) as (s' & E & Hr & Hset & Hkeep).
    + apply Forall_forall. intros b Hb. rewrite Forall_forall in Hk.
      destruct (Hk b Hb) as (x & Hx & Hx0 & Hxt).
      exists x. split; [|done]. unfold s1, set_symtab. simpl.
      rewrite lookup_insert_ne; [done|]. intros <-. done.
    + rewrite Hsame. lia.
    + lia.
    + exists s'. split.
      { rewrite E. f_equal. rewrite Hsame, Hsum. lia. }
      split; [by eapply retyped_trans|]. split.
      * intros i b Hb. destruct i as [|i].
        -- injection Hb as <-. unfold offset_at. rewrite (Hkeep a Ha).
           unfold s1, set_symtab. simpl. rewrite lookup_insert_eq. simpl.
           f_equal. rewrite Eo. unfold sizes_of. simpl. rewrite Hs. lia.
        -- simpl in Hb. rewrite (Hset i b Hb). f_equal.
           rewrite (sizes_of_retyped s s1) by done.
           unfold sizes_of. cbn [take foldr]. rewrite Hs. lia.
      * intros b Hb. apply not_elem_of_cons in Hb as [Hne Hb].
        rewrite (Hkeep b Hb). unfold s1, set_symtab. simpl.
        by rewrite lookup_insert_ne.
Qed.

(** The symbols a block declares get descending offsets below the offset
    the block is given: the symbol of index [i] gets that offset less the
    sizes of the symbols up to it.  The statements of the block do not
    move them. *)
Theorem Block_allocate_offsets decls stmts offset s :
  NoDup decls →
  Forall (λ a, ∃ sym, symtab s !! a = Some sym ∧ Symbol_offset sym = 0
                       ∧ size_assert (Symbol_type sym) = true
                       ∧ (0 < size (Symbol_type sym))%N) decls →
  Forall (known s) (symbols_of (Block [] stmts)) →
  INT_MIN ≤ offset - sizes_of s decls (length decls) →
  offset ≤ 0 →
  ∃ offset' s',
    Statement_allocate (Block decls stmts) offset s = Returned offset' s'
    ∧ ∀ i a, decls !! i = Some a →
        offset_at s' a = Some (offset - sizes_of s decls (S i))
        ∧ offset - sizes_of s decls (S i) < offset - sizes_of s decls i.
Proof.
  intros Hnd Hd Hk Hlo Hhi.
  destruct (allocate_symbols_offsets decls Hnd offset s)
    as (s1 & E1 & Hr1 & Hset1 & Hkeep1).
  { eapply Forall_impl; [exact Hd|]. intros a (x & ? & ? & ? & ?).
    by exists x. }
  { done. }
  { unfold INT_MAX. lia. }
  destruct (Statement_allocate_spec (Block [] stmts)
              (offset - sizes_of s decls (length decls)) s1)
    as (o' & s' & E & Hs').
  { eapply Forall_impl; [exact Hk|]. intros a. by apply known_retyped. }
  exists o', s'. split.
  { rewrite <- E. cbn [Statement_allocate allocate_symbols].
    unfold bind at 1. unfold bind at 2. unfold ret at 2. by rewrite E1. }
  intros i a Ha.
  rewrite Forall_forall in Hd.
  destruct (Hd a) as (x & Hx & _ & _ & Hpos);
    [by eapply list_elem_of_lookup_2|].
  rewrite (sizes_of_S s decls i a x Ha Hx).
  pose proof (sizes_of_bounds s decls i) as Hb.
  split; [|lia].
  specialize (Hset1 i a Ha). rewrite (sizes_of_S s decls i a x Ha Hx) in Hset1.
  unfold offset_at in *. specialize (Hs' a).
  destruct (symtab s1 !! a) as [y|] eqn:Ey; [|done].
  destruct (symtab s' !! a) as [z|] eqn:Ez; [|done].
  simpl in *. injection Hset1 as Hy. f_equal.
  destruct Hs' as [_ Hz]. rewrite Hz; [done|]. lia.
Qed.

Lemma Block_allocate_offsets_witness :
  ∃ offset' s',
    Statement_allocate block_in_seven (-4) state_block = Returned offset' s'
    ∧ ∀ i a, [10; 11]%positive !! i = Some a →
        offset_at s' a
        = Some (-4 - sizes_of state_block [10; 11]%positive (S i))
        ∧ -4 - sizes_of state_block [10; 11]%positive (S i)
          < -4 - sizes_of state_block [10; 11]%positive i.
Proof.
  apply (Block_allocate_offsets [10; 11]%positive [] (-4) state_block).
  - apply (bool_decide_unpack _). vm_compute. exact I.
  - repeat (apply Forall_cons; split;
            [eexists; repeat split; reflexivity|]).
    constructor.
  - constructor.
  - vm_compute. discriminate.
  - lia.
Defined.

(** The loop that aligns the offset of a parameter ends within eight
    rounds, at the first multiple of [PARAM_ALIGNMENT] from the offset
    on. *)
Theorem align_parameter_rounds_up (x : Z) (s : State) :
  INT_MIN ≤ x → x + 7 ≤ INT_MAX →
  ∃ y,
    align_parameter (Z.to_nat PARAM_ALIGNMENT) x s = Returned y s
    ∧ x ≤ y < x + PARAM_ALIGNMENT
    ∧ y mod PARAM_ALIGNMENT = 0.
Proof.
  intros Hlo Hhi. unfold PARAM_ALIGNMENT.
  assert (∀ fuel x,
            INT_MIN ≤ x → x + (- x) mod 8 ≤ INT_MAX →
            (- x) mod 8 < Z.of_nat fuel →
            align_parameter fuel x s = Returned (x + (- x) mod 8) s) as H.
  { clear. induction fuel as [|fuel IH]; intros x Hlo Hhi Hd.
    - exfalso. Z.to_euclidean_division_equations. lia.
    - cbn [align_parameter]. unfold PARAM_ALIGNMENT.
      assert (Z.rem x 8 = 0 ↔ x mod 8 = 0) as Hrem.
      { rewrite Z.rem_divide, Z.mod_divide by lia. done. }
      destruct (Z.rem x 8 =? 0) eqn:E; cbn [negb].
      + apply Z.eqb_eq, Hrem in E. unfold ret. f_equal.
        Z.to_euclidean_division_equations. lia.
      + apply Z.eqb_neq in E. rewrite Hrem in E.
        assert (to_int (x + 1) = x + 1) as ->.
        { apply to_int_id. unfold INT_MIN, INT_MAX in *.
          Z.to_euclidean_division_equations. lia. }
        rewrite IH.
        * f_equal. Z.to_euclidean_division_equations. lia.
        * lia.
        * Z.to_euclidean_division_equations. lia.
        * Z.to_euclidean_division_equations. lia. }
  exists (x + (- x) mod 8). split.
  - apply H; [done| |].
    + Z.to_euclidean_division_equations. lia.
    + change (Z.of_nat (Z.to_nat 8)) with 8.
      Z.to_euclidean_division_equations. lia.
  - split; Z.to_euclidean_division_equations; lia.
Qed.

Lemma align_parameter_rounds_up_witness :
  ∃ y,
    align_parameter (Z.to_nat PARAM_ALIGNMENT) 20 initial = Returned y initial
    ∧ 20 ≤ y < 20 + PARAM_ALIGNMENT
    ∧ y mod PARAM_ALIGNMENT = 0.
Proof.
  apply (align_parameter_rounds_up 20 initial); unfold INT_MIN, INT_MAX; lia.
Defined.

(** [align] returns what is missing from the absolute value of an offset
    to the next multiple of [STACK_ALIGNMENT]. *)
Theorem align_spec (x : Z) :
  0 ≤ align x < STACK_ALIGNMENT
  ∧ (Z.abs x + align x) mod STACK_ALIGNMENT = 0
  ∧ (x mod STACK_ALIGNMENT = 0 → align x = 0).
Proof.
  unfold align, STACK_ALIGNMENT.
  assert (Z.rem x 16 = 0 ↔ x mod 16 = 0) as Hrem.
  { rewrite Z.rem_divide, Z.mod_divide by lia. done. }
  assert (Z.abs x mod 16 = 0 ↔ x mod 16 = 0) as Habs.
  { rewrite !Z.mod_divide by lia. apply Z.divide_abs_r. }
  rewrite (Z.rem_mod_nonneg (Z.abs x) 16) by lia.
  destruct (Z.rem x 16 =? 0) eqn:E.
  - apply Z.eqb_eq, Hrem in E. split; [lia|]. split; [|done].
    rewrite Z.add_0_r. by apply Habs.
  - apply Z.eqb_neq in E. rewrite Hrem in E.
    assert (Z.abs x mod 16 ≠ 0) as Hne by by rewrite Habs.
    split; [|split].
    + Z.to_euclidean_division_equations. lia.
    + Z.to_euclidean_division_equations. lia.
    + intros H. done.
Qed.

(** The padding of a call with more than six arguments is 8 bytes when
    their number is odd, and none when it is even. *)
Theorem Call_padding_parity (n : nat) :
  6 < Z.of_nat n < 2 ^ 28 →
  Call_padding n = if Nat.odd n then 8%N else 0%N.
Proof.
  intros Hn. destruct (Call_padding_spec n Hn) as [Hp Hr].
  unfold round_up, NUM_PARAM_REGS, PARAM_ALIGNMENT, STACK_ALIGNMENT in Hr.
  destruct (Nat.odd n) eqn:Eo.
  - apply Nat.odd_spec in Eo as [k Hk].
    destruct Hp as [Hp|Hp]; [|done]. exfalso. rewrite Hp in Hr.
    Z.to_euclidean_division_equations. lia.
  - assert (Nat.even n = true) as Ee by by rewrite <- Nat.negb_odd, Eo.
    apply Nat.even_spec in Ee as [k Hk].
    destruct Hp as [Hp|Hp]; [done|]. exfalso. rewrite Hp in Hr.
    Z.to_euclidean_division_equations. lia.
Qed.

Lemma Call_padding_parity_witness :
  Call_padding 7 = 8%N ∧ Call_padding 8 = 0%N.
Proof.
  split.
  - apply (Call_padding_parity 7). lia.
  - apply (Call_padding_parity 8). lia.
Defined.

(** ** Registers *)

(** [assign(x, r)] binds the node and the register to each other, unbinds
    the node the register held, writes nothing, and keeps the registers
    and the nodes in agreement. *)
Theorem assign_binds_both (x : Expression) (r : Register) (s : State) :
  consistent s →
  (∀ n, node s r = Some n → addr_of n ≠ addr_of x) →
  ∃ s',
    assign (Some x) (Some r) s = Returned tt s'
    ∧ node s' r = Some x
    ∧ reg s' !! addr_of x = Some r
    ∧ (∀ n, node s r = Some n → reg s' !! addr_of n = None)
    ∧ consistent s'
    ∧ stdout s' = stdout s
    ∧ offset s' = offset s
    ∧ slot s' = slot s.
Proof.
  intros Hc Hn.
  destruct (assign_binds x r s Hn) as (s' & E & Hb & Hnode & Hreg).
  exists s'. split; [done|]. split; [done|]. split; [done|].
  pose proof (assign_consistent _ _ _ _ Hc E) as Hc'.
  destruct (rebinds_fields _ _ Hb) as (_ & Ho & Hsl & Hout & _).
  split; [|done].
  intros n Hx. specialize (Hn n Hx).
  destruct (reg s' !! addr_of n) as [q|] eqn:Eq; [|done]. exfalso.
  destruct Hc' as [H1 H2]. destruct (H1 _ _ Eq) as (m & Hm & Ha).
  destruct (decide (q = r)) as [->|Hqr].
  - rewrite Hnode in Hm. injection Hm as <-. done.
  - destruct (assign_effect (Some x) (Some r) s)
      as (s'' & E' & _ & Hnodes & _).
    rewrite E in E'. injection E' as <-.
    rewrite (Hnodes q) in Hm by (by intros [= ->]).
    destruct (decide (reg s !! addr_of x = Some q)); [done|].
    destruct Hc as [H3 H4]. pose proof (H4 _ _ Hm) as Hq.
    pose proof (H4 _ _ Hx) as Hr. rewrite Ha in Hq. congruence.
Qed.

Lemma assign_binds_both_witness :
  ∃ s',
    assign (Some local_x) (Some rax) state_held = Returned tt s'
    ∧ node s' rax = Some local_x
    ∧ reg s' !! addr_of local_x = Some rax
    ∧ (∀ n, node state_held rax = Some n → reg s' !! addr_of n = None)
    ∧ consistent s'
    ∧ stdout s' = stdout state_held
    ∧ offset s' = offset state_held
    ∧ slot s' = slot state_held.
Proof.
  apply (assign_binds_both local_x rax state_held).
  - split.
    + intros a r H. unfold state_held in H. simpl in H.
      apply lookup_insert_Some in H as [[<- <-]|[_ H]]; [|done].
      by exists held_node.
    + intros r n H. unfold state_held in H. simpl in H.
      destruct (decide (r = rax)) as [->|]; [|done].
      injection H as <-. reflexivity.
  - intros n [= <-]. done.
Defined.

(** [first_free] returns the first register of the pool that holds no
    node, and none when every register of the pool holds one. *)
Theorem first_free_first (s : State) (pool : list Register) :
  match first_free s pool with
  | Some r =>
      ∃ before after,
        pool = before ++ r :: after
        ∧ node s r = None
        ∧ Forall (λ q, node s q ≠ None) before
  | None => Forall (λ q, node s q ≠ None) pool
  end.
Proof.
  induction pool as [|q pool IH]; simpl; [constructor|].
  destruct (node s q) as [n|] eqn:En.
  - destruct (first_free s pool) as [r|].
    + destruct IH as (before & after & -> & Hr & Hb).
      exists (q :: before), after. split; [done|]. split; [done|].
      constructor; [by rewrite En|done].
    + constructor; [by rewrite En|done].
  - exists [], pool. split; [done|]. split; [done|]. constructor.
Qed.

(** [getreg] returns the first register that holds no node and changes
    nothing; when every register holds a node it writes the [mov] that
    stores [%rax] in a new slot of the frame and returns [%rax], which
    then holds no node. *)
Theorem getreg_spec (s : State) :
  (∀ r, first_free s registers = Some r →
     getreg s = Returned r s ∧ node s r = None)
  ∧ (first_free s registers = None →
     (∀ n, node s rax = Some n → sized n) →
     ∃ n s',
       node s rax = Some n
       ∧ getreg s = Returned rax s'
       ∧ node s' rax = None
       ∧ stdout s'
         = stdout s ++
           [Ins ("mov" +:+ suffix (size (type_of n)))
              [Rg (Register_name rax (size (type_of n)));
               Frame (to_int (offset s - Z.of_N (size (type_of n))))]]
       ∧ slot s' !! addr_of n
         = Some (to_int (offset s - Z.of_N (size (type_of n))))).
Proof.
  split.
  - intros r Hr. split; [by apply getreg_free|].
    by apply first_free_Some in Hr as [_ Hr].
  - intros Hfull Hsized.
    destruct (node s rax) as [n|] eqn:En.
    2:{ exfalso. apply (first_free_None s registers rax Hfull); [|done].
        unfold registers. apply elem_of_cons. by left. }
    exists n.
    destruct (load_other None rax s) as
      (s' & E & Hout & _ & _ & Hoff & Hslot & Hnode & _).
    { by rewrite En. }
    { intros m Hm. apply Hsized. congruence. }
    { by intros x [=]. }
    exists s'. split; [done|]. split.
    { unfold getreg, bind, get. rewrite Hfull. simpl. by rewrite E. }
    split; [done|]. split.
    + rewrite Hout. unfold spill_line, fill_line. rewrite En.
      by rewrite app_nil_r.
    + rewrite En in Hslot, Hoff. rewrite Hslot, lookup_insert_eq.
      by rewrite Hoff.
Qed.

(** ** What the generator leaves alone *)

(** The generator writes no diagnostic and never calls [exit]; it leaves
    the scopes and the supply of addresses as they are, and changes the
    type of no symbol. *)
Theorem generator_backstage :
  (∀ e, respects backstage (generate e))
  ∧ (∀ stmt, respects backstage (Statement_generate stmt))
  ∧ (∀ f offset, respects backstage (Function_allocate f offset))
  ∧ (∀ f, respects backstage (Function_generate f)).
Proof.
  split; [apply stays_generate|]. split; [apply stays_Statement_generate|].
  split; [intros; apply stays_Function_allocate|].
  apply stays_Function_generate.
Qed.

(** The output grows at its end only, and the counter of the labels does
    not go back. *)
Definition appends (s s' : State) : Prop :=
  (∃ lines, stdout s' = stdout s ++ lines) ∧ (counter s ≤ counter s')%N.

#[local] Instance appends_preorder : PreOrder appends.
Proof.
  split.
  - intros s. split; [|done]. exists []. by rewrite app_nil_r.
  - intros a b c [[l1 H1] H2] [[l2 H3] H4]. split; [|lia].
    exists (l1 ++ l2). by rewrite H3, H1, app_assoc.
Qed.

Ltac appends_leaf :=
  unfold appends; simpl; split;
  [ first [ by eexists | by exists []; rewrite app_nil_r ] | lia ].
Ltac grows := respects_with appends_leaf.

Lemma grows_new_Label : respects appends new_Label.
Proof.
  intros s. unfold new_Label, bind, get, modify, ret. simpl.
  split; [|simpl; lia]. exists []. by rewrite app_nil_r.
Qed.
#[local] Hint Resolve grows_new_Label : respects.

Lemma grows_set_Symbol_offset a o : respects appends (set_Symbol_offset a o).
Proof. unfold set_Symbol_offset. grows. Qed.
#[local] Hint Resolve grows_set_Symbol_offset : respects.

Lemma grows_allocate_symbols symbols :
  ∀ offset, respects appends (allocate_symbols symbols offset).
Proof. induction symbols as [|a r IH]; intros offset; simpl; grows. Qed.
#[local] Hint Resolve grows_allocate_symbols : respects.

Lemma grows_Statement_allocate stmt :
  ∀ offset, respects appends (Statement_allocate stmt offset).
Proof.
  induction stmt as [e|l r|e| |e b IHb|i e c b IHi IHc IHb|e t IHt
                    |e t t' IHt IHt'|ds ss Hss] using Statement_nested_ind;
    intros offset; simpl; try solve [grows].
  apply respects_bind; [exact _|grows|]. intros o. generalize o at 2.
  induction Hss as [|x r Hx Hr IH]; intros acc; grows.
Qed.
#[local] Hint Resolve grows_Statement_allocate : respects.

Lemma grows_align_parameter fuel :
  ∀ offset, respects appends (align_parameter fuel offset).
Proof. induction fuel as [|fuel IH]; intros offset; simpl; grows. Qed.
#[local] Hint Resolve grows_align_parameter : respects.

Lemma grows_allocate_stack_parameters types symbols n :
  ∀ i offset,
    respects appends (allocate_stack_parameters types symbols n i offset).
Proof.
  induction n as [|n IH]; intros i offset;
    cbn [allocate_stack_parameters]; grows.
Qed.
#[local] Hint Resolve grows_allocate_stack_parameters : respects.

Lemma grows_allocate_register_parameters types symbols n :
  ∀ i offset,
    respects appends (allocate_register_parameters types symbols n i offset).
Proof. induction n as [|n IH]; intros i offset; simpl; grows. Qed.
#[local] Hint Resolve grows_allocate_register_parameters : respects.

Lemma grows_Function_allocate f offset :
  respects appends (Function_allocate f offset).
Proof. unfold Function_allocate. grows. Qed.
#[local] Hint Resolve grows_Function_allocate : respects.

Lemma grows_set_node_at r v : respects appends (set_node_at r v).
Proof. unfold set_node_at. grows. Qed.
#[local] Hint Resolve grows_set_node_at : respects.

Lemma grows_set_reg_at a v : respects appends (set_reg_at a v).
Proof. unfold set_reg_at. grows. Qed.
#[local] Hint Resolve grows_set_reg_at : respects.

Lemma grows_set_slot_at a v : respects appends (set_slot_at a v).
Proof. unfold set_slot_at. grows. Qed.
#[local] Hint Resolve grows_set_slot_at : respects.

Lemma grows_emit l : respects appends (emit l).
Proof. unfold emit. grows. Qed.
#[local] Hint Resolve grows_emit : respects.

Lemma grows_assign expr r : respects appends (assign expr r).
Proof. unfold assign. grows. Qed.
#[local] Hint Resolve grows_assign : respects.

Lemma grows_suffix_of expr : respects appends (suffix_of expr).
Proof. unfold suffix_of. grows. Qed.
#[local] Hint Resolve grows_suffix_of : respects.

Lemma grows_Register_operand r : respects appends (Register_operand r).
Proof. unfold Register_operand. grows. Qed.
#[local] Hint Resolve grows_Register_operand : respects.

Lemma grows_Expression_operand expr : respects appends (Expression_operand expr).
Proof. unfold Expression_operand. grows. Qed.
#[local] Hint Resolve grows_Expression_operand : respects.

Lemma grows_operand expr : respects appends (operand expr).
Proof. unfold operand. grows. Qed.
#[local] Hint Resolve grows_operand : respects.

Lemma grows_load expr r : respects appends (load expr r).
Proof. unfold load. grows. Qed.
#[local] Hint Resolve grows_load : respects.

Lemma grows_getreg  : respects appends (getreg ).
Proof. unfold getreg. grows. Qed.
#[local] Hint Resolve grows_getreg : respects.

Lemma grows_reg_of expr : respects appends (reg_of expr).
Proof. unfold reg_of. grows. Qed.
#[local] Hint Resolve grows_reg_of : respects.

Lemma grows_load_if_unbound expr target :
  respects appends target → respects appends (load_if_unbound expr target).
Proof. intros H. unfold load_if_unbound. grows. Qed.
#[local] Hint Resolve grows_load_if_unbound : respects.
#[local] Hint Extern 1 (respects appends (ret _)) =>
  apply respects_ret; exact _ : respects.

Lemma grows_sign_extend_byte_arg arg : respects appends (sign_extend_byte_arg arg).
Proof. unfold sign_extend_byte_arg. grows. Qed.
#[local] Hint Resolve grows_sign_extend_byte_arg : respects.

Lemma grows_Call_argument args i numBytes : respects appends (Call_argument args i numBytes).
Proof. unfold Call_argument. grows. Qed.
#[local] Hint Resolve grows_Call_argument : respects.

Lemma grows_Call_emit this id args : respects appends (Call_emit this id args).
Proof. unfold Call_emit. grows. Qed.
#[local] Hint Resolve grows_Call_emit : respects.

Lemma grows_arithmetic_emit opcode this l r : respects appends (arithmetic_emit opcode this l r).
Proof. unfold arithmetic_emit. grows. Qed.
#[local] Hint Resolve grows_arithmetic_emit : respects.

Lemma grows_division_operands l r : respects appends (division_operands l r).
Proof. unfold division_operands. grows. Qed.
#[local] Hint Resolve grows_division_operands : respects.

Lemma grows_division_emit result this l r : respects appends (division_emit result this l r).
Proof. unfold division_emit. grows. Qed.
#[local] Hint Resolve grows_division_emit : respects.

Lemma grows_comparison_result setcc this l : respects appends (comparison_result setcc this l).
Proof. unfold comparison_result. grows. Qed.
#[local] Hint Resolve grows_comparison_result : respects.

Lemma grows_comparison_emit setcc this l r : respects appends (comparison_emit setcc this l r).
Proof. unfold comparison_emit. grows. Qed.
#[local] Hint Resolve grows_comparison_emit : respects.

Lemma grows_Not_emit this expr : respects appends (Not_emit this expr).
Proof. unfold Not_emit. grows. Qed.
#[local] Hint Resolve grows_Not_emit : respects.

Lemma grows_Negate_emit this expr : respects appends (Negate_emit this expr).
Proof. unfold Negate_emit. grows. Qed.
#[local] Hint Resolve grows_Negate_emit : respects.

Lemma grows_generate_pointer e :
  respects appends (generate e)
  ∧ match e with
    | Dereference _ _ pointer => respects appends (generate pointer)
    | _ => True
    end.
Proof.
  induction e as [a t value|a t value|a t symbol|a t id args IH
                 |a t e IHe|a t e IHe|a t e IHe|a t e IHe|a t e IHe
                 |a t l r IHl IHr|a t l r IHl IHr|a t l r IHl IHr
                 |a t l r IHl IHr|a t l r IHl IHr|a t l r IHl IHr
                 |a t l r IHl IHr|a t l r IHl IHr|a t l r IHl IHr
                 |a t l r IHl IHr|a t l r IHl IHr|a t l r IHl IHr
                 |a t l r IHl IHr] using Expression_nested_ind;
    try destruct IHe as [IHe IHp]; try destruct IHl as [IHl _];
    try destruct IHr as [IHr _];
    (split; [|try done]); cbn [generate]; try solve [grows].
  apply respects_bind; [exact _| |intros; grows].
  induction IH as [|x r [Hx _] Hr IH]; grows.
Qed.

Lemma grows_generate e : respects appends (generate e).
Proof. apply grows_generate_pointer. Qed.
#[local] Hint Resolve grows_generate : respects.

Lemma grows_test this label ifTrue : respects appends (test this label ifTrue).
Proof. unfold test. grows. Qed.
#[local] Hint Resolve grows_test : respects.

Lemma grows_Assignment_generate l r : respects appends (Assignment_generate l r).
Proof. unfold Assignment_generate. grows. Qed.
#[local] Hint Resolve grows_Assignment_generate : respects.

Lemma grows_Statement_generate stmt :
  respects appends (Statement_generate stmt).
Proof.
  induction stmt as [e|l r|e| |e b IHb|i e c b IHi IHc IHb|e t IHt
                    |e t t' IHt IHt'|ds ss Hss] using Statement_nested_ind;
    cbn [Statement_generate]; try solve [grows].
  induction Hss as [|x r Hx Hr IH]; grows.
Qed.
#[local] Hint Resolve grows_Statement_generate : respects.

Lemma grows_spill_parameters types symbols n :
  ∀ i, respects appends (spill_parameters types symbols n i).
Proof. induction n as [|n IH]; intros i; simpl; grows. Qed.
#[local] Hint Resolve grows_spill_parameters : respects.

Lemma grows_Function_generate f : respects appends (Function_generate f).
Proof. unfold Function_generate. grows. Qed.
#[local] Hint Resolve grows_Function_generate : respects.

Lemma grows_generateGlobals scope : respects appends (generateGlobals scope).
Proof. unfold generateGlobals. grows. Qed.
#[local] Hint Resolve grows_generateGlobals : respects.


(** [load] keeps the registers and the nodes in agreement; a register
    other than the one loaded keeps its node, but for the register the
    expression was in, which holds no node afterwards. *)
Theorem load_keeps_agreement e r s s' :
  consistent s →
  load e r s = Returned tt s' →
  consistent s'
  ∧ ∀ q, q ≠ r →
      node s' q
      = match e with
        | Some x =>
            if decide (reg s !! addr_of x = Some q) then None else node s q
        | None => node s q
        end.
Proof.
  intros Hc E. split; [by eapply load_consistent|].
  by destruct (load_frame e r s s' Hc E) as [H _].
Qed.

Lemma load_keeps_agreement_witness :
  ∃ s',
    load (Some local_x) rax state_held = Returned tt s'
    ∧ consistent s'
    ∧ ∀ q, q ≠ rax →
        node s' q
        = if decide (reg state_held !! addr_of local_x = Some q)
          then None else node state_held q.
Proof.
  eexists. split; [vm_compute; reflexivity|].
  apply (load_keeps_agreement (Some local_x) rax state_held).
  - split.
    + intros a r H. unfold state_held in H. simpl in H.
      apply lookup_insert_Some in H as [[<- <-]|[_ H]]; [|done].
      by exists held_node.
    + intros r n H. unfold state_held in H. simpl in H.
      destruct (decide (r = rax)) as [->|]; [|done].
      injection H as <-. reflexivity.
  - vm_compute. reflexivity.
Defined.

(** ** The scopes at the end of the input *)

(** When the loop over the input has returned, the one scope that is open
    is the global one; no symbol is in it twice, and each of its symbols
    is there with a type that is not the error type. *)
Theorem global_scope_at_end input s s1 :
  scopes s = [] →
  for_each input parser.functionOrGlobal (set_scopes [[]] s)
  = Returned tt s1 →
  ∃ global,
    scopes s1 = [global]
    ∧ NoDup global
    ∧ Forall (declared s1) global
    ∧ Forall (λ a, (a < next s1)%positive) global.
Proof.
  intros Hs Hloop.
  assert (scoped 1 (set_scopes [[]] s)) as H0.
  { unfold scoped. simpl. split; [done|]. split; [constructor|].
    split; [by intros a ?%elem_of_nil|]. intros g [= <-]. constructor. }
  pose proof (translation_unit_scoped input _ H0) as H. rewrite Hloop in H.
  destruct H as (H1 & H2 & H3 & H4).
  destruct (scopes s1) as [|global [|x r]] eqn:Es; try done.
  exists global. simpl in H2, H3. rewrite app_nil_r in H2.
  split; [done|]. split; [done|]. split; [by apply H4|].
  apply Forall_forall. intros a Ha. apply H3. by rewrite app_nil_r.
Qed.

Lemma global_scope_at_end_witness :
  ∃ s1 global,
    for_each undeclared_then_global parser.functionOrGlobal
      (set_scopes [[]] initial)
    = Returned tt s1
    ∧ scopes s1 = [global]
    ∧ NoDup global
    ∧ Forall (declared s1) global
    ∧ Forall (λ a, (a < next s1)%positive) global.
Proof.
  eexists.
  assert (∀ s1,
            for_each undeclared_then_global parser.functionOrGlobal
              (set_scopes [[]] initial) = Returned tt s1 →
            ∃ global,
              for_each undeclared_then_global parser.functionOrGlobal
                (set_scopes [[]] initial) = Returned tt s1
              ∧ scopes s1 = [global]
              ∧ NoDup global
              ∧ Forall (declared s1) global
              ∧ Forall (λ a, (a < next s1)%positive) global) as H.
  { intros s1 Hloop.
    destruct (global_scope_at_end undeclared_then_global initial s1
                eq_refl Hloop) as (g & H).
    by exists g. }
  apply H. vm_compute. reflexivity.
Defined.

Definition state_full : State :=
  set_node (λ _, Some held_node) (set_offset (-4) initial).

Lemma getreg_spec_witness :
  ∃ n s',
    node state_full rax = Some n
    ∧ getreg state_full = Returned rax s'
    ∧ node s' rax = None
    ∧ stdout s'
      = stdout state_full ++
        [Ins ("mov" +:+ suffix (size (type_of n)))
           [Rg (Register_name rax (size (type_of n)));
            Frame (to_int (offset state_full - Z.of_N (size (type_of n))))]]
    ∧ slot s' !! addr_of n
      = Some (to_int (offset state_full - Z.of_N (size (type_of n)))).
Proof.
  apply (proj2 (getreg_spec state_full)).
  - reflexivity.
  - intros n [= <-]. reflexivity.
Defined.

(** ** The depth of the loops *)

(** The depth of the loops is left as it is. *)
Definition level (s s' : State) : Prop := loopDepth s' = loopDepth s.

#[local] Instance level_preorder : PreOrder level.
Proof.
  split; [by intros s|]. intros a b c H1 H2. unfold level in *. congruence.
Qed.

Ltac level_leaf := unfold level; simpl; done.
Ltac levels := respects_with level_leaf.

Lemma levels_fresh : respects level fresh.
Proof. intros s. unfold fresh, bind, get, modify, ret. level_leaf. Qed.
#[local] Hint Resolve levels_fresh : respects.

Lemma levels_report message arg : respects level (report message arg).
Proof. unfold report. levels. Qed.
#[local] Hint Resolve levels_report : respects.

Lemma levels_cast expr t : respects level (cast expr t).
Proof. unfold cast. levels. Qed.
#[local] Hint Resolve levels_cast : respects.

Lemma levels_promote expr : respects level (promote expr).
Proof. unfold promote. levels. Qed.
#[local] Hint Resolve levels_promote : respects.

Lemma levels_decay expr : respects level (decay expr).
Proof. unfold decay. levels. Qed.
#[local] Hint Resolve levels_decay : respects.

Lemma levels_extend expr t : respects level (extend expr t).
Proof. unfold extend. levels. Qed.
#[local] Hint Resolve levels_extend : respects.

Lemma levels_scale expr n : respects level (scale expr n).
Proof. unfold scale. levels. Qed.
#[local] Hint Resolve levels_scale : respects.

Lemma levels_invalid_call msg id args : respects level (invalid_call msg id args).
Proof. unfold invalid_call. levels. Qed.
#[local] Hint Resolve levels_invalid_call : respects.

Lemma levels_checkCall_parameters id types n :
  ∀ i args, respects level (checkCall_parameters id types n i args).
Proof. induction n as [|n IH]; intros i args; simpl; levels. Qed.
#[local] Hint Resolve levels_checkCall_parameters : respects.

Lemma levels_checkCall_variadic fuel id :
  ∀ i args, respects level (checkCall_variadic fuel id i args).
Proof. induction fuel as [|fuel IH]; intros i args; simpl; levels. Qed.
#[local] Hint Resolve levels_checkCall_variadic : respects.

Lemma levels_checkCall fuel id args : respects level (checkCall fuel id args).
Proof. unfold checkCall. levels. Qed.
#[local] Hint Resolve levels_checkCall : respects.

Lemma levels_checkArray l r : respects level (checkArray l r).
Proof. unfold checkArray. levels. Qed.
#[local] Hint Resolve levels_checkArray : respects.

Lemma levels_checkNot expr : respects level (checkNot expr).
Proof. unfold checkNot. levels. Qed.
#[local] Hint Resolve levels_checkNot : respects.

Lemma levels_checkNegate expr : respects level (checkNegate expr).
Proof. unfold checkNegate. levels. Qed.
#[local] Hint Resolve levels_checkNegate : respects.

Lemma levels_checkDereference expr : respects level (checkDereference expr).
Proof. unfold checkDereference. levels. Qed.
#[local] Hint Resolve levels_checkDereference : respects.

Lemma levels_checkAddress expr : respects level (checkAddress expr).
Proof. unfold checkAddress. levels. Qed.
#[local] Hint Resolve levels_checkAddress : respects.

Lemma levels_checkSizeof expr : respects level (checkSizeof expr).
Proof. unfold checkSizeof. levels. Qed.
#[local] Hint Resolve levels_checkSizeof : respects.

Lemma levels_checkCast t expr : respects level (checkCast t expr).
Proof. unfold checkCast. levels. Qed.
#[local] Hint Resolve levels_checkCast : respects.

Lemma levels_checkMultiplicative l r make :
  respects level (checkMultiplicative l r make).
Proof. unfold checkMultiplicative. levels. Qed.
#[local] Hint Resolve levels_checkMultiplicative : respects.

Lemma levels_checkComparative l r make :
  respects level (checkComparative l r make).
Proof. unfold checkComparative. levels. Qed.
#[local] Hint Resolve levels_checkComparative : respects.

Lemma levels_checkLogical l r make :
  respects level (checkLogical l r make).
Proof. unfold checkLogical. levels. Qed.
#[local] Hint Resolve levels_checkLogical : respects.

Lemma levels_checkMultiply l r : respects level (checkMultiply l r).
Proof. unfold checkMultiply. levels. Qed.
#[local] Hint Resolve levels_checkMultiply : respects.

Lemma levels_checkDivide l r : respects level (checkDivide l r).
Proof. unfold checkDivide. levels. Qed.
#[local] Hint Resolve levels_checkDivide : respects.

Lemma levels_checkRemainder l r : respects level (checkRemainder l r).
Proof. unfold checkRemainder. levels. Qed.
#[local] Hint Resolve levels_checkRemainder : respects.

Lemma levels_checkAdd l r : respects level (checkAdd l r).
Proof. unfold checkAdd. levels. Qed.
#[local] Hint Resolve levels_checkAdd : respects.

Lemma levels_checkSubtract l r : respects level (checkSubtract l r).
Proof. unfold checkSubtract. levels. Qed.
#[local] Hint Resolve levels_checkSubtract : respects.

Lemma levels_checkLessThan l r : respects level (checkLessThan l r).
Proof. unfold checkLessThan. levels. Qed.
#[local] Hint Resolve levels_checkLessThan : respects.

Lemma levels_checkGreaterThan l r : respects level (checkGreaterThan l r).
Proof. unfold checkGreaterThan. levels. Qed.
#[local] Hint Resolve levels_checkGreaterThan : respects.

Lemma levels_checkLessOrEqual l r : respects level (checkLessOrEqual l r).
Proof. unfold checkLessOrEqual. levels. Qed.
#[local] Hint Resolve levels_checkLessOrEqual : respects.

Lemma levels_checkGreaterOrEqual l r : respects level (checkGreaterOrEqual l r).
Proof. unfold checkGreaterOrEqual. levels. Qed.
#[local] Hint Resolve levels_checkGreaterOrEqual : respects.

Lemma levels_checkEqual l r : respects level (checkEqual l r).
Proof. unfold checkEqual. levels. Qed.
#[local] Hint Resolve levels_checkEqual : respects.

Lemma levels_checkNotEqual l r : respects level (checkNotEqual l r).
Proof. unfold checkNotEqual. levels. Qed.
#[local] Hint Resolve levels_checkNotEqual : respects.

Lemma levels_checkLogicalAnd l r : respects level (checkLogicalAnd l r).
Proof. unfold checkLogicalAnd. levels. Qed.
#[local] Hint Resolve levels_checkLogicalAnd : respects.

Lemma levels_checkLogicalOr l r : respects level (checkLogicalOr l r).
Proof. unfold checkLogicalOr. levels. Qed.
#[local] Hint Resolve levels_checkLogicalOr : respects.

Lemma levels_checkTest expr : respects level (checkTest expr).
Proof. unfold checkTest. levels. Qed.
#[local] Hint Resolve levels_checkTest : respects.

Lemma levels_checkAssignment l r : respects level (checkAssignment l r).
Proof. unfold checkAssignment. levels. Qed.
#[local] Hint Resolve levels_checkAssignment : respects.

Lemma levels_checkReturn expr t : respects level (checkReturn expr t).
Proof. unfold checkReturn. levels. Qed.
#[local] Hint Resolve levels_checkReturn : respects.

Lemma levels_checkBreak depth : respects level (checkBreak depth).
Proof. unfold checkBreak. levels. Qed.
#[local] Hint Resolve levels_checkBreak : respects.

Lemma levels_openScope  : respects level (openScope ).
Proof. unfold openScope. levels. Qed.
#[local] Hint Resolve levels_openScope : respects.

Lemma levels_closeScope b : respects level (closeScope b).
Proof. unfold closeScope. levels. Qed.
#[local] Hint Resolve levels_closeScope : respects.

Lemma levels_new_Symbol name t : respects level (new_Symbol name t).
Proof. unfold new_Symbol. levels. Qed.
#[local] Hint Resolve levels_new_Symbol : respects.

Lemma levels_insert_current a : respects level (insert_current a).
Proof. unfold insert_current. levels. Qed.
#[local] Hint Resolve levels_insert_current : respects.

Lemma levels_insert_global a : respects level (insert_global a).
Proof. unfold insert_global. levels. Qed.
#[local] Hint Resolve levels_insert_global : respects.

Lemma levels_declareVariable name t : respects level (declareVariable name t).
Proof. unfold declareVariable. levels. Qed.
#[local] Hint Resolve levels_declareVariable : respects.

Lemma levels_declareFunction name t : respects level (declareFunction name t).
Proof. unfold declareFunction. levels. Qed.
#[local] Hint Resolve levels_declareFunction : respects.

Lemma levels_checkIdentifier name : respects level (checkIdentifier name).
Proof. unfold checkIdentifier. levels. Qed.
#[local] Hint Resolve levels_checkIdentifier : respects.

(** The depth of the loops is [d] when [m] returns, if it was [d] when
    [m] was called. *)
Definition keeps_level {A} (d : N) (m : M A) : Prop :=
  triple (λ _ _, True) (λ s, loopDepth s = d) m (λ s, loopDepth s = d).

Lemma keeps_level_respects {A} d (m : M A) :
  respects level m → keeps_level d m.
Proof.
  apply (triple_respects _ level (λ s, loopDepth s = d)).
  intros s s' H Hs. unfold level in H. congruence.
Qed.

Lemma keeps_level_bind {A B} d (m : M A) (k : A → M B) :
  keeps_level d m → (∀ a, keeps_level d (k a)) →
  keeps_level d (x <- m;; k x).
Proof. apply triple_bind. Qed.

Lemma keeps_level_error {A} d lexbuf : keeps_level d (@parser.error A lexbuf).
Proof.
  intros s Hs. unfold parser.error, bind, report, modify, exit.
  by destruct lexbuf.
Qed.

Lemma keeps_level_for_each {A} d (xs : list A) body :
  (∀ x, keeps_level d (body x)) → keeps_level d (for_each xs body).
Proof. apply triple_for_each. Qed.

Ltac leveled :=
  repeat
    lazymatch goal with
    | |- keeps_level _ (bind _ _) => apply keeps_level_bind; [| intros ?]
    | |- keeps_level _ (for_each _ _) =>
        apply keeps_level_for_each; intros ?
    | |- keeps_level _ (parser.error _) => apply keeps_level_error
    | |- keeps_level _ (if ?b then _ else _) => destruct b
    | |- keeps_level _ (match ?x with _ => _ end) => destruct x
    | |- keeps_level _ _ =>
        first [ eassumption
              | solve [eauto 2]
              | apply keeps_level_respects; solve [levels] ]
    end.

Lemma keeps_level_expression p : ∀ d, keeps_level d (parser.expression p).
Proof.
  induction p as [bytes|value|value t|name|name args IH|l r IHl IHr
                 |op e IHe|typespec pointers|typespec pointers e IHe
                 |op l r IHl IHr|lexbuf] using Phrase_nested_ind;
    intros d; cbn [parser.expression]; try solve [leveled].
  apply keeps_level_bind; [leveled|]. intros symbol.
  apply keeps_level_bind; [|intros; leveled].
  induction IH as [|x r Hx Hr IHr]; leveled.
Qed.

Lemma keeps_level_declarations d ds :
  keeps_level d (parser.declarations ds).
Proof.
  unfold parser.declarations. apply keeps_level_for_each. intros x.
  unfold parser.declaration. apply keeps_level_for_each. intros y.
  unfold parser.declarator. leveled.
Qed.

Lemma keeps_level_assignment d l r :
  keeps_level d (parser.assignment l r).
Proof.
  pose proof keeps_level_expression.
  unfold parser.assignment. leveled.
Qed.

(** After a statement is analysed the depth of the loops is what it was
    before: it is one more while the body of a [while] or of a [for] is
    analysed, and is taken back after it. *)
Theorem statement_keeps_loopDepth st :
  ∀ s, (loopDepth s < 2 ^ 32)%N →
    match parser.statement st s with
    | Returned _ s' => loopDepth s' = loopDepth s
    | Exited _ _ | Aborted | OutOfFuel => True
    end.
Proof.
  assert (∀ d, (d < 2 ^ 32)%N → keeps_level d (parser.statement st)) as H.
  { pose proof keeps_level_expression as He.
    pose proof keeps_level_assignment as Ha.
    pose proof keeps_level_declarations as Hd.
    assert (∀ d, (d < 2 ^ 32)%N →
              (to_unsigned (d + 1) < 2 ^ 32)%N
              ∧ to_unsigned (to_unsigned (d + 1) + (2 ^ 32 - 1)) = d)
      as Hwrap.
    { intros d Hd'. unfold to_unsigned. split.
      - apply N.mod_upper_bound. done.
      - rewrite N.Div0.add_mod_idemp_l.
        replace (d + 1 + (2 ^ 32 - 1))%N with (d + 1 * 2 ^ 32)%N by lia.
        rewrite N.Div0.mod_add. by apply N.mod_small. }
    assert (∀ d (body : M Statement) (k : Statement → Statement),
              (d < 2 ^ 32)%N →
              keeps_level (to_unsigned (d + 1)) body →
              triple (λ _ _, True) (λ s, loopDepth s = d)
                (modify (λ s, set_loopDepth (to_unsigned (loopDepth s + 1)) s);;
                 stmt <- body;;
                 modify (λ s, set_loopDepth
                                (to_unsigned (loopDepth s + (2 ^ 32 - 1))) s);;
                 ret (k stmt))
                (λ s, loopDepth s = d)) as Hloop.
    { intros d body k Hd' Hbody.
      destruct (Hwrap d Hd') as [_ Hback].
      apply (triple_bind _ _ (λ s, loopDepth s = to_unsigned (d + 1))).
      { intros s Hs. unfold modify. simpl. by rewrite Hs. }
      intros _.
      apply (triple_bind _ _ (λ s, loopDepth s = to_unsigned (d + 1)));
        [exact Hbody|].
      intros stmt.
      apply (triple_bind _ _ (λ s, loopDepth s = d)).
      { intros s Hs. unfold modify. simpl. by rewrite Hs. }
      intros _. by intros s Hs. }
    induction st as [decls stmts IH| |e|e body IHb|init e incr body IHb
                    |e t IHt|e t f IHt IHf|l r|lexbuf]
      using Sentence_nested_ind; intros d Hd'; cbn [parser.statement].
    - apply keeps_level_bind; [leveled|]. intros _.
      apply keeps_level_bind; [leveled|]. intros _.
      apply keeps_level_bind; [|intros; leveled].
      induction IH as [|x r Hx Hr IHr]; [leveled|].
      apply keeps_level_bind; [by apply Hx|]. intros stmt.
      apply keeps_level_bind; [apply IHr|]. intros. leveled.
    - leveled.
    - leveled.
    - apply keeps_level_bind; [leveled|]. intros expr.
      apply keeps_level_bind; [leveled|]. intros expr'.
      apply Hloop; [done|]. apply IHb. by apply Hwrap.
    - apply keeps_level_bind; [leveled|]. intros init'.
      apply keeps_level_bind; [leveled|]. intros expr.
      apply keeps_level_bind; [leveled|]. intros expr'.
      apply keeps_level_bind; [leveled|]. intros incr'.
      apply Hloop; [done|]. apply IHb. by apply Hwrap.
    - apply keeps_level_bind; [leveled|]. intros expr.
      apply keeps_level_bind; [leveled|]. intros expr'.
      apply keeps_level_bind; [by apply IHt|]. intros. leveled.
    - apply keeps_level_bind; [leveled|]. intros expr.
      apply keeps_level_bind; [leveled|]. intros expr'.
      apply keeps_level_bind; [by apply IHt|]. intros.
      apply keeps_level_bind; [by apply IHf|]. intros. leveled.
    - leveled.
    - leveled. }
  intros s Hs. specialize (H (loopDepth s) Hs s eq_refl).
  by destruct (parser.statement st s).
Qed.

(** [while (1) break;] *)
Definition while_break : parser.Sentence :=
  parser.S_while (parser.P_number 1 integer) parser.S_break.

Lemma statement_keeps_loopDepth_witness :
  ∃ stmt s',
    parser.statement while_break initial = Returned stmt s'
    ∧ loopDepth s' = loopDepth initial
    ∧ numerrors s' = 0%nat.
Proof.
  pose proof (statement_keeps_loopDepth while_break initial eq_refl) as H.
  destruct (parser.statement while_break initial) as [stmt s'| | |] eqn:E;
    [|vm_compute in E; discriminate ..].
  exists stmt, s'. split; [done|]. split; [exact H|].
  vm_compute in E. injection E as <- <-. reflexivity.
Defined.

(** ** Statements in the generator *)

(** The expressions whose [generate] is the inherited one, which writes
    nothing: literals and identifiers. *)
Definition atom (e : Expression) : bool :=
  match e with
  | Number _ _ _ | String_ _ _ _ | Identifier _ _ _ => true
  | _ => false
  end.

Lemma generate_atom e s : atom e = true → generate e s = Returned tt s.
Proof. by destruct e. Qed.

(** [load] of a node that is in no register into a register that holds
    nothing: one [mov], and nothing else moves. *)
Lemma load_fresh lo x r s :
  frame_ok lo s → ready s x →
  reg s !! addr_of x = None → node s r = None →
  ∃ s' src, written_expression s x = Some src
    ∧ load (Some x) r s = Returned tt s'
    ∧ stdout s'
      = stdout s ++
        [Ins ("mov" +:+ suffix (size (type_of x)))
           [src; Rg (Register_name r (size (type_of x)))]]
    ∧ symtab s' = symtab s ∧ offset s' = offset s ∧ slot s' = slot s
    ∧ counter s' = counter s
    ∧ node s' r = Some x ∧ reg s' !! addr_of x = Some r
    ∧ (∀ q, q ≠ r → node s' q = node s q)
    ∧ (∀ a, a ≠ addr_of x → reg s' !! a = reg s !! a)
    ∧ frame_ok lo s'.
Proof.
  intros (Hc & Hh & Ho) (Hs & Hv & Hw) Hx Hr.
  destruct Hw as [[? Hw]|[src Hw]]; [congruence|].
  assert (written s x = Some src) as Hwr by (unfold written; by rewrite Hx).
  assert (same_node (node s r) (Some x) = false) as Hsame by (by rewrite Hr).
  destruct (load_other (Some x) r s Hsame) as
    (s' & E & Hout & Hsym & Hcnt & Hoff & Hslot & Hnode & Hreg).
  { intros n Hn. congruence. }
  { intros ? [= <-]. split; [by apply scalar_sized | by rewrite Hwr]. }
  destruct (load_frame _ _ _ _ Hc E) as [Hfn Hfr].
  rewrite Hr in Hoff, Hslot.
  assert (∀ q, q ≠ r → node s' q = node s q) as Hfn'.
  { intros q Hq. rewrite (Hfn q Hq). case_decide; [congruence | done]. }
  exists s', src. split; [done|]. split; [done|]. split.
  { rewrite Hout. unfold spill_line, fill_line. by rewrite Hr, Hwr. }
  split; [done|]. split; [done|]. split; [done|]. split; [done|].
  split; [done|]. split; [by apply Hreg|]. split; [done|]. split.
  { intros a Ha. apply Hfr; [by intros ? [= <-] | intros n Hn; congruence]. }
  split; [by eapply load_consistent|]. split; [|by rewrite Hoff].
  intros q n Hq. destruct (decide (q = r)) as [->|Hqr].
  - rewrite Hnode in Hq. by injection Hq as <-.
  - rewrite (Hfn' q Hqr) in Hq. by eapply Hh.
Qed.

(** [assign(expr, nullptr)], with what it leaves in place. *)
Lemma assign_release x s :
  ∃ s', assign (Some x) None s = Returned tt s' ∧ rebinds s s'
    ∧ reg s' !! addr_of x = None
    ∧ (∀ q, node s' q
            = if decide (reg s !! addr_of x = Some q) then None else node s q)
    ∧ (∀ a, a ≠ addr_of x → reg s' !! a = reg s !! a).
Proof.
  destruct (assign_effect (Some x) None s) as (s' & E & Hb & Hn & Hr).
  destruct (assign_unbinds x s) as (s'' & E' & _ & Hx).
  rewrite E in E'. injection E' as <-.
  exists s'. split; [done|]. split; [done|]. split; [done|]. split.
  - intros q. by apply Hn.
  - intros a Ha. apply Hr; [by intros ? [= <-] | done].
Qed.

Lemma written_bound s x r :
  reg s !! addr_of x = Some r → node s r = Some x → sized x →
  written s x = Some (Rg (Register_name r (size (type_of x)))).
Proof.
  intros Hx Hr Hs. unfold written, written_register. rewrite Hx, Hr.
  unfold sized in Hs. by rewrite Hs.
Qed.

Lemma written_expression_symtab s s' x :
  symtab s' = symtab s → slot s' = slot s →
  written_expression s' x = written_expression s x.
Proof.
  intros Hs Hl. unfold written_expression, slot_of. by rewrite Hs, Hl.
Qed.

Lemma load_if_unbound_getreg x r s :
  reg s !! addr_of x = None → first_free s registers = Some r →
  load_if_unbound x getreg s = load (Some x) r s.
Proof.
  intros Hx Hr. unfold load_if_unbound, bind, get. rewrite Hx.
  by rewrite (getreg_free _ _ Hr).
Qed.

Lemma emit_returns l s :
  emit l s = Returned tt (set_stdout (stdout s ++ [l]) s).
Proof. done. Qed.

(** How a statement leaves the registers. *)
Definition unmoved (s s' : State) : Prop :=
  (∀ q, node s' q = node s q) ∧ (∀ a, reg s' !! a = reg s !! a)
  ∧ symtab s' = symtab s ∧ offset s' = offset s ∧ slot s' = slot s
  ∧ counter s' = counter s.

(** The two lines of [left = right] for an identifier on the left. *)
Definition store_lines (r : Register) (src dst : Operand) (right : Expression)
    : list Line :=
  let size := size (type_of right) in
  [Ins ("mov" +:+ suffix size) [src; Rg (Register_name r size)];
   Ins ("mov" +:+ suffix size) [Rg (Register_name r size); dst]].

Definition Symbol_operand (sym : Symbol) : Operand :=
  if Symbol_offset sym =? 0 then Global (Symbol_name sym)
  else Frame (Symbol_offset sym).

Lemma Assignment_store lo a t symbol sym right r s :
  frame_ok lo s → atom right = true → ready s right →
  reg s !! addr_of right = None → reg s !! a = None →
  a ≠ addr_of right →
  symtab s !! symbol = Some sym →
  first_free s registers = Some r →
  ∃ s' src, written_expression s right = Some src
    ∧ Assignment_generate (Identifier a t symbol) right s = Returned tt s'
    ∧ stdout s' = stdout s ++ store_lines r src (Symbol_operand sym) right
    ∧ unmoved s s'
    ∧ frame_ok lo s'.
Proof.
  intros Hf Hat Hrd Hright Hleft Hne Hsym Hfree.
  destruct (first_free_Some _ _ _ Hfree) as [_ Hr].
  destruct (load_fresh lo right r s Hf Hrd Hright Hr) as
    (s1 & src & Hsrc & E1 & Hout1 & Hsym1 & Hoff1 & Hslot1 & Hcnt1 & Hn1
        & Hr1 & Hfn1 & Hfr1 & Hf1).
  pose proof (scalar_sized _ (proj1 Hrd)) as Hsz.
  set (s2 := set_stdout (stdout s1 ++
     [Ins ("mov" +:+ suffix (size (type_of right)))
        [Rg (Register_name r (size (type_of right))); Symbol_operand sym]]) s1).
  destruct (assign_release right s2) as (s3 & E3 & Hb3 & Hx3 & Hn3 & Hr3).
  destruct (assign_release (Identifier a t symbol) s3)
    as (s4 & E4 & Hb4 & Hx4 & Hn4 & Hr4).
  destruct (rebinds_fields _ _ Hb3) as (Hs3 & Ho3 & Hl3 & Hout3 & Hc3).
  destruct (rebinds_fields _ _ Hb4) as (Hs4 & Ho4 & Hl4 & Hout4 & Hc4).
  assert (reg s1 !! a = None) as Hleft1 by (by rewrite Hfr1).
  assert (Assignment_generate (Identifier a t symbol) right s
          = Returned tt s4) as E.
  { unfold Assignment_generate, bind. rewrite generate_atom by done. simpl.
    rewrite (load_if_unbound_getreg _ r) by done. rewrite E1.
    rewrite (suffix_of_sized _ _ Hsz).
    rewrite operand_written, (written_bound _ _ r) by done. simpl.
    rewrite operand_written. unfold written. simpl. rewrite Hleft1, Hsym1, Hsym.
    simpl. fold (Symbol_operand sym). fold s2.
    by rewrite E3. }
  exists s4, src. split; [done|]. split; [done|]. split.
  { rewrite Hout4, Hout3. unfold s2. simpl. rewrite Hout1.
    by rewrite <- app_assoc. }
  assert (∀ q, node s4 q = node s q) as Hnode.
  { intros q. rewrite Hn4, Hn3. unfold s2. simpl.
    rewrite Hr1. 
    assert (reg s3 !! a = None) as -> by (rewrite Hr3 by done; done).
    rewrite decide_False by done.
    destruct (decide (Some r = Some q)) as [[= <-]|Hq]; [done|].
    apply Hfn1. congruence. }
  assert (∀ a', reg s4 !! a' = reg s !! a') as Hreg.
  { intros a'. destruct (decide (a' = a)) as [->|Ha]; [by rewrite Hleft|].
    rewrite Hr4 by done.
    destruct (decide (a' = addr_of right)) as [->|Ha']; [by rewrite Hright|].
    rewrite Hr3 by done. unfold s2. simpl. by apply Hfr1. }
  split.
  { split; [done|]. split; [done|]. unfold s2 in *. simpl in *.
    split; [congruence|]. split; [congruence|]. split; congruence. }
  destruct Hf as (Hc & Hh & Ho). split.
  { destruct Hc as [H1 H2]. split.
    - intros a' q. rewrite Hreg, Hnode. apply H1.
    - intros q n. rewrite Hreg, Hnode. apply H2. }
  split.
  { intros q n. rewrite Hnode. apply Hh. }
  unfold s2 in *. simpl in *. lia.
Qed.

Lemma unmoved_refl s : unmoved s s.
Proof. done. Qed.

Lemma unmoved_trans s1 s2 s3 : unmoved s1 s2 → unmoved s2 s3 → unmoved s1 s3.
Proof.
  intros (Hn & Hr & Hs & Ho & Hl & Hc) (Hn' & Hr' & Hs' & Ho' & Hl' & Hc').
  split; [intros q; by rewrite Hn'|]. split; [intros a; by rewrite Hr'|].
  split; [congruence|]. split; [congruence|]. split; congruence.
Qed.

Lemma ready_kept s s' y :
  symtab s' = symtab s → slot s' = slot s →
  reg s' !! addr_of y = reg s !! addr_of y →
  ready s y → ready s' y.
Proof.
  intros Hs Hl Hr (Hy & Hv & Hw). split; [done|]. split; [by rewrite Hs|].
  rewrite Hr. by rewrite (written_expression_symtab s s').
Qed.

(** The assertions of [Block::generate] after a statement. *)
Definition registers_free (pool : list Register) : M unit :=
  for_each pool (λ r, s <- get;; assert_ (bool_decide (node s r = None))).

Lemma registers_free_passes pool s :
  (∀ q, q ∈ pool → node s q = None) →
  registers_free pool s = Returned tt s.
Proof.
  induction pool as [|q pool IH]; intros H; [done|].
  unfold registers_free. simpl. unfold bind, get. simpl.
  rewrite bool_decide_eq_true_2 by (apply H; left). simpl.
  apply IH. intros q' Hq'. apply H. by right.
Qed.

Lemma registers_free_stops pool r s :
  r ∈ pool → node s r ≠ None → registers_free pool s = Aborted.
Proof.
  induction pool as [|q pool IH]; intros Hin Hr; [by apply elem_of_nil in Hin|].
  unfold registers_free. simpl. unfold bind, get. simpl.
  destruct (decide (node s q = None)) as [Hq|Hq].
  - rewrite bool_decide_eq_true_2 by done. simpl.
    apply IH; [|done]. apply elem_of_cons in Hin as [->|Hin]; done.
  - by rewrite bool_decide_eq_false_2.
Qed.

Lemma Block_generate_cons decls stmt rest s :
  Statement_generate (Block decls (stmt :: rest)) s
  = (Statement_generate stmt;; registers_free registers;;
     Statement_generate (Block decls rest)) s.
Proof. done. Qed.

Lemma free_unbound s a :
  consistent s → (∀ q, node s q = None) → reg s !! a = None.
Proof.
  intros [H1 _] Hn. destruct (reg s !! a) as [r|] eqn:E; [|done].
  destruct (H1 _ _ E) as (n & Hq & _). by rewrite Hn in Hq.
Qed.

(** A statement [x = e] with a literal or an identifier for [e]. *)
Definition plain_store (s : State) (stmt : Statement) : Prop :=
  match stmt with
  | Assignment (Identifier a _ symbol) _right =>
      atom _right = true ∧ ready s _right ∧ a ≠ addr_of _right
      ∧ is_Some (symtab s !! symbol)
  | _ => False
  end.

Definition plain_store_lines (s : State) (stmt : Statement) : list Line :=
  match stmt with
  | Assignment (Identifier _ _ symbol) _right =>
      match written_expression s _right, symtab s !! symbol with
      | Some src, Some sym => store_lines rax src (Symbol_operand sym) _right
      | _, _ => []
      end
  | _ => []
  end.

(** A block of statements [x = e], each with a literal or an identifier
    for [e], generated with every register free: the generator returns,
    every register assertion of the block passes, each statement writes
    its two lines, with [%rax] for the register, and registers, frame
    offset and symbols are left as they were. *)
Theorem Block_generate_stores lo decls stmts s :
  frame_ok lo s → (∀ q, node s q = None) →
  Forall (plain_store s) stmts →
  ∃ s', Statement_generate (Block decls stmts) s = Returned tt s'
    ∧ stdout s' = stdout s ++ concat (plain_store_lines s <$> stmts)
    ∧ unmoved s s'.
Proof.
  intros Hf Hfree Hall. revert Hf Hfree.
  assert (∀ s0, unmoved s s0 → frame_ok lo s0 → (∀ q, node s0 q = None) →
    ∃ s', Statement_generate (Block decls stmts) s0 = Returned tt s'
      ∧ stdout s' = stdout s0 ++ concat (plain_store_lines s <$> stmts)
      ∧ unmoved s s') as H; [|by apply H].
  induction Hall as [|stmt stmts Hst Hall IH]; intros s0 Hu Hf Hfree.
  { exists s0. simpl. by rewrite app_nil_r. }
  destruct stmt as [|_left right| | | | | |]; try done.
  destruct _left as [| |a t symbol| | | | | | | | | | | | | | | | | | |];
    try done.
  destruct Hst as (Hat & Hrd & Hne & [sym Hsym]).
  pose proof Hu as (Hun & Hur & Hus & Huo & Hul & Huc).
  assert (ready s0 right) as Hrd0.
  { apply (ready_kept s); [done|done|by rewrite Hur|done]. }
  destruct (Assignment_store lo a t symbol sym right rax s0)
    as (s1 & src & Hsrc & E & Hout & Hu1 & Hf1); try done.
  { apply free_unbound; [apply Hf | done]. }
  { apply free_unbound; [apply Hf | done]. }
  { by rewrite Hus. }
  { unfold registers. simpl. by rewrite Hfree. }
  assert (∀ q, node s1 q = None) as Hfree1.
  { intros q. destruct Hu1 as [-> _]. apply Hfree. }
  destruct (IH s1) as (s' & E' & Hout' & Hu'); [|done|done|].
  { by eapply unmoved_trans. }
  exists s'. rewrite Block_generate_cons. unfold bind at 1.
  change (Statement_generate (Assignment (Identifier a t symbol) right) s0)
    with (Assignment_generate (Identifier a t symbol) right s0).
  rewrite E. unfold bind at 1. rewrite registers_free_passes by done.
  split; [done|]. split; [|done].
  rewrite Hout', Hout. rewrite fmap_cons. simpl.
  rewrite (written_expression_symtab s s0) in Hsrc by done.
  rewrite Hsrc, Hsym. by rewrite <- app_assoc.
Qed.

(** The three lines of [*pointer = right]; the second operand of the last
    one is the pointer's register in parentheses, the first is not
    written. *)
Definition indirect_store_lines (r r' : Register) (ptr src : Operand)
    (pointer _right : Expression) : list Line :=
  [Ins ("mov" +:+ suffix (size (type_of pointer)))
     [ptr; Rg (Register_name r (size (type_of pointer)))];
   Ins ("mov" +:+ suffix (size (type_of _right)))
     [src; Rg (Register_name r' (size (type_of _right)))];
   Ins ("mov" +:+ suffix (size (type_of _right)))
     [Empty; Indirect (Rg (Register_name r (size (type_of pointer))))]].

Lemma Assignment_indirect lo a t pointer _right r r' s :
  frame_ok lo s →
  atom pointer = true → atom _right = true →
  ready s pointer → ready s _right →
  reg s !! addr_of pointer = None → reg s !! addr_of _right = None →
  reg s !! a = None →
  addr_of pointer ≠ addr_of _right → a ≠ addr_of pointer →
  a ≠ addr_of _right →
  first_free s registers = Some r →
  first_free s (filter (λ q, q ≠ r) registers) = Some r' →
  ∃ s' ptr src,
    written_expression s pointer = Some ptr
    ∧ written_expression s _right = Some src
    ∧ Assignment_generate (Dereference a t pointer) _right s = Returned tt s'
    ∧ stdout s' = stdout s ++ indirect_store_lines r r' ptr src pointer _right
    ∧ node s' r = Some pointer
    ∧ reg s' !! addr_of pointer = Some r
    ∧ (∀ q, q ≠ r → node s' q = node s q).
Proof.
  intros Hf Hap Har Hrp Hrr Hp Hright Hleft Hpr Hap' Har' Hfree Hfree'.
  destruct (first_free_Some _ _ _ Hfree) as [Hin Hr].
  destruct (load_fresh lo pointer r s Hf Hrp Hp Hr) as
    (s1 & ptr & Hptr & E1 & Hout1 & Hsym1 & Hoff1 & Hslot1 & Hcnt1 & Hn1
        & Hr1 & Hfn1 & Hfr1 & Hf1).
  assert (first_free s1 registers = Some r') as Hfree1.
  { rewrite (first_free_occupied s1 registers r) by (by rewrite Hn1).
    rewrite <- Hfree'. apply first_free_ext.
    intros q [Hq _]%list_elem_of_filter. by apply Hfn1. }
  destruct (first_free_Some _ _ _ Hfree') as [[Hrr' _]%list_elem_of_filter Hr'].
  assert (node s1 r' = None) as Hr1' by (by rewrite Hfn1).
  assert (ready s1 _right) as Hrr1.
  { apply (ready_kept s); [done|done| |done]. by apply Hfr1. }
  assert (reg s1 !! addr_of _right = None) as Hright1.
  { by rewrite Hfr1. }
  destruct (load_fresh lo _right r' s1 Hf1 Hrr1 Hright1 Hr1') as
    (s2 & src & Hsrc & E2 & Hout2 & Hsym2 & Hoff2 & Hslot2 & Hcnt2 & Hn2
        & Hr2 & Hfn2 & Hfr2 & Hf2).
  pose proof (scalar_sized _ (proj1 Hrp)) as Hszp.
  pose proof (scalar_sized _ (proj1 Hrr)) as Hszr.
  set (s3 := set_stdout (stdout s2 ++
     [Ins ("mov" +:+ suffix (size (type_of _right)))
        [Empty; Indirect (Rg (Register_name r (size (type_of pointer))))]])
     s2).
  destruct (assign_release _right s3) as (s4 & E4 & Hb4 & Hx4 & Hn4 & Hr4).
  destruct (assign_release (Dereference a t pointer) s4)
    as (s5 & E5 & Hb5 & Hx5 & Hn5 & Hr5).
  simpl in Hx5, Hn5, Hr5.
  destruct (rebinds_fields _ _ Hb4) as (Hs4 & Ho4 & Hl4 & Hout4 & Hc4).
  destruct (rebinds_fields _ _ Hb5) as (Hs5 & Ho5 & Hl5 & Hout5 & Hc5).
  assert (reg s2 !! addr_of pointer = Some r) as Hp2 by (by rewrite Hfr2).
  assert (node s2 r = Some pointer) as Hnp2 by (by rewrite Hfn2).
  assert (reg s4 !! a = None) as Hleft4.
  { rewrite Hr4 by done. unfold s3. simpl. rewrite Hfr2 by done.
    by rewrite Hfr1. }
  exists s5, ptr, src. split; [done|]. split.
  { by rewrite <- (written_expression_symtab s s1). }
  split.
  { unfold Assignment_generate, bind. rewrite generate_atom by done. simpl.
    rewrite generate_atom by done.
    rewrite (load_if_unbound_getreg _ r) by done. rewrite E1.
    rewrite (load_if_unbound_getreg _ r') by done. rewrite E2.
    rewrite (suffix_of_sized _ _ Hszr).
    rewrite operand_written, (written_bound _ _ r) by done. simpl.
    fold s3. by rewrite E4. }
  split.
  { rewrite Hout5, Hout4. unfold s3. simpl. rewrite Hout2, Hout1.
    rewrite (written_expression_symtab s s1) in Hsrc by done.
    unfold indirect_store_lines. by rewrite <- !app_assoc. }
  assert (∀ q, node s5 q = if decide (q = r') then None else node s2 q) as Hn.
  { intros q. rewrite Hn5, Hleft4. rewrite decide_False by done.
    rewrite Hn4. unfold s3. simpl. rewrite Hr2.
    destruct (decide (q = r')) as [->|Hq].
    - by rewrite decide_True.
    - rewrite decide_False; [done | congruence]. }
  split.
  { rewrite Hn. by rewrite decide_False. }
  split.
  { rewrite Hr5 by done. rewrite Hr4 by done. done. }
  intros q Hq. rewrite Hn. destruct (decide (q = r')) as [->|Hq']; [done|].
  rewrite Hfn2 by done. by apply Hfn1.
Qed.

Lemma written_kept s s' y :
  symtab s' = symtab s → slot s' = slot s →
  reg s' !! addr_of y = reg s !! addr_of y →
  (∀ q, reg s !! addr_of y = Some q → node s' q = node s q) →
  written s' y = written s y.
Proof.
  intros Hs Hl Hr Hn. unfold written. rewrite Hr.
  destruct (reg s !! addr_of y) as [q|] eqn:E.
  - unfold written_register. by rewrite (Hn q).
  - by apply written_expression_symtab.
Qed.

(** The register [Add::generate], [Subtract::generate] and
    [Multiply::generate] compute in: the one that holds the left operand,
    or the first free one. *)
Definition accumulator (s : State) (_left : Expression) (r : Register)
    : Prop :=
  match reg s !! addr_of _left with
  | Some p => p = r ∧ node s r = Some _left
  | None => first_free s registers = Some r
  end.

Definition arithmetic_lines (opcode : string) (s : State)
    (_left : Expression) (src : Operand) (r : Register) : list Line :=
  (match reg s !! addr_of _left with
   | Some _ => []
   | None => fill_line s (Some _left) r
   end)
  ++ [Ins (opcode +:+ suffix (size (type_of _left)))
        [src; Rg (Register_name r (size (type_of _left)))]].

Lemma arithmetic_loads lo _left r s :
  frame_ok lo s → ready s _left → accumulator s _left r →
  ∃ s1, load_if_unbound _left getreg s = Returned tt s1
    ∧ stdout s1
      = stdout s ++
        match reg s !! addr_of _left with
        | Some _ => []
        | None => fill_line s (Some _left) r
        end
    ∧ length (fill_line s (Some _left) r) = 1%nat
    ∧ symtab s1 = symtab s ∧ offset s1 = offset s ∧ slot s1 = slot s
    ∧ node s1 r = Some _left ∧ reg s1 !! addr_of _left = Some r
    ∧ (∀ q, q ≠ r → node s1 q = node s q)
    ∧ (∀ a, a ≠ addr_of _left → reg s1 !! a = reg s !! a)
    ∧ frame_ok lo s1.
Proof.
  intros Hf Hrd Hacc. unfold accumulator in Hacc.
  assert (is_Some (written s _left)) as [o Ho] by (by eapply ready_written).
  assert (length (fill_line s (Some _left) r) = 1%nat) as Hlen.
  { unfold fill_line. by rewrite Ho. }
  destruct (reg s !! addr_of _left) as [p|] eqn:Ep.
  - destruct Hacc as [-> Hn]. exists s.
    rewrite (load_if_unbound_bound _ _ _ r) by done. by rewrite app_nil_r.
  - destruct (first_free_Some _ _ _ Hacc) as [_ Hr].
    destruct (load_fresh lo _left r s Hf Hrd Ep Hr) as
      (s1 & src & Hsrc & E1 & Hout1 & Hsym1 & Hoff1 & Hslot1 & Hcnt1 & Hn1
          & Hr1 & Hfn1 & Hfr1 & Hf1).
    exists s1. rewrite (load_if_unbound_getreg _ r) by done.
    split; [done|]. split; [|done].
    rewrite Hout1. unfold fill_line, written. by rewrite Ep, Hsrc.
Qed.

(** [Add::generate], [Subtract::generate] and [Multiply::generate] once
    the operands are generated: the left operand is loaded into the first
    free register unless it is in a register already, one instruction
    with the right operand as its source and that register as its
    destination is written, under the suffix of the left operand, and the
    register then holds the node of the operation, both operands being in
    no register. *)
Theorem arithmetic_emit_spec lo opcode this _left _right r s :
  frame_ok lo s → scalar this → ready s _left → ready s _right →
  reg s !! addr_of this = None →
  addr_of this ≠ addr_of _left → addr_of this ≠ addr_of _right →
  addr_of _left ≠ addr_of _right →
  accumulator s _left r →
  ∃ s' src,
    written s _right = Some src
    ∧ arithmetic_emit opcode this _left _right s = Returned tt s'
    ∧ stdout s' = stdout s ++ arithmetic_lines opcode s _left src r
    ∧ node s' r = Some this
    ∧ reg s' !! addr_of this = Some r
    ∧ reg s' !! addr_of _left = None
    ∧ reg s' !! addr_of _right = None
    ∧ offset s' = offset s
    ∧ frame_ok lo s'.
Proof.
  intros Hf Hst Hrl Hrr Hthis Htl Htr Hlr Hacc.
  destruct (arithmetic_loads lo _left r s Hf Hrl Hacc) as
    (s1 & E1 & Hout1 & _ & Hsym1 & Hoff1 & Hslot1 & Hn1 & Hr1 & Hfn1 & Hfr1
        & Hf1).
  assert (is_Some (written s _right)) as [src Hsrc]
    by (by eapply ready_written).
  assert (∀ q, reg s !! addr_of _right = Some q → q ≠ r) as Hqr.
  { intros q Hq ->. rewrite <- (Hfr1 (addr_of _right)) in Hq by done.
    destruct Hf1 as ([H1 _] & _). destruct (H1 _ _ Hq) as (n & Hn & Ha).
    rewrite Hn1 in Hn. injection Hn as <-. done. }
  assert (written s1 _right = Some src) as Hsrc1.
  { rewrite <- Hsrc. apply written_kept; [done|done|by apply Hfr1|].
    intros q Hq. apply Hfn1. by apply Hqr. }
  pose proof (scalar_sized _ (proj1 Hrl)) as Hszl.
  set (s2 := set_stdout (stdout s1 ++
     [Ins (opcode +:+ suffix (size (type_of _left)))
        [src; Rg (Register_name r (size (type_of _left)))]]) s1).
  assert (frame_ok lo s2) as Hf2 by (by apply frame_ok_stdout).
  destruct (assign_release _right s2) as (s3 & E3 & Hb3 & Hx3 & Hn3 & Hr3).
  destruct (rebinds_fields _ _ Hb3) as (Hs3 & Ho3 & Hl3 & Hout3 & Hc3).
  assert (frame_ok lo s3) as Hf3.
  { apply (assign_frame_ok lo (Some _right) None s2); [done| |done].
    intros ? [= <-]. apply Hrr. }
  assert (reg s3 !! addr_of _left = Some r) as Hl3'.
  { rewrite Hr3 by done. done. }
  assert (node s3 r = Some _left) as Hn3'.
  { rewrite Hn3. rewrite decide_False; [done|]. unfold s2. simpl.
    rewrite Hfr1 by done. intros Hq. by apply (Hqr r). }
  destruct (assign_binds this r s3) as (s4 & E4 & Hb4 & Hn4 & Hr4).
  { intros n. rewrite Hn3'. intros [= <-]. done. }
  destruct (rebinds_fields _ _ Hb4) as (Hs4 & Ho4 & Hl4 & Hout4 & Hc4).
  destruct (assign_effect (Some this) (Some r) s3)
    as (s4' & E4' & _ & Hnodes & Hregs).
  rewrite E4 in E4'. injection E4' as <-.
  assert (frame_ok lo s4) as Hf4.
  { apply (assign_frame_ok lo (Some this) (Some r) s3); [done| |done].
    by intros ? [= <-]. }
  exists s4, src. split; [done|]. split.
  { unfold arithmetic_emit, bind. rewrite E1.
    rewrite (suffix_of_sized _ _ Hszl).
    rewrite operand_written, Hsrc1. simpl.
    rewrite operand_written, (written_bound _ _ r) by done. simpl.
    fold s2. rewrite E3. unfold get. by rewrite Hl3'. }
  split.
  { rewrite Hout4, Hout3. unfold s2. simpl. rewrite Hout1.
    unfold arithmetic_lines. by rewrite <- app_assoc. }
  split; [done|]. split; [done|]. split.
  { destruct (reg s4 !! addr_of _left) as [q|] eqn:Eq; [|done]. exfalso.
    destruct Hf4 as ([H1 H2] & _). destruct (H1 _ _ Eq) as (m & Hm & Ha).
    destruct (decide (q = r)) as [->|Hq].
    - rewrite Hn4 in Hm. injection Hm as <-. done.
    - rewrite (Hnodes q) in Hm by (by intros [= ->]).
      case_decide; [done|].
      destruct Hf3 as ([_ H4] & _). apply H4 in Hm. rewrite Ha in Hm.
      congruence. }
  split.
  { rewrite Hregs; [done| |].
    - intros ? [= <-]. done.
    - intros q n [= <-]. rewrite Hn3'. intros [= <-]. done. }
  split; [|done]. unfold s2 in *. simpl in *. congruence.
Qed.

(** [x = e] for an identifier [x] and a literal or an identifier [e], with
    [r] the first free register: [e] is moved into [r] and [r] into the
    place of [x], both under the suffix of [e]; afterwards every register
    holds what it held before, so that the register assertions of a block
    pass after the statement if they passed before it. *)
Theorem Assignment_identifier_spec lo a t symbol sym _right r s :
  frame_ok lo s → atom _right = true → ready s _right →
  reg s !! addr_of _right = None → reg s !! a = None →
  a ≠ addr_of _right →
  symtab s !! symbol = Some sym →
  first_free s registers = Some r →
  ∃ s' src,
    written_expression s _right = Some src
    ∧ Statement_generate (Assignment (Identifier a t symbol) _right) s
      = Returned tt s'
    ∧ stdout s' = stdout s ++ store_lines r src (Symbol_operand sym) _right
    ∧ unmoved s s'
    ∧ frame_ok lo s'
    ∧ (registers_free registers s = Returned tt s →
       registers_free registers s' = Returned tt s').
Proof.
  intros Hf Hat Hrd Hright Hleft Hne Hsym Hfree.
  destruct (Assignment_store lo a t symbol sym _right r s)
    as (s' & src & Hsrc & E & Hout & Hu & Hf'); try done.
  exists s', src. split; [done|]. split; [done|]. split; [done|].
  split; [done|]. split; [done|].
  intros Hpass. apply registers_free_passes. intros q Hq.
  destruct Hu as [-> _].
  destruct (node s q) as [n|] eqn:En; [|done]. exfalso.
  rewrite (registers_free_stops registers q s) in Hpass; [done|done|].
  by rewrite En.
Qed.

Lemma Assignment_identifier_spec_witness :
  ∃ s' src,
    written_expression state_locals local_x' = Some src
    ∧ Statement_generate (Assignment local_a local_x') state_locals
      = Returned tt s'
    ∧ stdout s'
      = stdout state_locals ++
        store_lines rax src (Symbol_operand (mkSymbol "a" integer (-4)))
          local_x'
    ∧ unmoved state_locals s'
    ∧ frame_ok (-1000) s'
    ∧ (registers_free registers state_locals = Returned tt state_locals →
       registers_free registers s' = Returned tt s').
Proof.
  apply (Assignment_identifier_spec (-1000) 41 integer 1
           (mkSymbol "a" integer (-4)) local_x' rax state_locals).
  - split; [split; [intros a r H; done|intros r n H; done]|].
    split; [intros r n H; done|]. simpl. lia.
  - reflexivity.
  - split; [reflexivity|]. split; [by eexists|]. right. by eexists.
  - reflexivity.
  - reflexivity.
  - done.
  - reflexivity.
  - reflexivity.
Defined.

(** [a = x; y = 7;] *)
Definition two_stores : Statements :=
  [Assignment local_a local_x'; Assignment local_y (Number 45 integer 7)].

Lemma Block_generate_stores_witness :
  ∃ s', Statement_generate (Block [] two_stores) state_locals = Returned tt s'
    ∧ stdout s'
      = stdout state_locals ++
        concat (plain_store_lines state_locals <$> two_stores)
    ∧ unmoved state_locals s'.
Proof.
  apply (Block_generate_stores (-1000) [] two_stores state_locals).
  - split; [split; [intros a r H; done|intros r n H; done]|].
    split; [intros r n H; done|]. simpl. lia.
  - done.
  - repeat constructor; try done; try (by eexists); right; by eexists.
Defined.

(** [*pointer = e] for an identifier [pointer] and a literal or an
    identifier [e], with [r] and [r'] the first two free registers: the
    pointer is moved into [r] and [e] into [r']; the store that follows
    names no source register; and [r] still holds the pointer when the
    statement is over, [r'] being released.  In a block the register
    assertion after the statement therefore fails. *)
Theorem Assignment_dereference_stops_block lo a t pointer _right r r' s
    decls rest :
  frame_ok lo s →
  atom pointer = true → atom _right = true →
  ready s pointer → ready s _right →
  reg s !! addr_of pointer = None → reg s !! addr_of _right = None →
  reg s !! a = None →
  addr_of pointer ≠ addr_of _right → a ≠ addr_of pointer →
  a ≠ addr_of _right →
  first_free s registers = Some r →
  first_free s (filter (λ q, q ≠ r) registers) = Some r' →
  (∃ s' ptr src,
     written_expression s pointer = Some ptr
     ∧ written_expression s _right = Some src
     ∧ Statement_generate (Assignment (Dereference a t pointer) _right) s
       = Returned tt s'
     ∧ stdout s' = stdout s ++ indirect_store_lines r r' ptr src pointer _right
     ∧ node s' r = Some pointer
     ∧ reg s' !! addr_of pointer = Some r
     ∧ (∀ q, q ≠ r → node s' q = node s q))
  ∧ Statement_generate
      (Block decls (Assignment (Dereference a t pointer) _right :: rest)) s
    = Aborted.
Proof.
  intros Hf Hap Har Hrp Hrr Hp Hright Hleft Hpr Hap' Har' Hfree Hfree'.
  destruct (Assignment_indirect lo a t pointer _right r r' s)
    as (s' & ptr & src & Hptr & Hsrc & E & Hout & Hn & Hr & Hq); try done.
  split.
  { by exists s', ptr, src. }
  rewrite Block_generate_cons. unfold bind at 1.
  change (Statement_generate (Assignment (Dereference a t pointer) _right) s)
    with (Assignment_generate (Dereference a t pointer) _right s).
  rewrite E. unfold bind at 1.
  rewrite (registers_free_stops registers r s'); [done| |by rewrite Hn].
  by destruct (first_free_Some _ _ _ Hfree).
Qed.

(** [*p = x;] with [p] at [-8(%rbp)] and [x] at [-12(%rbp)]. *)
Definition state_pointer : State :=
  set_offset (-12)
    (set_symtab
       (list_to_map
          [(7%positive, mkSymbol "p" (TScalar INT 1) (-8));
           (2%positive, mkSymbol "x" integer (-12))])
       initial).

Definition pointer_to_int : Expression := Identifier 61 (TScalar INT 1) 7.

Lemma Assignment_dereference_stops_block_witness :
  (∃ s' ptr src,
     written_expression state_pointer pointer_to_int = Some ptr
     ∧ written_expression state_pointer local_x' = Some src
     ∧ Statement_generate
         (Assignment (Dereference 60 integer pointer_to_int) local_x')
         state_pointer
       = Returned tt s'
     ∧ stdout s'
       = stdout state_pointer ++
         indirect_store_lines rax rdi ptr src pointer_to_int local_x'
     ∧ node s' rax = Some pointer_to_int
     ∧ reg s' !! addr_of pointer_to_int = Some rax
     ∧ (∀ q, q ≠ rax → node s' q = node state_pointer q))
  ∧ Statement_generate
      (Block []
         [Assignment (Dereference 60 integer pointer_to_int) local_x'])
      state_pointer
    = Aborted.
Proof.
  apply (Assignment_dereference_stops_block (-1000) 60 integer
           pointer_to_int local_x' rax rdi state_pointer [] []).
  - split; [split; [intros a r H; done|intros r n H; done]|].
    split; [intros r n H; done|]. simpl. lia.
  - reflexivity.
  - reflexivity.
  - split; [reflexivity|]. split; [by eexists|]. right. by eexists.
  - split; [reflexivity|]. split; [by eexists|]. right. by eexists.
  - reflexivity.
  - reflexivity.
  - reflexivity.
  - done.
  - done.
  - done.
  - reflexivity.
  - reflexivity.
Defined.

(** [a + x] with all registers free. *)
Definition sum_a_x : Expression := Add 51 integer local_a local_x'.

Lemma arithmetic_emit_spec_witness :
  ∃ s' src,
    written state_locals local_x' = Some src
    ∧ arithmetic_emit "add" sum_a_x local_a local_x' state_locals
      = Returned tt s'
    ∧ stdout s'
      = stdout state_locals ++
        arithmetic_lines "add" state_locals local_a src rax
    ∧ node s' rax = Some sum_a_x
    ∧ reg s' !! addr_of sum_a_x = Some rax
    ∧ reg s' !! addr_of local_a = None
    ∧ reg s' !! addr_of local_x' = None
    ∧ offset s' = offset state_locals
    ∧ frame_ok (-1000) s'.
Proof.
  apply (arithmetic_emit_spec (-1000) "add" sum_a_x local_a local_x' rax
           state_locals).
  - split; [split; [intros a r H; done|intros r n H; done]|].
    split; [intros r n H; done|]. simpl. lia.
  - reflexivity.
  - split; [reflexivity|]. split; [by eexists|]. right. by eexists.
  - split; [reflexivity|]. split; [by eexists|]. right. by eexists.
  - reflexivity.
  - done.
  - done.
  - done.
  - reflexivity.
Defined.

